(** * KVStore: a durable ordered key-value store

    Shallow embedding of [kvstore/server/main.go] (the file-backed server
    with its hand-framed write-ahead log), of the SQLite-backed server
    variant and of the in-memory server variant, together with the
    properties of the storage and recovery core.

    Go strings are byte sequences: they are modelled as [string] (a list of
    8-bit [ascii]); Go byte slices are modelled as [list ascii]. *)

From Stdlib Require Import List Arith Lia Bool NArith ZArith Ascii String Sorted.
Import ListNotations.

Local Open Scope string_scope.
Local Open Scope list_scope.

Abbreviation byte := ascii (only parsing).

(** ** The ordered index: [github.com/google/btree]

    The B-tree is used through four operations only ([Get],
    [ReplaceOrInsert], [Delete], [AscendGreaterOrEqual]) and a [Less]
    method on the stored items.  Its contents are modelled by the ascending
    list of the items it holds. *)

(** [type item struct { key string; value string }] *)
Record item := mkItem { key : string; value : string }.

(** [func (a item) Less(b btree.Item) bool { return a.key < b.(item).key }] *)
Definition Less (a b : item) : bool := String.ltb (key a) (key b).

Module btree.

Definition BTree := list item.

(** [btree.New(8)] *)
Definition New : BTree := [].

(** [t.Get(key)]: the stored item equal to [key] under [Less], if any. *)
Fixpoint Get (t : BTree) (k : item) : option item :=
  match t with
  | [] => None
  | x :: r =>
      if Less k x then None
      else if Less x k then Get r k
      else Some x
  end.

(** [t.ReplaceOrInsert(it)]: the new tree and the displaced item. *)
Fixpoint ReplaceOrInsert (t : BTree) (it : item) : BTree * option item :=
  match t with
  | [] => ([it], None)
  | x :: r =>
      if Less it x then (it :: x :: r, None)
      else if Less x it then
        let '(r', old) := ReplaceOrInsert r it in (x :: r', old)
      else (it :: r, Some x)
  end.

(** [t.Delete(it)]: the new tree and the removed item. *)
Fixpoint Delete (t : BTree) (it : item) : BTree * option item :=
  match t with
  | [] => ([], None)
  | x :: r =>
      if Less it x then (x :: r, None)
      else if Less x it then
        let '(r', old) := Delete r it in (x :: r', old)
      else (r, Some x)
  end.

(** The iterator protocol: the callback is called on each item in
    ascending order and returns [false] to stop.  The callback's captured
    variables are threaded through as the accumulator [a]. *)
Fixpoint ascend {A : Type} (t : BTree) (iterator : item -> A -> bool * A)
    (a : A) : A :=
  match t with
  | [] => a
  | x :: r =>
      let '(continue, a') := iterator x a in
      if continue then ascend r iterator a' else a'
  end.

Fixpoint seek (t : BTree) (pivot : item) : BTree :=
  match t with
  | [] => []
  | x :: r => if Less x pivot then seek r pivot else x :: r
  end.

(** [t.AscendGreaterOrEqual(pivot, iterator)] *)
Definition AscendGreaterOrEqual {A : Type} (t : BTree) (pivot : item)
    (iterator : item -> A -> bool * A) (a : A) : A :=
  ascend (seek t pivot) iterator a.

(** Representation invariant of the tree: strictly ascending keys. *)
Fixpoint ordered (t : BTree) : bool :=
  match t with
  | [] => true
  | x :: r =>
      match r with
      | [] => true
      | y :: _ => Less x y && ordered r
      end
  end.

End btree.

(** ** Replies of the five RPCs ([kvpb]) *)

Record KVPair := mkPair { pair_key : string; pair_value : string }.

(** The body of [Scan]: the closure passed to [AscendGreaterOrEqual]
    appends to [pairs] and stops at the first key above [endKey]. *)
Definition scan_visit (endKey : string) (it : item) (pairs : list KVPair)
  : bool * list KVPair :=
  if String.ltb endKey (key it) (* it.key > endKey: inclusive end *)
  then (false, pairs)
  else (true, pairs ++ [mkPair (key it) (value it)]).

Definition scan_tree (t : btree.BTree) (startKey endKey : string)
  : list KVPair :=
  btree.AscendGreaterOrEqual t (mkItem startKey "") (scan_visit endKey) [].

(** Vocabulary of the SCAN properties: the inclusive range test, the pair
    emitted for an item, and strictly ascending key order. *)
Definition in_range (a b : string) (it : item) : bool :=
  String.leb a (key it) && String.leb (key it) b.

Definition to_pair (it : item) : KVPair := mkPair (key it) (value it).

Definition ascending (ps : list KVPair) : Prop :=
  StronglySorted (fun p q => String.ltb (pair_key p) (pair_key q) = true) ps.

(** ** [unicode/utf8]

    Runes and byte values are natural numbers; [b2n] reads a byte and
    [n2b] is Go's conversion [byte(x)], which keeps the low eight bits. *)

Definition rune := N.

(** The double quote character. *)
Definition quote : byte := "034"%char.

Definition b2n (b : byte) : N := N_of_ascii b.
Definition n2b (n : N) : byte := ascii_of_N n.

Module utf8.

Local Open Scope N_scope.

Definition RuneError : rune := 0xFFFD.
Definition RuneSelf : N := 0x80.
Definition MaxRune : rune := 0x10FFFF.
Definition UTFMax : nat := 4.

Definition surrogateMin : rune := 0xD800.
Definition surrogateMax : rune := 0xDFFF.

Definition tx : N := 0x80.
Definition t2 : N := 0xC0.
Definition t3 : N := 0xE0.
Definition t4 : N := 0xF0.

Definition maskx : N := 0x3F.
Definition mask2 : N := 0x1F.
Definition mask3 : N := 0x0F.
Definition mask4 : N := 0x07.

Definition rune1Max : rune := 0x7F.
Definition rune2Max : rune := 0x7FF.
Definition rune3Max : rune := 0xFFFF.

Definition locb : N := 0x80.
Definition hicb : N := 0xBF.

(** Entries of the [first] table: the size of the sequence in the low
    three bits and the index into [acceptRanges] in the high four. *)
Definition xx : N := 0xF1.
Definition as_ : N := 0xF0.
Definition s1 : N := 0x02.
Definition s2 : N := 0x13.
Definition s3 : N := 0x03.
Definition s4 : N := 0x23.
Definition s5 : N := 0x34.
Definition s6 : N := 0x04.
Definition s7 : N := 0x44.

(** The table [first], by ranges of the leading byte. *)
Definition first (p0 : N) : N :=
  if p0 <? 0x80 then as_
  else if p0 <? 0xC2 then xx
  else if p0 <? 0xE0 then s1
  else if p0 =? 0xE0 then s2
  else if p0 <? 0xED then s3
  else if p0 =? 0xED then s4
  else if p0 <? 0xF0 then s3
  else if p0 =? 0xF0 then s5
  else if p0 <? 0xF4 then s6
  else if p0 =? 0xF4 then s7
  else xx.

(** The table [acceptRanges]: bounds of the second byte. *)
Definition acceptRanges (i : N) : N * N :=
  match i with
  | 0 => (locb, hicb)
  | 1 => (0xA0, hicb)
  | 2 => (locb, 0x9F)
  | 3 => (0x90, hicb)
  | 4 => (locb, 0x8F)
  | _ => (0, 0)
  end.

(** [utf8.DecodeRune(p)]: the first rune of [p] and its width in bytes;
    [(RuneError, 0)] on empty input and [(RuneError, 1)] on an invalid
    encoding. *)
Definition DecodeRune (p : list byte) : rune * nat :=
  match p with
  | [] => (RuneError, 0%nat)
  | c0 :: p1 =>
      let p0 := b2n c0 in
      let x := first p0 in
      if as_ <=? x then
        ((if N.odd x then RuneError else p0), 1%nat)
      else
        let sz := N.to_nat (N.land x 7) in
        let '(lo, hi) := acceptRanges (N.shiftr x 4) in
        if (List.length p <? sz)%nat then (RuneError, 1%nat)
        else
          match p1 with
          | [] => (RuneError, 1%nat)
          | c1 :: p2 =>
              let b1 := b2n c1 in
              if (b1 <? lo) || (hi <? b1) then (RuneError, 1%nat)
              else if (sz <=? 2)%nat then
                (N.lor (N.shiftl (N.land p0 mask2) 6) (N.land b1 maskx), 2%nat)
              else
                match p2 with
                | [] => (RuneError, 1%nat)
                | c2 :: p3 =>
                    let b2 := b2n c2 in
                    if (b2 <? locb) || (hicb <? b2) then (RuneError, 1%nat)
                    else if (sz <=? 3)%nat then
                      (N.lor (N.lor (N.shiftl (N.land p0 mask3) 12)
                                    (N.shiftl (N.land b1 maskx) 6))
                             (N.land b2 maskx), 3%nat)
                    else
                      match p3 with
                      | [] => (RuneError, 1%nat)
                      | c3 :: _ =>
                          let b3 := b2n c3 in
                          if (b3 <? locb) || (hicb <? b3)
                          then (RuneError, 1%nat)
                          else
                            (N.lor (N.lor (N.lor
                               (N.shiftl (N.land p0 mask4) 18)
                               (N.shiftl (N.land b1 maskx) 12))
                               (N.shiftl (N.land b2 maskx) 6))
                               (N.land b3 maskx), 4%nat)
                      end
                end
          end
  end.

Definition encode3 (r : rune) : list byte :=
  [n2b (N.lor t3 (N.shiftr r 12));
   n2b (N.lor tx (N.land (N.shiftr r 6) maskx));
   n2b (N.lor tx (N.land r maskx))].

(** [utf8.AppendRune(nil, r)] / [utf8.EncodeRune]: the UTF-8 encoding of
    [r]; surrogates and runes out of range encode as [RuneError]. *)
Definition EncodeRune (r : rune) : list byte :=
  if r <=? rune1Max then [n2b r]
  else if r <=? rune2Max then
    [n2b (N.lor t2 (N.shiftr r 6)); n2b (N.lor tx (N.land r maskx))]
  else if (MaxRune <? r) || ((surrogateMin <=? r) && (r <=? surrogateMax))
  then encode3 RuneError
  else if r <=? rune3Max then encode3 r
  else
    [n2b (N.lor t4 (N.shiftr r 18));
     n2b (N.lor tx (N.land (N.shiftr r 12) maskx));
     n2b (N.lor tx (N.land (N.shiftr r 6) maskx));
     n2b (N.lor tx (N.land r maskx))].

(** [utf8.Valid(p)]: [p] consists of valid encodings only.  The counter
    [skip] holds the bytes of the current rune still to be passed over
    (the loop's [i += size]). *)
Fixpoint valid_from (p : list byte) (skip : nat) : bool :=
  match p with
  | [] => true
  | c :: rest =>
      match skip with
      | S k => valid_from rest k
      | O =>
          if b2n c <? RuneSelf then valid_from rest 0
          else
            let '(r, size) := DecodeRune p in
            if (size =? 1)%nat then false
            else valid_from rest (size - 1)
      end
  end.

Definition Valid (p : list byte) : bool := valid_from p 0.

Definition ValidString (s : string) : bool := Valid (list_ascii_of_string s).

End utf8.

(** ** Errors

    Go's [error] values that the server produces or inspects.  [Errorw msg
    e] is [fmt.Errorf(msg + ": %w", e)], which wraps [e]; [Errorf msg] is an
    error made from a message alone (its formatted arguments are left
    out). *)

Inductive error :=
| io_EOF
| io_ErrUnexpectedEOF
| io_ErrShortWrite
| device_error            (* an error reported by the operating system *)
| json_SyntaxError
| json_UnmarshalTypeError
| fuel_exhausted          (* marks a loop bound of the model; never returned *)
| Errorf (msg : string)
| Errorw (msg : string) (wrapped : error).

Fixpoint error_eqb (a b : error) : bool :=
  match a, b with
  | io_EOF, io_EOF => true
  | io_ErrUnexpectedEOF, io_ErrUnexpectedEOF => true
  | io_ErrShortWrite, io_ErrShortWrite => true
  | device_error, device_error => true
  | json_SyntaxError, json_SyntaxError => true
  | json_UnmarshalTypeError, json_UnmarshalTypeError => true
  | fuel_exhausted, fuel_exhausted => true
  | Errorw m x, Errorw n y => String.eqb m n && error_eqb x y
  | Errorf m, Errorf n => String.eqb m n
  | _, _ => false
  end.

(** [errors.Is(err, target)] on the unwrap chain of [err]. *)
Fixpoint errors_Is_chain (e target : error) : bool :=
  error_eqb e target ||
  match e with
  | Errorw _ w => errors_Is_chain w target
  | _ => false
  end.

Definition errors_Is (err : option error) (target : error) : bool :=
  match err with
  | None => false
  | Some e => errors_Is_chain e target
  end.

Inductive result (A : Type) :=
| Ok (a : A)
| Err (e : error).
Arguments Ok {A} a.
Arguments Err {A} e.

(** ** The write-ahead-log record

    [type walCommand struct { Op string `json:"op"`; Key string
    `json:"key"`; Value string `json:"value,omitempty"` }] *)
Record walCommand := mkCmd { Op : string; Key : string; Value : string }.

(** ** [encoding/json]: encoding *)

Module json.

Local Open Scope N_scope.

Definition bytes (s : string) : list byte := list_ascii_of_string s.

(** [const hex = "0123456789abcdef"] *)
Definition hex (n : N) : byte :=
  match String.get (N.to_nat n) "0123456789abcdef" with
  | Some c => c
  | None => "0"%char
  end.

(** [htmlSafeSet]: the ASCII bytes that [Marshal] copies unescaped: all
    from space to DEL except the quote, the backslash and the three
    characters [<], [>], [&]. *)
Definition htmlSafeSet (b : byte) : bool :=
  let n := b2n b in
  (0x20 <=? n) && (n <? 0x80) &&
  negb (Ascii.eqb b quote || Ascii.eqb b "\" || Ascii.eqb b "<"
        || Ascii.eqb b ">" || Ascii.eqb b "&")%char.

(** The escape written for an ASCII byte outside [htmlSafeSet]. *)
Definition escape (b : byte) : list byte :=
  let n := b2n b in
  if Ascii.eqb b "\" || Ascii.eqb b quote then ["\"%char; b]
  else if n =? 0x08 then bytes "\b"
  else if n =? 0x0C then bytes "\f"
  else if n =? 0x0A then bytes "\n"
  else if n =? 0x0D then bytes "\r"
  else if n =? 0x09 then bytes "\t"
  else bytes "\u00" ++ [hex (N.shiftr n 4); hex (N.land n 0xF)].

(** The loop of [appendString(dst, src, escapeHTML = true)].  [skip]
    counts the remaining bytes of a multi-byte rune already emitted (the
    loop's [i += size]). *)
Fixpoint appendString_loop (src : list byte) (skip : nat) : list byte :=
  match src with
  | [] => []
  | b :: rest =>
      match skip with
      | S k => appendString_loop rest k
      | O =>
          if b2n b <? utf8.RuneSelf then
            (if htmlSafeSet b then [b] else escape b)
            ++ appendString_loop rest 0
          else
            let '(c, size) := utf8.DecodeRune (firstn utf8.UTFMax src) in
            if (c =? utf8.RuneError) && (size =? 1)%nat then
              bytes "\ufffd" ++ appendString_loop rest 0
            else if (c =? 0x2028) || (c =? 0x2029) then
              bytes "\u202" ++ [hex (N.land c 0xF)]
              ++ appendString_loop rest (size - 1)
            else
              firstn size src ++ appendString_loop rest (size - 1)
      end
  end.

Definition appendString (src : string) : list byte :=
  quote :: appendString_loop (bytes src) 0 ++ [quote].

(** [json.Marshal(cmd)] for a [walCommand]: the fields in declaration
    order, each after the opening brace or a comma and its quoted name
    with a colon, [value] left out when it is empty.  Encoding a struct of
    strings has no failing case, so the error is always nil. *)
Definition field_prefix (opening : byte) (name : string) : list byte :=
  opening :: quote :: bytes name ++ [quote; ":"%char].

Definition Marshal (cmd : walCommand) : list byte * option error :=
  (field_prefix "{" "op" ++ appendString (Op cmd)
   ++ field_prefix "," "key" ++ appendString (Key cmd)
   ++ (if (String.length (Value cmd) =? 0)%nat then []
       else field_prefix "," "value" ++ appendString (Value cmd))
   ++ bytes "}",
   None).

(** *** Decoding

    [json.Unmarshal] first checks that the input is one well-formed JSON
    value ([checkValid], a scanner over the grammar below) and then
    decodes it into the struct. *)

(** [isSpace] *)
Definition isSpace (c : byte) : bool :=
  let n := b2n c in
  (n =? 0x20) || (n =? 0x09) || (n =? 0x0D) || (n =? 0x0A).

Fixpoint skip_ws (l : list byte) : list byte :=
  match l with
  | c :: r => if isSpace c then skip_ws r else l
  | [] => []
  end.

Definition isDigit (c : byte) : bool := (0x30 <=? b2n c) && (b2n c <=? 0x39).

Definition hexval (c : byte) : option N :=
  let n := b2n c in
  if (0x30 <=? n) && (n <=? 0x39) then Some (n - 0x30)
  else if (0x61 <=? n) && (n <=? 0x66) then Some (n - 0x61 + 10)
  else if (0x41 <=? n) && (n <=? 0x46) then Some (n - 0x41 + 10)
  else None.

Definition isHex (c : byte) : bool :=
  match hexval c with Some _ => true | None => false end.

(** The escapes the scanner accepts after a backslash, apart from [u]. *)
Definition isSimpleEscape (c : byte) : bool :=
  (Ascii.eqb c "b" || Ascii.eqb c "f" || Ascii.eqb c "n" || Ascii.eqb c "r"
   || Ascii.eqb c "t" || Ascii.eqb c "\" || Ascii.eqb c "/"
   || Ascii.eqb c quote)%char.

(** The scanner inside a string literal, entered after the opening
    quote: the raw bytes up to the closing quote and the input after
    it.  Control characters and malformed escapes are syntax errors. *)
Fixpoint scan_string (l : list byte) : option (list byte * list byte) :=
  match l with
  | [] => None
  | c :: r =>
      if Ascii.eqb c quote then Some ([], r)
      else if Ascii.eqb c "\" then
        match r with
        | [] => None
        | e :: r1 =>
            if isSimpleEscape e then
              match scan_string r1 with
              | Some (raw, rest) => Some (c :: e :: raw, rest)
              | None => None
              end
            else if Ascii.eqb e "u" then
              match r1 with
              | h1 :: h2 :: h3 :: h4 :: r2 =>
                  if isHex h1 && isHex h2 && isHex h3 && isHex h4 then
                    match scan_string r2 with
                    | Some (raw, rest) =>
                        Some (c :: e :: h1 :: h2 :: h3 :: h4 :: raw, rest)
                    | None => None
                    end
                  else None
              | _ => None
              end
            else None
        end
      else if b2n c <? 0x20 then None
      else
        match scan_string r with
        | Some (raw, rest) => Some (c :: raw, rest)
        | None => None
        end
  end.

(** [getu4(s)]: the value of a [\uXXXX] escape at the start of [s]. *)
Definition getu4 (s : list byte) : option rune :=
  match s with
  | b0 :: b1 :: h1 :: h2 :: h3 :: h4 :: _ =>
      if Ascii.eqb b0 "\" && Ascii.eqb b1 "u" then
        match hexval h1, hexval h2, hexval h3, hexval h4 with
        | Some a, Some b, Some c, Some d => Some (a * 4096 + b * 256 + c * 16 + d)
        | _, _, _, _ => None
        end
      else None
  | _ => None
  end.

(** [utf16.IsSurrogate] and [utf16.DecodeRune] *)
Definition utf16_IsSurrogate (r : rune) : bool :=
  (0xD800 <=? r) && (r <? 0xE000).

Definition utf16_DecodeRune (r1 : rune) (r2 : option rune) : rune :=
  match r2 with
  | Some r2 =>
      if (0xD800 <=? r1) && (r1 <? 0xDC00) && (0xDC00 <=? r2) && (r2 <? 0xE000)
      then N.lor (N.shiftl (r1 - 0xD800) 10) (r2 - 0xDC00) + 0x10000
      else utf8.RuneError
  | None => utf8.RuneError
  end.

(** The character denoted by a one-letter escape. *)
Definition unescape (e : byte) : option byte :=
  if (Ascii.eqb e quote || Ascii.eqb e "\" || Ascii.eqb e "/"
      || Ascii.eqb e "'")%char then Some e
  else if Ascii.eqb e "b" then Some (n2b 0x08)
  else if Ascii.eqb e "f" then Some (n2b 0x0C)
  else if Ascii.eqb e "n" then Some (n2b 0x0A)
  else if Ascii.eqb e "r" then Some (n2b 0x0D)
  else if Ascii.eqb e "t" then Some (n2b 0x09)
  else None.

Definition prepend (pre : list byte) (o : option (list byte))
  : option (list byte) :=
  match o with Some t => Some (pre ++ t) | None => None end.

(** The decoding loop of [unquoteBytes] over the contents of a literal:
    escapes are replaced by what they denote and the rest is coerced to
    well-formed UTF-8.  [skip] counts the bytes of the current escape or
    rune still to be passed over (the loop's [r += size], [r += 6]). *)
Fixpoint unquote_loop (s : list byte) (skip : nat) : option (list byte) :=
  match s with
  | [] => Some []
  | c :: rest =>
      match skip with
      | S k => unquote_loop rest k
      | O =>
          if Ascii.eqb c "\" then
            match rest with
            | [] => None
            | e :: _ =>
                if Ascii.eqb e "u" then
                  match getu4 s with
                  | None => None
                  | Some rr =>
                      if utf16_IsSurrogate rr then
                        let dec := utf16_DecodeRune rr (getu4 (skipn 6 s)) in
                        if negb (dec =? utf8.RuneError) then
                          prepend (utf8.EncodeRune dec) (unquote_loop rest 11)
                        else
                          prepend (utf8.EncodeRune utf8.RuneError)
                                  (unquote_loop rest 5)
                      else
                        prepend (utf8.EncodeRune rr) (unquote_loop rest 5)
                  end
                else
                  match unescape e with
                  | Some ch => prepend [ch] (unquote_loop rest 1)
                  | None => None
                  end
            end
          else if Ascii.eqb c quote || (b2n c <? 0x20) then None
          else if b2n c <? utf8.RuneSelf then
            prepend [c] (unquote_loop rest 0)
          else
            let '(rr, size) := utf8.DecodeRune s in
            prepend (utf8.EncodeRune rr) (unquote_loop rest (size - 1))
      end
  end.

Definition unquoteBytes (raw : list byte) : option (list byte) :=
  unquote_loop raw 0.

Fixpoint skip_digits (l : list byte) : list byte :=
  match l with
  | c :: r => if isDigit c then skip_digits r else l
  | [] => []
  end.

Definition scan_exp (l : list byte) : option (list byte) :=
  match l with
  | c :: r =>
      if (Ascii.eqb c "e" || Ascii.eqb c "E")%char then
        let r1 := match r with
                  | sgn :: r' =>
                      if (Ascii.eqb sgn "+" || Ascii.eqb sgn "-")%char
                      then r' else r
                  | [] => r
                  end in
        match r1 with
        | d :: r2 => if isDigit d then Some (skip_digits r2) else None
        | [] => None
        end
      else Some l
  | [] => Some l
  end.

Definition scan_frac (l : list byte) : option (list byte) :=
  match l with
  | c :: r =>
      if Ascii.eqb c "." then
        match r with
        | d :: r1 => if isDigit d then scan_exp (skip_digits r1) else None
        | [] => None
        end
      else scan_exp l
  | [] => Some l
  end.

(** The scanner on a number: the input after it. *)
Definition scan_number (l : list byte) : option (list byte) :=
  let l1 := match l with
            | c :: r => if Ascii.eqb c "-" then r else l
            | [] => l
            end in
  match l1 with
  | c :: r =>
      if Ascii.eqb c "0" then scan_frac r
      else if isDigit c then scan_frac (skip_digits r)
      else None
  | [] => None
  end.

Fixpoint strip_prefix (pre l : list byte) : option (list byte) :=
  match pre, l with
  | [], _ => Some l
  | p :: pre', c :: l' => if Ascii.eqb p c then strip_prefix pre' l' else None
  | _ :: _, [] => None
  end.

(** What the decoder sees of a value: its kind, and its contents when it
    is a string.  Arrays and objects in value position are checked by
    the scanner and skipped by the decoder. *)
Inductive jvalue :=
| JNull
| JBool (b : bool)
| JNumber
| JString (s : string)
| JArray
| JObject.

Inductive pres (A : Type) :=
| POk (a : A) (rest : list byte)
| PErr
| PFuel.
Arguments POk {A} a rest.
Arguments PErr {A}.
Arguments PFuel {A}.

Definition member := (string * jvalue)%type.

(** One JSON value at the head of [l].  [fuel] bounds the number of
    nested calls; more than the length of the input is always enough
    ([parse_fuel] below). *)
Fixpoint parse_value (fuel : nat) (l : list byte) {struct fuel}
  : pres jvalue :=
  match fuel with
  | O => PFuel
  | S f =>
      match l with
      | [] => PErr
      | c :: r =>
          if Ascii.eqb c "{" then
            match skip_ws r with
            | c' :: r' =>
                if Ascii.eqb c' "}" then POk JObject r'
                else
                  match parse_members f (c' :: r') with
                  | POk _ r'' => POk JObject r''
                  | PErr => PErr
                  | PFuel => PFuel
                  end
            | [] => PErr
            end
          else if Ascii.eqb c "[" then
            match skip_ws r with
            | c' :: r' =>
                if Ascii.eqb c' "]" then POk JArray r'
                else
                  match parse_value f (c' :: r') with
                  | POk _ r1 =>
                      match parse_elems f r1 with
                      | POk _ r'' => POk JArray r''
                      | PErr => PErr
                      | PFuel => PFuel
                      end
                  | PErr => PErr
                  | PFuel => PFuel
                  end
            | [] => PErr
            end
          else if Ascii.eqb c quote then
            match scan_string r with
            | Some (raw, r') =>
                match unquoteBytes raw with
                | Some s => POk (JString (string_of_list_ascii s)) r'
                | None => PErr
                end
            | None => PErr
            end
          else if Ascii.eqb c "t" then
            match strip_prefix (bytes "rue") r with
            | Some r' => POk (JBool true) r'
            | None => PErr
            end
          else if Ascii.eqb c "f" then
            match strip_prefix (bytes "alse") r with
            | Some r' => POk (JBool false) r'
            | None => PErr
            end
          else if Ascii.eqb c "n" then
            match strip_prefix (bytes "ull") r with
            | Some r' => POk JNull r'
            | None => PErr
            end
          else
            match scan_number l with
            | Some r' => POk JNumber r'
            | None => PErr
            end
      end
  end

(** The members of an object from a key on, up to the closing brace. *)
with parse_members (fuel : nat) (l : list byte) {struct fuel}
  : pres (list member) :=
  match fuel with
  | O => PFuel
  | S f =>
      match l with
      | c :: r =>
          if Ascii.eqb c quote then
            match scan_string r with
            | Some (raw, r1) =>
                match unquoteBytes raw with
                | Some k =>
                    match skip_ws r1 with
                    | c2 :: r2 =>
                        if Ascii.eqb c2 ":" then
                          match parse_value f (skip_ws r2) with
                          | POk v r3 =>
                              match skip_ws r3 with
                              | c4 :: r4 =>
                                  if Ascii.eqb c4 "," then
                                    match parse_members f (skip_ws r4) with
                                    | POk ms r5 =>
                                        POk ((string_of_list_ascii k, v) :: ms) r5
                                    | PErr => PErr
                                    | PFuel => PFuel
                                    end
                                  else if Ascii.eqb c4 "}" then
                                    POk [(string_of_list_ascii k, v)] r4
                                  else PErr
                              | [] => PErr
                              end
                          | PErr => PErr
                          | PFuel => PFuel
                          end
                        else PErr
                    | [] => PErr
                    end
                | None => PErr
                end
            | None => PErr
            end
          else PErr
      | [] => PErr
      end
  end

(** The rest of an array after an element: further elements, each after
    a comma, up to the closing bracket. *)
with parse_elems (fuel : nat) (l : list byte) {struct fuel} : pres unit :=
  match fuel with
  | O => PFuel
  | S f =>
      match skip_ws l with
      | c :: r =>
          if Ascii.eqb c "," then
            match parse_value f (skip_ws r) with
            | POk _ r1 => parse_elems f r1
            | PErr => PErr
            | PFuel => PFuel
            end
          else if Ascii.eqb c "]" then POk tt r
          else PErr
      | [] => PErr
      end
  end.

(** The members of an object, entered after the opening brace. *)
Definition parse_object (fuel : nat) (l : list byte) : pres (list member) :=
  match skip_ws l with
  | c :: r =>
      if Ascii.eqb c "}" then POk [] r
      else parse_members fuel (c :: r)
  | [] => PErr
  end.

(** *** Decoding into a [walCommand] *)

(** [foldRune(r)]: the least rune of the case-folding orbit of [r].
    Folded names are only ever compared with the folded names of the
    three fields, which are ASCII; the only runes above ASCII whose orbit
    contains an ASCII letter are the Kelvin sign (orbit of [K]) and the
    long s (orbit of [S]).  The fold of every other rune above ASCII is
    some rune above ASCII, represented here by the rune itself. *)
Definition foldRune (r : rune) : rune :=
  if r =? 0x212A then 0x4B
  else if r =? 0x17F then 0x53
  else r.

(** [foldName(in)]: ASCII letters in upper case, other runes folded. *)
Fixpoint foldName_loop (s : list byte) (skip : nat) : list byte :=
  match s with
  | [] => []
  | c :: rest =>
      match skip with
      | S k => foldName_loop rest k
      | O =>
          let n := b2n c in
          if n <? utf8.RuneSelf then
            (if (0x61 <=? n) && (n <=? 0x7A) then n2b (n - 0x20) else c)
            :: foldName_loop rest 0
          else
            let '(r, size) := utf8.DecodeRune s in
            utf8.EncodeRune (foldRune r) ++ foldName_loop rest (size - 1)
      end
  end.

Definition foldName (s : string) : string :=
  string_of_list_ascii (foldName_loop (bytes s) 0).

Inductive field := f_Op | f_Key | f_Value.

Definition field_name (f : field) : string :=
  match f with f_Op => "op" | f_Key => "key" | f_Value => "value" end.

(** The struct field a member key selects: the field of that exact name,
    or else the field whose folded name equals the folded key. *)
Definition find_field (k : string) : option field :=
  if String.eqb k "op" then Some f_Op
  else if String.eqb k "key" then Some f_Key
  else if String.eqb k "value" then Some f_Value
  else
    let fk := foldName k in
    if String.eqb fk (foldName "op") then Some f_Op
    else if String.eqb fk (foldName "key") then Some f_Key
    else if String.eqb fk (foldName "value") then Some f_Value
    else None.

Definition set_field (f : field) (s : string) (cmd : walCommand)
  : walCommand :=
  match f with
  | f_Op => mkCmd s (Key cmd) (Value cmd)
  | f_Key => mkCmd (Op cmd) s (Value cmd)
  | f_Value => mkCmd (Op cmd) (Key cmd) s
  end.

(** Storing the members one after the other: a string sets its field,
    [null] leaves it, any other kind records an [UnmarshalTypeError]
    (the first one is kept) and decoding goes on; members that select
    no field are skipped. *)
Fixpoint store_members (ms : list member) (cmd : walCommand)
    (saved : option error) : walCommand * option error :=
  match ms with
  | [] => (cmd, saved)
  | (k, v) :: ms' =>
      match find_field k with
      | None => store_members ms' cmd saved
      | Some f =>
          match v with
          | JString s => store_members ms' (set_field f s cmd) saved
          | JNull => store_members ms' cmd saved
          | _ =>
              store_members ms' cmd
                (match saved with
                 | None => Some json_UnmarshalTypeError
                 | Some e => Some e
                 end)
          end
      end
  end.

(** [json.Unmarshal(data, &cmd)] with [cmd] the zero [walCommand]: the
    decoded command, or the error. *)
Definition Unmarshal (data : list byte) : result walCommand :=
  let zero := mkCmd "" "" "" in
  let fuel := S (List.length data) in
  match skip_ws data with
  | [] => Err json_SyntaxError
  | c :: r =>
      if Ascii.eqb c "{" then
        match parse_object fuel r with
        | POk ms rest =>
            match skip_ws rest with
            | [] =>
                match store_members ms zero None with
                | (cmd, None) => Ok cmd
                | (_, Some e) => Err e
                end
            | _ :: _ => Err json_SyntaxError
            end
        | PErr => Err json_SyntaxError
        | PFuel => Err fuel_exhausted
        end
      else
        match parse_value fuel (c :: r) with
        | POk v rest =>
            match skip_ws rest with
            | [] =>
                match v with
                | JNull => Ok zero
                | _ => Err json_UnmarshalTypeError
                end
            | _ :: _ => Err json_SyntaxError
            end
        | PErr => Err json_SyntaxError
        | PFuel => Err fuel_exhausted
        end
  end.

End json.

(** ** [encoding/binary]: big-endian 32-bit integers *)

Module binary.

Local Open Scope N_scope.

(** [binary.BigEndian.PutUint32(b, v)] on a four-byte slice. *)
Definition PutUint32 (v : N) : list byte :=
  [n2b (N.shiftr v 24); n2b (N.shiftr v 16); n2b (N.shiftr v 8); n2b v].

(** [binary.BigEndian.Uint32(b)] *)
Definition Uint32 (b : list byte) : N :=
  match b with
  | b0 :: b1 :: b2 :: b3 :: _ =>
      N.lor (N.lor (N.lor (b2n b3) (N.shiftl (b2n b2) 8))
                   (N.shiftl (b2n b1) 16))
            (N.shiftl (b2n b0) 24)
  | _ => 0
  end.

(** The conversion [uint32(n)] of an [int]. *)
Definition uint32 (n : nat) : N := N.of_nat n mod 2 ^ 32.

End binary.

(** ** The log file: [*os.File]

    An open file is its contents, the offset of the handle and the
    behaviour of the device: [faults] lists the outcomes of the coming
    system calls, one per call, and every call after the end of the list
    succeeds.  [io_fail n] makes a call fail; a failing write has written
    [n] bytes (at most the bytes given) before the error. *)

Inductive io_outcome :=
| io_ok
| io_fail (n : nat).

Record File := mkFile {
  data : list byte;
  off : nat;
  faults : list io_outcome
}.

Module os.

Definition zero_byte : byte := n2b 0.

(** The bytes of the file after [bs] was written at offset [o]. *)
Definition write_at (d : list byte) (o : nat) (bs : list byte) : list byte :=
  firstn o d ++ repeat zero_byte (o - List.length d) ++ bs
  ++ skipn (o + List.length bs) d.

(** [os.OpenFile(path, O_CREATE|O_RDWR, 0o644)] on a file with the given
    contents (empty when the file is created): the handle is at 0. *)
Definition OpenFile (contents : list byte) (dev : list io_outcome) : File :=
  mkFile contents 0 dev.

(** [f.Write(b)]: the count written and the error. *)
Definition Write (f : File) (b : list byte) : nat * option error * File :=
  match faults f with
  | io_fail n :: dev =>
      let m := Nat.min n (List.length b) in
      (m, Some device_error,
       mkFile (write_at (data f) (off f) (firstn m b)) (off f + m) dev)
  | dev =>
      (List.length b, None,
       mkFile (write_at (data f) (off f) b) (off f + List.length b) (tl dev))
  end.

(** [f.Sync()] *)
Definition Sync (f : File) : option error * File :=
  match faults f with
  | io_fail _ :: dev => (Some device_error, mkFile (data f) (off f) dev)
  | dev => (None, mkFile (data f) (off f) (tl dev))
  end.

(** [f.Seek(0, io.SeekStart)] and [f.Seek(0, io.SeekEnd)] *)
Definition Seek (f : File) (to_end : bool) : option error * File :=
  match faults f with
  | io_fail _ :: dev => (Some device_error, mkFile (data f) (off f) dev)
  | dev =>
      (None,
       mkFile (data f) (if to_end then List.length (data f) else 0) (tl dev))
  end.

End os.

Module io.

(** [io.ReadFull(f, buf)] with [len(buf) = n]: the bytes read, their
    count and the error.  [EOF] when nothing could be read,
    [ErrUnexpectedEOF] when the file ends inside the buffer; an empty
    buffer reads nothing and succeeds. *)
Definition ReadFull (f : File) (n : nat)
  : list byte * nat * option error * File :=
  if (n =? 0)%nat then ([], 0, None, f)
  else
    match faults f with
    | io_fail _ :: dev =>
        ([], 0, Some device_error, mkFile (data f) (off f) dev)
    | dev =>
        let avail := skipn (off f) (data f) in
        let f' k := mkFile (data f) (off f + k) (tl dev) in
        if (n <=? List.length avail)%nat then
          (firstn n avail, n, None, f' n)
        else
          match avail with
          | [] => ([], 0, Some io_EOF, f' 0)
          | _ :: _ =>
              (avail, List.length avail, Some io_ErrUnexpectedEOF,
               f' (List.length avail))
          end
    end.

End io.

(** ** The file-backed server: [kvstore/server/main.go] *)

(** [type kvServer struct { mu sync.Mutex; tree *btree.BTree; logFile
    *os.File }].  Every handler holds [mu] from entry to return, so the
    handlers run one at a time: each is a function from the state before
    to the reply and the state after. *)
Record kvServer := mkServer {
  tree : btree.BTree;
  logFile : File
}.

(** [const maxWALFrameSize = 1 << 10] *)
Definition maxWALFrameSize : nat := 2 ^ 10.

(** [writeFull(w, data)]: the loop writes until [data] is empty, an error
    occurs or a write makes no progress.  Every pass that goes on shortens
    [data], so [len(data)] passes suffice; [fuel] counts them. *)
Fixpoint writeFull_loop (fuel : nat) (w : File) (data : list byte)
  : option error * File :=
  match data with
  | [] => (None, w)
  | _ :: _ =>
      match fuel with
      | O => (Some fuel_exhausted, w)
      | S fuel' =>
          let '(n, err, w') := os.Write w data in
          match err with
          | Some e => (Some e, w')
          | None =>
              if (n =? 0)%nat then (Some io_ErrShortWrite, w')
              else writeFull_loop fuel' w' (skipn n data)
          end
      end
  end.

Definition writeFull (w : File) (data : list byte) : option error * File :=
  writeFull_loop (List.length data) w data.

(** [readFullWithEOFAsBoundary(r, data)] with [len(data) = n]: the buffer
    as read and the error. *)
Definition readFullWithEOFAsBoundary (r : File) (n : nat)
  : list byte * option error * File :=
  let '(buf, cnt, err, r') := io.ReadFull r n in
  match err with
  | None => (buf, None, r')
  | Some e =>
      if errors_Is err io_EOF || errors_Is err io_ErrUnexpectedEOF then
        if (cnt =? 0)%nat then (buf, Some io_EOF, r')
        else (buf, Some io_ErrUnexpectedEOF, r')
      else (buf, Some e, r')
  end.

(** [isValidOp(op)] *)
Definition isValidOp (op : string) : bool :=
  String.eqb op "put" || String.eqb op "swap" || String.eqb op "delete".

(** [(s *kvServer).applyCommand(cmd)] *)
Definition applyCommand (s : kvServer) (cmd : walCommand) : kvServer :=
  if String.eqb (Op cmd) "put" || String.eqb (Op cmd) "swap" then
    mkServer (fst (btree.ReplaceOrInsert (tree s) (mkItem (Key cmd) (Value cmd))))
             (logFile s)
  else if String.eqb (Op cmd) "delete" then
    mkServer (fst (btree.Delete (tree s) (mkItem (Key cmd) ""))) (logFile s)
  else s.

Definition with_file (s : kvServer) (f : File) : kvServer :=
  mkServer (tree s) f.

(** The decoding of one payload in [replayWAL]: [json.Unmarshal] followed
    by the check of the opcode. *)
Definition decodeCommand (payload : list byte) : result walCommand :=
  match json.Unmarshal payload with
  | Err e => Err (Errorw "decode wal command" e)
  | Ok cmd =>
      if negb (isValidOp (Op cmd)) then Err (Errorf "unknown wal op")
      else Ok cmd
  end.

(** The [for] loop of [replayWAL].  Every pass that goes on has read the
    four bytes of a length from the file, so the passes are fewer than
    [fuel] when [fuel] exceeds the length of the file. *)
Fixpoint replayWAL_loop (fuel : nat) (s : kvServer) : option error * kvServer :=
  match fuel with
  | O => (Some fuel_exhausted, s)
  | S fuel' =>
      let '(lenBuf, err, f1) := readFullWithEOFAsBoundary (logFile s) 4 in
      if errors_Is err io_EOF then (None, with_file s f1)
      else if errors_Is err io_ErrUnexpectedEOF then
        (* Ignore a trailing partial frame (e.g., crash mid-write). *)
        (None, with_file s f1)
      else
        match err with
        | Some e => (Some (Errorw "read wal frame length" e), with_file s f1)
        | None =>
            let sz := binary.Uint32 lenBuf in
            if (N.of_nat maxWALFrameSize <? sz)%N then
              (Some (Errorf "wal frame too large"), with_file s f1)
            else
              let '(payload, err, f2) :=
                readFullWithEOFAsBoundary f1 (N.to_nat sz) in
              if errors_Is err io_ErrUnexpectedEOF then
                (* Ignore a trailing partial frame (e.g., crash mid-write). *)
                (None, with_file s f2)
              else
                match err with
                | Some e =>
                    (Some (Errorw "read wal frame payload" e), with_file s f2)
                | None =>
                    match decodeCommand payload with
                    | Err e => (Some e, with_file s f2)
                    | Ok cmd =>
                        replayWAL_loop fuel'
                          (applyCommand (with_file s f2) cmd)
                    end
                end
        end
  end.

(** [(s *kvServer).replayWAL()] *)
Definition replayWAL (s : kvServer) : option error * kvServer :=
  let '(err, f0) := os.Seek (logFile s) false in
  match err with
  | Some e => (Some (Errorw "seek wal start" e), with_file s f0)
  | None => replayWAL_loop (S (List.length (data f0))) (with_file s f0)
  end.

(** [(s *kvServer).appendWAL(cmd)] *)
Definition appendWAL (s : kvServer) (cmd : walCommand)
  : option error * kvServer :=
  if negb (isValidOp (Op cmd)) then (Some (Errorf "unknown wal op"), s)
  else
    let '(payload, err) := json.Marshal cmd in
    match err with
    | Some e => (Some (Errorw "encode wal command" e), s)
    | None =>
        if (maxWALFrameSize <? List.length payload)%nat then
          (Some (Errorf "wal payload too large"), s)
        else
          let frame := binary.PutUint32 (binary.uint32 (List.length payload)) in
          let '(err, f1) := writeFull (logFile s) frame in
          match err with
          | Some e => (Some (Errorw "write wal frame length" e), with_file s f1)
          | None =>
              let '(err, f2) := writeFull f1 payload in
              match err with
              | Some e =>
                  (Some (Errorw "write wal frame payload" e), with_file s f2)
              | None =>
                  let '(err, f3) := os.Sync f2 in
                  match err with
                  | Some e => (Some (Errorw "sync wal" e), with_file s f3)
                  | None => (None, with_file s f3)
                  end
              end
          end
    end.

(** [newKVServer(logPath)], from the point where the log file has been
    opened: a fresh tree, the replay of the log, and the handle moved to
    the end of the file. *)
Definition newKVServer (f : File) : result kvServer :=
  let s := mkServer btree.New f in
  let '(err, s1) := replayWAL s in
  match err with
  | Some e => Err e
  | None =>
      let '(err, f2) := os.Seek (logFile s1) true in
      match err with
      | Some e => Err (Errorw "seek wal end" e)
      | None => Ok (with_file s1 f2)
      end
  end.

(** *** Requests and replies ([kvpb]) *)

Record PutReply := mkPutReply { put_found : bool }.
Record GetReply := mkGetReply { get_found : bool; get_value : string }.
Record SwapReply := mkSwapReply { swap_found : bool; swap_old_value : string }.
Record DeleteReply := mkDeleteReply { delete_found : bool }.
Record ScanReply := mkScanReply { pairs : list KVPair }.

Definition is_some {A} (o : option A) : bool :=
  match o with Some _ => true | None => false end.

(** *** The five handlers *)

Definition Put (s : kvServer) (k v : string) : result PutReply * kvServer :=
  let prev := btree.Get (tree s) (mkItem k "") in
  let '(err, s1) := appendWAL s (mkCmd "put" k v) in
  match err with
  | Some e => (Err e, s1)
  | None =>
      let s2 := applyCommand s1 (mkCmd "put" k v) in
      (Ok (mkPutReply (is_some prev)), s2)
  end.

Definition Get (s : kvServer) (k : string) : result GetReply * kvServer :=
  let got := btree.Get (tree s) (mkItem k "") in
  match got with
  | None => (Ok (mkGetReply false ""), s)
  | Some it => (Ok (mkGetReply true (value it)), s)
  end.

Definition Swap (s : kvServer) (k v : string) : result SwapReply * kvServer :=
  let got := btree.Get (tree s) (mkItem k "") in
  let '(err, s1) := appendWAL s (mkCmd "swap" k v) in
  match err with
  | Some e => (Err e, s1)
  | None =>
      let s2 := applyCommand s1 (mkCmd "swap" k v) in
      match got with
      | None => (Ok (mkSwapReply false ""), s2)
      | Some it => (Ok (mkSwapReply true (value it)), s2)
      end
  end.

Definition Delete (s : kvServer) (k : string) : result DeleteReply * kvServer :=
  let del := btree.Get (tree s) (mkItem k "") in
  let '(err, s1) := appendWAL s (mkCmd "delete" k "") in
  match err with
  | Some e => (Err e, s1)
  | None =>
      let s2 := applyCommand s1 (mkCmd "delete" k "") in
      (Ok (mkDeleteReply (is_some del)), s2)
  end.

Definition Scan (s : kvServer) (startKey endKey : string)
  : result ScanReply * kvServer :=
  let pairs := scan_tree (tree s) startKey endKey in
  (Ok (mkScanReply pairs), s).

(** *** The server on a sequence of requests

    The transport delivers the requests one at a time (the handlers are
    serialized by the mutex); a run of the server is the fold of the
    handlers over the requests. *)

Inductive request :=
| ReqPut (k v : string)
| ReqGet (k : string)
| ReqSwap (k v : string)
| ReqDelete (k : string)
| ReqScan (startKey endKey : string).

Inductive reply :=
| RepPut (r : PutReply)
| RepGet (r : GetReply)
| RepSwap (r : SwapReply)
| RepDelete (r : DeleteReply)
| RepScan (r : ScanReply).

Definition map_result {A B} (f : A -> B) (r : result A) : result B :=
  match r with Ok a => Ok (f a) | Err e => Err e end.

Definition handle (s : kvServer) (rq : request) : result reply * kvServer :=
  match rq with
  | ReqPut k v => let '(r, s') := Put s k v in (map_result RepPut r, s')
  | ReqGet k => let '(r, s') := Get s k in (map_result RepGet r, s')
  | ReqSwap k v => let '(r, s') := Swap s k v in (map_result RepSwap r, s')
  | ReqDelete k => let '(r, s') := Delete s k in (map_result RepDelete r, s')
  | ReqScan a b => let '(r, s') := Scan s a b in (map_result RepScan r, s')
  end.

Fixpoint serve (s : kvServer) (rqs : list request)
  : list (result reply) * kvServer :=
  match rqs with
  | [] => ([], s)
  | rq :: rest =>
      let '(r, s1) := handle s rq in
      let '(rs, s2) := serve s1 rest in
      (r :: rs, s2)
  end.

Definition is_ok {A} (r : result A) : bool :=
  match r with Ok _ => true | Err _ => false end.

(** The process stops and is started again on the same log file: the
    contents of the file survive, the handle and the tree do not. *)
Definition restart (s : kvServer) (dev : list io_outcome) : result kvServer :=
  newKVServer (os.OpenFile (data (logFile s)) dev).

(** ** The SQLite-backed server variant *)

Module sqlite.

(** Modelled from the spec: the generated package [kvpb] is missing from
    the sources; its [WALCommand] message is "a schema-driven binary
    encoding with an enumerated opcode and string fields".  The opcode is
    an enumeration with the three operations; as a protobuf enum it can
    hold other numbers as well. *)
Inductive WALCommand_Op :=
| WALCommand_OP_PUT
| WALCommand_OP_SWAP
| WALCommand_OP_DELETE
| WALCommand_OP_other (n : N).

Record WALCommand := mkWALCommand {
  Op : WALCommand_Op;
  Key : string;
  Value : string
}.

(** [proto.Marshal] and [proto.Unmarshal] on [WALCommand]: the wire
    format is fixed by the missing schema, so the codec is a parameter
    of the server. *)
Class ProtoCodec := {
  proto_Marshal : WALCommand -> result (list byte);
  proto_Unmarshal : list byte -> result WALCommand
}.

(** The table [wal_log (seq INTEGER PRIMARY KEY AUTOINCREMENT, payload
    BLOB NOT NULL)]: the payloads in ascending [seq], and the outcomes
    of the coming statements. *)
Record DB := mkDB {
  wal_log : list (list byte);
  db_faults : list io_outcome
}.

(** [db.Exec(`INSERT INTO wal_log(payload) VALUES(?)`, payload)] *)
Definition Exec_insert (db : DB) (payload : list byte) : option error * DB :=
  match db_faults db with
  | io_fail _ :: dev => (Some device_error, mkDB (wal_log db) dev)
  | dev => (None, mkDB (wal_log db ++ [payload]) (tl dev))
  end.

(** [db.Query(`SELECT payload FROM wal_log ORDER BY seq ASC`)] with the
    iteration over its rows: the payloads, or the error of the query,
    of a row scan or of the iteration. *)
Definition Query_all (db : DB) : result (list (list byte)) * DB :=
  match db_faults db with
  | io_fail _ :: dev => (Err device_error, mkDB (wal_log db) dev)
  | dev => (Ok (wal_log db), mkDB (wal_log db) (tl dev))
  end.

Record kvServer := mkServer {
  tree : btree.BTree;
  db : DB
}.

Definition isValidOp (op : WALCommand_Op) : bool :=
  match op with
  | WALCommand_OP_PUT | WALCommand_OP_SWAP | WALCommand_OP_DELETE => true
  | WALCommand_OP_other _ => false
  end.

Definition applyCommand (s : kvServer) (cmd : WALCommand) : kvServer :=
  match Op cmd with
  | WALCommand_OP_PUT | WALCommand_OP_SWAP =>
      mkServer
        (fst (btree.ReplaceOrInsert (tree s) (mkItem (Key cmd) (Value cmd))))
        (db s)
  | WALCommand_OP_DELETE =>
      mkServer (fst (btree.Delete (tree s) (mkItem (Key cmd) ""))) (db s)
  | WALCommand_OP_other _ => s
  end.

(** [db.Exec] of the schema script of [initDB]: the two pragmas and
    [CREATE TABLE IF NOT EXISTS wal_log], which leaves the rows of an
    existing table as they are. *)
Definition Exec_schema (db : DB) : option error * DB :=
  match db_faults db with
  | io_fail _ :: dev => (Some device_error, mkDB (wal_log db) dev)
  | dev => (None, mkDB (wal_log db) (tl dev))
  end.

(** [(s *kvServer).initDB()] *)
Definition initDB (s : kvServer) : option error * kvServer :=
  let '(err, db') := Exec_schema (db s) in
  match err with
  | Some e => (Some (Errorw "initialize sqlite schema" e), mkServer (tree s) db')
  | None => (None, mkServer (tree s) db')
  end.

Section Server.

Context {codec : ProtoCodec}.

Definition appendLog (s : kvServer) (cmd : WALCommand)
  : option error * kvServer :=
  if negb (isValidOp (Op cmd)) then (Some (Errorf "unknown wal op"), s)
  else
    match proto_Marshal cmd with
    | Err e => (Some (Errorw "encode wal payload" e), s)
    | Ok payload =>
        let '(err, db') := Exec_insert (db s) payload in
        match err with
        | Some e => (Some (Errorw "append wal row" e), mkServer (tree s) db')
        | None => (None, mkServer (tree s) db')
        end
    end.

Fixpoint replayRows (rows : list (list byte)) (s : kvServer)
  : option error * kvServer :=
  match rows with
  | [] => (None, s)
  | payload :: rest =>
      match proto_Unmarshal payload with
      | Err e => (Some (Errorw "decode wal payload" e), s)
      | Ok cmd =>
          if negb (isValidOp (Op cmd)) then
            (Some (Errorf "unknown wal op"), s)
          else replayRows rest (applyCommand s cmd)
      end
  end.

Definition replayLog (s : kvServer) : option error * kvServer :=
  let '(rows, db') := Query_all (db s) in
  match rows with
  | Err e => (Some (Errorw "query wal log" e), mkServer (tree s) db')
  | Ok rows => replayRows rows (mkServer (tree s) db')
  end.

Definition Put (s : kvServer) (k v : string) : result PutReply * kvServer :=
  let prev := btree.Get (tree s) (mkItem k "") in
  let cmd := mkWALCommand WALCommand_OP_PUT k v in
  let '(err, s1) := appendLog s cmd in
  match err with
  | Some e => (Err e, s1)
  | None => (Ok (mkPutReply (is_some prev)), applyCommand s1 cmd)
  end.

Definition Get (s : kvServer) (k : string) : result GetReply * kvServer :=
  let got := btree.Get (tree s) (mkItem k "") in
  match got with
  | None => (Ok (mkGetReply false ""), s)
  | Some it => (Ok (mkGetReply true (value it)), s)
  end.

Definition Swap (s : kvServer) (k v : string)
  : result SwapReply * kvServer :=
  let got := btree.Get (tree s) (mkItem k "") in
  let cmd := mkWALCommand WALCommand_OP_SWAP k v in
  let '(err, s1) := appendLog s cmd in
  match err with
  | Some e => (Err e, s1)
  | None =>
      let s2 := applyCommand s1 cmd in
      match got with
      | None => (Ok (mkSwapReply false ""), s2)
      | Some it => (Ok (mkSwapReply true (value it)), s2)
      end
  end.

Definition Delete (s : kvServer) (k : string)
  : result DeleteReply * kvServer :=
  let del := btree.Get (tree s) (mkItem k "") in
  let cmd := mkWALCommand WALCommand_OP_DELETE k "" in
  let '(err, s1) := appendLog s cmd in
  match err with
  | Some e => (Err e, s1)
  | None => (Ok (mkDeleteReply (is_some del)), applyCommand s1 cmd)
  end.

Definition Scan (s : kvServer) (startKey endKey : string)
  : result ScanReply * kvServer :=
  let pairs := scan_tree (tree s) startKey endKey in
  (Ok (mkScanReply pairs), s).

Definition handle (s : kvServer) (rq : request)
  : result reply * kvServer :=
  match rq with
  | ReqPut k v => let '(r, s') := Put s k v in (map_result RepPut r, s')
  | ReqGet k => let '(r, s') := Get s k in (map_result RepGet r, s')
  | ReqSwap k v => let '(r, s') := Swap s k v in (map_result RepSwap r, s')
  | ReqDelete k =>
      let '(r, s') := Delete s k in (map_result RepDelete r, s')
  | ReqScan a b => let '(r, s') := Scan s a b in (map_result RepScan r, s')
  end.

Fixpoint serve (s : kvServer) (rqs : list request)
  : list (result reply) * kvServer :=
  match rqs with
  | [] => ([], s)
  | rq :: rest =>
      let '(r, s1) := handle s rq in
      let '(rs, s2) := serve s1 rest in
      (r :: rs, s2)
  end.

(** [newKVServer(backerDir)], from the point where the database has been
    opened: a fresh tree, the schema, and the replay of the table. *)
Definition newKVServer (d : DB) : result kvServer :=
  let s := mkServer btree.New d in
  let '(err, s1) := initDB s in
  match err with
  | Some e => Err e
  | None =>
      let '(err, s2) := replayLog s1 in
      match err with
      | Some e => Err e
      | None => Ok s2
      end
  end.

(** The process stops and is started again on the same database: the
    rows of the table survive, the tree does not. *)
Definition restart (s : kvServer) (dev : list io_outcome) : result kvServer :=
  newKVServer (mkDB (wal_log (db s)) dev).

End Server.

(** A codec to run the server on: the payload is the opcode as one byte,
    then the key and the value, each after its length as one byte.  It
    stands in for the wire format of the missing schema where a
    concrete server is evaluated. *)
Definition op_number (op : WALCommand_Op) : N :=
  match op with
  | WALCommand_OP_PUT => 1
  | WALCommand_OP_SWAP => 2
  | WALCommand_OP_DELETE => 3
  | WALCommand_OP_other n => n
  end.

Definition sample_Marshal (cmd : WALCommand) : result (list byte) :=
  Ok (n2b (op_number (Op cmd))
      :: n2b (N.of_nat (String.length (Key cmd)))
      :: list_ascii_of_string (Key cmd)
      ++ n2b (N.of_nat (String.length (Value cmd)))
      :: list_ascii_of_string (Value cmd)).

Definition sample_op (n : N) : WALCommand_Op :=
  if (n =? 1)%N then WALCommand_OP_PUT
  else if (n =? 2)%N then WALCommand_OP_SWAP
  else if (n =? 3)%N then WALCommand_OP_DELETE
  else WALCommand_OP_other n.

Definition sample_Unmarshal (payload : list byte) : result WALCommand :=
  match payload with
  | op :: klen :: rest =>
      let k := firstn (N.to_nat (b2n klen)) rest in
      match skipn (N.to_nat (b2n klen)) rest with
      | vlen :: rest' =>
          Ok (mkWALCommand (sample_op (b2n op)) (string_of_list_ascii k)
                (string_of_list_ascii (firstn (N.to_nat (b2n vlen)) rest')))
      | [] => Err json_SyntaxError
      end
  | _ => Err json_SyntaxError
  end.

Definition sample_codec : ProtoCodec :=
  {| proto_Marshal := sample_Marshal; proto_Unmarshal := sample_Unmarshal |}.

(** The server on an empty table, on a database without faults. *)
Definition fresh : kvServer := mkServer btree.New (mkDB [] []).

End sqlite.

(** ** The in-memory server variant

    The server without a log: the tree alone.  [Put] and [Delete] read
    their found flag off the item that [ReplaceOrInsert] and [Delete]
    return. *)

Module memory.

(** [type kvServer struct { mu sync.Mutex; tree *btree.BTree }] *)
Record kvServer := mkServer { tree : btree.BTree }.

(** [newKVServer()] *)
Definition newKVServer : kvServer := mkServer btree.New.

Definition Put (s : kvServer) (k v : string) : result PutReply * kvServer :=
  let '(t', prev) := btree.ReplaceOrInsert (tree s) (mkItem k v) in
  (Ok (mkPutReply (is_some prev)), mkServer t').

Definition Get (s : kvServer) (k : string) : result GetReply * kvServer :=
  let got := btree.Get (tree s) (mkItem k "") in
  match got with
  | None => (Ok (mkGetReply false ""), s)
  | Some it => (Ok (mkGetReply true (value it)), s)
  end.

Definition Swap (s : kvServer) (k v : string) : result SwapReply * kvServer :=
  let got := btree.Get (tree s) (mkItem k "") in
  let '(t', _) := btree.ReplaceOrInsert (tree s) (mkItem k v) in
  match got with
  | None => (Ok (mkSwapReply false ""), mkServer t')
  | Some it => (Ok (mkSwapReply true (value it)), mkServer t')
  end.

Definition Delete (s : kvServer) (k : string) : result DeleteReply * kvServer :=
  let '(t', del) := btree.Delete (tree s) (mkItem k "") in
  (Ok (mkDeleteReply (is_some del)), mkServer t').

Definition Scan (s : kvServer) (startKey endKey : string)
  : result ScanReply * kvServer :=
  let pairs := scan_tree (tree s) startKey endKey in
  (Ok (mkScanReply pairs), s).

Definition handle (s : kvServer) (rq : request) : result reply * kvServer :=
  match rq with
  | ReqPut k v => let '(r, s') := Put s k v in (map_result RepPut r, s')
  | ReqGet k => let '(r, s') := Get s k in (map_result RepGet r, s')
  | ReqSwap k v => let '(r, s') := Swap s k v in (map_result RepSwap r, s')
  | ReqDelete k => let '(r, s') := Delete s k in (map_result RepDelete r, s')
  | ReqScan a b => let '(r, s') := Scan s a b in (map_result RepScan r, s')
  end.

Fixpoint serve (s : kvServer) (rqs : list request)
  : list (result reply) * kvServer :=
  match rqs with
  | [] => ([], s)
  | rq :: rest =>
      let '(r, s1) := handle s rq in
      let '(rs, s2) := serve s1 rest in
      (r :: rs, s2)
  end.

End memory.

(** ** Vocabulary of the log properties *)

(** The applier of the specification: the effect of one record on the
    index. *)
Definition apply_index (t : btree.BTree) (cmd : walCommand) : btree.BTree :=
  tree (applyCommand (mkServer t (mkFile [] 0 [])) cmd).

(** The frame [appendWAL] writes for a record: the length of the payload
    as four big-endian bytes, then the payload. *)
Definition frame (cmd : walCommand) : list byte :=
  let payload := fst (json.Marshal cmd) in
  binary.PutUint32 (binary.uint32 (List.length payload)) ++ payload.

(** The records the replay loop decodes, in the order in which it applies
    them: the loop of [replayWAL] with the applier left out. *)
Fixpoint wal_records_loop (fuel : nat) (f : File)
  : option error * list walCommand * File :=
  match fuel with
  | O => (Some fuel_exhausted, [], f)
  | S fuel' =>
      let '(lenBuf, err, f1) := readFullWithEOFAsBoundary f 4 in
      if errors_Is err io_EOF then (None, [], f1)
      else if errors_Is err io_ErrUnexpectedEOF then (None, [], f1)
      else
        match err with
        | Some e => (Some (Errorw "read wal frame length" e), [], f1)
        | None =>
            let sz := binary.Uint32 lenBuf in
            if (N.of_nat maxWALFrameSize <? sz)%N then
              (Some (Errorf "wal frame too large"), [], f1)
            else
              let '(payload, err, f2) :=
                readFullWithEOFAsBoundary f1 (N.to_nat sz) in
              if errors_Is err io_ErrUnexpectedEOF then (None, [], f2)
              else
                match err with
                | Some e => (Some (Errorw "read wal frame payload" e), [], f2)
                | None =>
                    match decodeCommand payload with
                    | Err e => (Some e, [], f2)
                    | Ok cmd =>
                        let '(err', cmds, f3) := wal_records_loop fuel' f2 in
                        (err', cmd :: cmds, f3)
                    end
                end
        end
  end.

(** The records a replay of the file contents [d] yields on a device
    that does not fail, with the error that ended the replay. *)
Definition wal_records (d : list byte) : option error * list walCommand :=
  let '(err, cmds, _) := wal_records_loop (S (List.length d)) (mkFile d 0 []) in
  (err, cmds).

(** A record as the handlers write it: a known opcode, and strings that
    are valid UTF-8. *)
Definition utf8_record (cmd : walCommand) : bool :=
  utf8.ValidString (Key cmd) && utf8.ValidString (Value cmd).

(** The index and the log agree: replaying the log on a sound device
    succeeds, and the fold of the applier over its records from the empty
    index is the index. *)
Definition consistent (s : kvServer) : Prop :=
  exists cmds,
    wal_records (data (logFile s)) = (None, cmds) /\
    tree s = fold_left apply_index cmds btree.New.

(** The record a mutation request logs. *)
Definition record_of (rq : request) : option walCommand :=
  match rq with
  | ReqPut k v => Some (mkCmd "put" k v)
  | ReqSwap k v => Some (mkCmd "swap" k v)
  | ReqDelete k => Some (mkCmd "delete" k "")
  | ReqGet _ | ReqScan _ _ => None
  end.

(** The strings of a request are valid UTF-8. *)
Definition utf8_request (rq : request) : bool :=
  match rq with
  | ReqPut k v | ReqSwap k v => utf8.ValidString k && utf8.ValidString v
  | ReqDelete k | ReqGet k => utf8.ValidString k
  | ReqScan a b => utf8.ValidString a && utf8.ValidString b
  end.

(** The value the mutations among [rqs] installed last for [k], starting
    from [cur]: absent when the last mutation on [k] is a DELETE. *)
Fixpoint installed (cur : option string) (rqs : list request) (k : string)
  : option string :=
  match rqs with
  | [] => cur
  | rq :: rest =>
      installed
        (match rq with
         | ReqPut k' v | ReqSwap k' v => if String.eqb k' k then Some v else cur
         | ReqDelete k' => if String.eqb k' k then None else cur
         | ReqGet _ | ReqScan _ _ => cur
         end) rest k
  end.

Definition last_value (rqs : list request) (k : string) : option string :=
  installed None rqs k.

(** The reply of GET for a key with the given stored value. *)
Definition get_reply (v : option string) : GetReply :=
  match v with
  | Some x => mkGetReply true x
  | None => mkGetReply false ""
  end.

(** A record [appendWAL] accepts and [replayWAL] reads back as it is. *)
Definition acceptable (cmd : walCommand) : bool :=
  isValidOp (Op cmd) && utf8_record cmd
  && Nat.leb (List.length (fst (json.Marshal cmd))) maxWALFrameSize.

(** The server holds the log of the records [cmds] and their index: the
    file is made of their frames, the handle is at its end, and the tree
    is the fold of the applier over them. *)
Definition represents (cmds : list walCommand) (s : kvServer) : Prop :=
  data (logFile s) = List.concat (map frame cmds)
  /\ off (logFile s) = List.length (data (logFile s))
  /\ forallb acceptable cmds = true
  /\ tree s = fold_left apply_index cmds btree.New.

(** The records a request adds to the log when it is acknowledged. *)
Definition records_of (rq : request) : list walCommand :=
  match record_of rq with Some c => [c] | None => [] end.

(** The stored value of a key. *)
Definition lookup (t : btree.BTree) (k : string) : option string :=
  option_map value (btree.Get t (mkItem k "")).

(** A run of [appendWAL] over a sequence of records, stopping at the
    first error. *)
Fixpoint append_all (s : kvServer) (cmds : list walCommand)
  : option error * kvServer :=
  match cmds with
  | [] => (None, s)
  | c :: rest =>
      let '(err, s1) := appendWAL s c in
      match err with
      | Some e => (Some e, s1)
      | None => append_all s1 rest
      end
  end.

(** ** Sample states and inputs *)

(** The server started on an empty log, on a device without faults. *)
Definition fresh : kvServer := mkServer btree.New (mkFile [] 0 []).

(** The requests of scenario S3. *)
Definition scenario_S3 : list request :=
  [ReqPut "k1" "v1"; ReqPut "k1" "v2"; ReqSwap "k1" "v3"; ReqSwap "k2" "v9";
   ReqDelete "k1"; ReqDelete "missing"; ReqPut "a" "1"; ReqPut "b" "2"].

(** A key that is not valid UTF-8: the single byte [0xFF]. *)
Definition key_ff : string := String "255"%char "".

Definition record_ff : walCommand := mkCmd "put" key_ff "1".

(** The log of scenario S5: the frame of [PUT x 1], then a length prefix
    of 10 followed by three payload bytes. *)
Definition log_S5 : list byte :=
  frame (mkCmd "put" "x" "1") ++ binary.PutUint32 10 ++ json.bytes "abc".

Definition server_S5 : kvServer :=
  mkServer [mkItem "x" "1"] (mkFile log_S5 (List.length log_S5) []).

(** A log that ends after the length prefix of a frame: the state of the
    file when the process stops between the two writes of [appendWAL]. *)
Definition log_header_only : list byte :=
  frame (mkCmd "put" "x" "1") ++ binary.PutUint32 10.

(** The requests of scenario S1, with a scan at the end. *)
Definition scenario_S1 : list request :=
  [ReqPut "a" "1"; ReqGet "a"; ReqSwap "a" "2"; ReqDelete "a"; ReqGet "a";
   ReqScan "" "z"].

(** A server with one entry on a device whose next write fails after two
    bytes. *)
Definition failing_write : kvServer :=
  mkServer [mkItem "a" "0"] (mkFile [] 0 [io_fail 2]).

(** A device on which the two writes of the next append succeed and the
    sync that follows fails. *)
Definition failing_sync : kvServer :=
  mkServer btree.New (mkFile [] 0 [io_ok; io_ok; io_fail 0]).

(** ** Vocabulary of the properties of the requests *)

(** The strings that a request writes to the log are valid UTF-8: the
    key and the value of a PUT or a SWAP, the key of a DELETE.  GET and
    SCAN write nothing. *)
Definition utf8_mutation (rq : request) : bool :=
  match record_of rq with
  | Some cmd => utf8_record cmd
  | None => true
  end.

(** The record of a request is within the bound of a frame of the
    file-backed log: its payload has at most [maxWALFrameSize] bytes. *)
Definition fits_frame (rq : request) : bool :=
  match record_of rq with
  | Some cmd => Nat.leb (List.length (fst (json.Marshal cmd))) maxWALFrameSize
  | None => true
  end.

(** A key of 1003 bytes: the record of [PUT key_1003 ""] has a payload
    of 1024 bytes, the record of [DELETE key_1003] one of 1027 bytes. *)
Definition key_1003 : string := string_of_list_ascii (repeat "k"%char 1003).

(** A value of 2000 bytes. *)
Definition big_value : string := string_of_list_ascii (repeat "x"%char 2000).

(** ** Vocabulary of the properties of the SQLite-backed server *)

(** The records a request adds to the table when it is acknowledged. *)
Definition db_records_of (rq : request) : list sqlite.WALCommand :=
  match rq with
  | ReqPut k v => [sqlite.mkWALCommand sqlite.WALCommand_OP_PUT k v]
  | ReqSwap k v => [sqlite.mkWALCommand sqlite.WALCommand_OP_SWAP k v]
  | ReqDelete k => [sqlite.mkWALCommand sqlite.WALCommand_OP_DELETE k ""]
  | ReqGet _ | ReqScan _ _ => []
  end.

(** The codec encodes the record: [proto.Marshal] returns no error. *)
Definition db_encodes (codec : sqlite.ProtoCodec) (cmd : sqlite.WALCommand)
  : bool :=
  is_ok (sqlite.proto_Marshal cmd).

(** The codec reads a record back from the payload it wrote for it. *)
Definition db_round_trip (codec : sqlite.ProtoCodec) (cmd : sqlite.WALCommand)
  : Prop :=
  forall p, sqlite.proto_Marshal cmd = Ok p -> sqlite.proto_Unmarshal p = Ok cmd.

(** The index and the table agree: a start on the rows of the table, on a
    database that does not fail, rebuilds the index and leaves the rows. *)
Definition db_consistent (codec : sqlite.ProtoCodec) (s : sqlite.kvServer)
  : Prop :=
  exists s',
    sqlite.restart s [] = Ok s'
    /\ sqlite.tree s' = sqlite.tree s
    /\ sqlite.wal_log (sqlite.db s') = sqlite.wal_log (sqlite.db s).

(** ** Vocabulary of the proofs *)

Section ProofVocabulary.

Import utf8 json.
Local Open Scope N_scope.

(** A continuation byte. *)
Definition cont (c : byte) : Prop := 0x80 <= b2n c <= 0xBF.

(** The first two bytes of a three-byte and of a four-byte encoding. *)
Definition lead3 (c0 c1 : byte) : Prop :=
  (b2n c0 = 0xE0 /\ 0xA0 <= b2n c1 <= 0xBF) \/
  (0xE1 <= b2n c0 <= 0xEF /\ b2n c0 <> 0xED /\ cont c1) \/
  (b2n c0 = 0xED /\ 0x80 <= b2n c1 <= 0x9F).

Definition lead4 (c0 c1 : byte) : Prop :=
  (b2n c0 = 0xF0 /\ 0x90 <= b2n c1 <= 0xBF) \/
  (0xF1 <= b2n c0 <= 0xF3 /\ cont c1) \/
  (b2n c0 = 0xF4 /\ 0x80 <= b2n c1 <= 0x8F).

(** What a decoding of width other than one tells: the bytes of the
    rune, their ranges, and the rune they make. *)
Inductive decoded : list byte -> rune -> nat -> Prop :=
| decoded2 c0 c1 p r :
    0xC2 <= b2n c0 <= 0xDF -> cont c1 ->
    r = N.lor (N.shiftl (N.land (b2n c0) mask2) 6) (N.land (b2n c1) maskx) ->
    decoded (c0 :: c1 :: p) r 2
| decoded3 c0 c1 c2 p r :
    lead3 c0 c1 -> cont c2 ->
    r = N.lor (N.lor (N.shiftl (N.land (b2n c0) mask3) 12)
                     (N.shiftl (N.land (b2n c1) maskx) 6))
              (N.land (b2n c2) maskx) ->
    decoded (c0 :: c1 :: c2 :: p) r 3
| decoded4 c0 c1 c2 c3 p r :
    lead4 c0 c1 -> cont c2 -> cont c3 ->
    r = N.lor (N.lor (N.lor (N.shiftl (N.land (b2n c0) mask4) 18)
                            (N.shiftl (N.land (b2n c1) maskx) 12))
                     (N.shiftl (N.land (b2n c2) maskx) 6))
              (N.land (b2n c3) maskx) ->
    decoded (c0 :: c1 :: c2 :: c3 :: p) r 4.

(** A piece of a literal that the scanner passes over as a whole. *)
Definition scan_chunk (a : list byte) : Prop :=
  forall X,
    scan_string (a ++ X) =
    match scan_string X with
    | Some (raw, rest) => Some (a ++ raw, rest)
    | None => None
    end.

(** A piece of a literal that [unquoteBytes] turns into [d]. *)
Definition unq_chunk (a d : list byte) : Prop :=
  forall X, unquote_loop (a ++ X) 0 = prepend d (unquote_loop X 0).

(** What [appendString] writes for an ASCII byte: the byte when it is
    safe, its escape otherwise. *)
Definition ascii_piece (c : byte) : list byte :=
  if htmlSafeSet c then [c] else escape c.

(** A result of the parser that consumed input and did not reach the
    bound. *)
Definition fuel_ok {A} (l : list byte) (res : pres A) : Prop :=
  match res with
  | POk _ r => (List.length r < List.length l)%nat
  | PErr => True
  | PFuel => False
  end.

End ProofVocabulary.

(* ================================================================== *)
(** * Properties *)

(** ** Byte-wise lexicographic order on strings *)

Section StringOrder.

Lemma ascii_compare_trans a b c :
  Ascii.compare a b = Lt -> Ascii.compare b c = Lt -> Ascii.compare a c = Lt.
Proof.
  unfold Ascii.compare. rewrite !N.compare_lt_iff. apply N.lt_trans.
Qed.

Lemma ascii_compare_refl a : Ascii.compare a a = Eq.
Proof. unfold Ascii.compare. apply N.compare_refl. Qed.

Lemma string_compare_refl s : String.compare s s = Eq.
Proof.
  induction s as [|a s IH]; simpl; [reflexivity|].
  now rewrite ascii_compare_refl.
Qed.

Lemma string_compare_trans s1 : forall s2 s3,
  String.compare s1 s2 = Lt -> String.compare s2 s3 = Lt ->
  String.compare s1 s3 = Lt.
Proof.
  induction s1 as [|a s1 IH]; intros [|b s2] [|c s3]; simpl; try congruence.
  destruct (Ascii.compare a b) eqn:Hab; try discriminate;
    destruct (Ascii.compare b c) eqn:Hbc; try discriminate; intros H1 H2.
  - apply Ascii.compare_eq_iff in Hab, Hbc. subst.
    rewrite ascii_compare_refl. eauto.
  - apply Ascii.compare_eq_iff in Hab. subst. now rewrite Hbc.
  - apply Ascii.compare_eq_iff in Hbc. subst. now rewrite Hab.
  - now rewrite (ascii_compare_trans _ _ _ Hab Hbc).
Qed.

Lemma ltb_irrefl s : String.ltb s s = false.
Proof. unfold String.ltb. now rewrite string_compare_refl. Qed.

Lemma ltb_lt s1 s2 : String.ltb s1 s2 = true <-> String.compare s1 s2 = Lt.
Proof. unfold String.ltb. destruct (String.compare s1 s2); intuition congruence. Qed.

Lemma ltb_trans s1 s2 s3 :
  String.ltb s1 s2 = true -> String.ltb s2 s3 = true -> String.ltb s1 s3 = true.
Proof. rewrite !ltb_lt. apply string_compare_trans. Qed.

Lemma ltb_asym s1 s2 : String.ltb s1 s2 = true -> String.ltb s2 s1 = false.
Proof.
  intros H. destruct (String.ltb s2 s1) eqn:E; [|reflexivity].
  pose proof (ltb_trans _ _ _ H E) as F. now rewrite ltb_irrefl in F.
Qed.

Lemma ltb_tricho s1 s2 :
  String.ltb s1 s2 = false -> String.ltb s2 s1 = false -> s1 = s2.
Proof.
  unfold String.ltb. rewrite (String.compare_antisym s2 s1).
  destruct (String.compare s1 s2) eqn:E; simpl; try discriminate.
  intros _ _. now apply String.compare_eq_iff.
Qed.

Lemma leb_ltb s1 s2 : String.leb s1 s2 = negb (String.ltb s2 s1).
Proof.
  unfold String.leb, String.ltb. rewrite (String.compare_antisym s2 s1).
  now destruct (String.compare s1 s2).
Qed.

Lemma ltb_leb_trans s1 s2 s3 :
  String.ltb s1 s2 = true -> String.ltb s3 s2 = false -> String.ltb s1 s3 = true.
Proof.
  intros H12 H32. destruct (String.ltb s2 s3) eqn:E.
  - eapply ltb_trans; eauto.
  - now rewrite <- (ltb_tricho _ _ E H32).
Qed.

Lemma leb_ltb_trans s1 s2 s3 :
  String.ltb s2 s1 = false -> String.ltb s2 s3 = true -> String.ltb s1 s3 = true.
Proof.
  intros H21 H23. destruct (String.ltb s1 s2) eqn:E.
  - eapply ltb_trans; eauto.
  - now rewrite (ltb_tricho _ _ E H21).
Qed.

End StringOrder.

(** ** The ordered index *)

Section Index.

Import btree.

Lemma ordered_tail x r : ordered (x :: r) = true -> ordered r = true.
Proof.
  simpl. destruct r as [|y r']; [reflexivity|].
  now intros [_ H]%andb_prop.
Qed.

Lemma ordered_above x r :
  ordered (x :: r) = true -> Forall (fun y => Less x y = true) r.
Proof.
  revert x. induction r as [|y r IH]; intros x H; constructor.
  - simpl in H. now apply andb_prop in H.
  - assert (Hxy : Less x y = true) by (simpl in H; now apply andb_prop in H).
    apply ordered_tail in H. specialize (IH _ H).
    eapply Forall_impl; [|exact IH]. intros z Hz. unfold Less in *.
    eapply ltb_trans; eauto.
Qed.

Lemma ordered_cons x r :
  Forall (fun y => Less x y = true) r -> ordered r = true ->
  ordered (x :: r) = true.
Proof.
  intros Hx Hr. destruct r as [|y r']; [reflexivity|].
  change (Less x y && ordered (y :: r') = true).
  apply Forall_inv in Hx. now rewrite Hr, Hx.
Qed.

Lemma filter_all {A} (f : A -> bool) l :
  Forall (fun x => f x = true) l -> filter f l = l.
Proof. induction 1 as [|x l Hx _ IH]; simpl; [|rewrite Hx, IH]; reflexivity. Qed.

Lemma filter_none {A} (f : A -> bool) l :
  Forall (fun x => f x = false) l -> filter f l = [].
Proof. induction 1 as [|x l Hx _ IH]; simpl; [|rewrite Hx, IH]; reflexivity. Qed.

Lemma filter_filter {A} (f g : A -> bool) l :
  filter f (filter g l) = filter (fun x => g x && f x) l.
Proof.
  induction l as [|x l IH]; simpl; [reflexivity|].
  destruct (g x); simpl; [destruct (f x)|]; now rewrite IH.
Qed.

(** On an ordered tree, seeking to the pivot keeps the items that are
    not below it. *)
Lemma seek_filter t pivot :
  ordered t = true ->
  seek t pivot = filter (fun x => negb (Less x pivot)) t.
Proof.
  induction t as [|x r IH]; intros Hord; simpl; [reflexivity|].
  destruct (Less x pivot) eqn:E; simpl.
  - apply IH. eapply ordered_tail; eauto.
  - f_equal. symmetry. apply filter_all.
    eapply Forall_impl; [|apply ordered_above; exact Hord].
    intros y Hy. unfold Less in *.
    destruct (String.ltb (key y) (key pivot)) eqn:F; [|reflexivity].
    now rewrite (ltb_trans _ _ _ Hy F) in E.
Qed.

(** The scan visitor collects the items up to [endKey] and stops. *)
Lemma ascend_scan_visit endKey t : forall acc,
  ordered t = true ->
  ascend t (scan_visit endKey) acc =
  acc ++ map to_pair (filter (fun x => negb (String.ltb endKey (key x))) t).
Proof.
  induction t as [|x r IH]; intros acc Hord; simpl.
  - now rewrite app_nil_r.
  - unfold scan_visit at 1. destruct (String.ltb endKey (key x)) eqn:E; simpl.
    + rewrite filter_none; [now rewrite app_nil_r|].
      eapply Forall_impl; [|apply ordered_above; exact Hord].
      intros y Hy. unfold Less in Hy. now rewrite (ltb_trans _ _ _ E Hy).
    + rewrite IH by (eapply ordered_tail; eauto).
      now rewrite <- app_assoc.
Qed.

Lemma scan_tree_filter t a b :
  ordered t = true ->
  scan_tree t a b = map to_pair (filter (in_range a b) t).
Proof.
  intros Hord. unfold scan_tree, AscendGreaterOrEqual.
  rewrite seek_filter by assumption.
  assert (Hord' : ordered (filter (fun x => negb (Less x (mkItem a ""))) t) = true).
  { rewrite <- seek_filter by assumption. clear -Hord.
    induction t as [|x r IH]; [reflexivity|]. simpl.
    destruct (Less x _); [apply IH; eapply ordered_tail; eauto | assumption]. }
  rewrite ascend_scan_visit by assumption. simpl.
  rewrite filter_filter. f_equal. apply filter_ext. intros x.
  unfold in_range, Less. simpl. now rewrite !leb_ltb.
Qed.

Lemma ordered_filter f t : ordered t = true -> ordered (filter f t) = true.
Proof.
  induction t as [|x r IH]; intros Hord; [reflexivity|]. simpl.
  pose proof (ordered_tail _ _ Hord) as Hr. destruct (f x); [|now apply IH].
  apply ordered_cons; [|now apply IH].
  pose proof (ordered_above _ _ Hord) as Hab. rewrite Forall_forall in *.
  intros y [Hy _]%filter_In. now apply Hab.
Qed.

Lemma ordered_ascending t : ordered t = true -> ascending (map to_pair t).
Proof.
  induction t as [|x r IH]; intros Hord; simpl; constructor.
  - apply IH. eapply ordered_tail; eauto.
  - apply Forall_map. eapply Forall_impl; [|apply ordered_above; exact Hord].
    now intros y Hy.
Qed.

Lemma ascending_NoDup ps : ascending ps -> NoDup (map pair_key ps).
Proof.
  induction 1 as [|p ps Hs IH Hp]; simpl; constructor; [|assumption].
  intros (q & Hq & Hin)%in_map_iff. rewrite Forall_forall in Hp.
  specialize (Hp _ Hin). rewrite Hq, ltb_irrefl in Hp. discriminate.
Qed.

(** [Get] finds exactly the stored item with the given key. *)
Lemma Get_In t k it :
  ordered t = true ->
  Get t (mkItem k "") = Some it <-> In it t /\ key it = k.
Proof.
  induction t as [|x r IH]; intros Hord; simpl.
  - split; [discriminate | now intros [[] _]].
  - pose proof (ordered_above _ _ Hord) as Hab. rewrite Forall_forall in Hab.
    unfold Less at 1 2. simpl.
    destruct (String.ltb k (key x)) eqn:E1; [|destruct (String.ltb (key x) k) eqn:E2].
    + split; [discriminate|]. intros [[<- | Hin] Hk].
      * now rewrite Hk, ltb_irrefl in E1.
      * specialize (Hab _ Hin). unfold Less in Hab.
        rewrite <- Hk in E1. now rewrite (ltb_asym _ _ Hab) in E1.
    + rewrite IH by (eapply ordered_tail; eauto).
      split; [intros [? ?]; auto|]. intros [[<- | Hin] Hk]; [|auto].
      now rewrite Hk, ltb_irrefl in E2.
    + pose proof (ltb_tricho _ _ E1 E2) as Hk. split.
      * intros [= <-]. auto.
      * intros [[-> | Hin] Hk']; [reflexivity|].
        specialize (Hab _ Hin). unfold Less in Hab.
        now rewrite Hk', Hk, ltb_irrefl in Hab.
Qed.

Lemma leb_refl s : String.leb s s = true.
Proof. now rewrite leb_ltb, ltb_irrefl. Qed.

Lemma scan_point t k it :
  ordered t = true -> Get t (mkItem k "") = Some it ->
  scan_tree t k k = [mkPair k (value it)].
Proof.
  intros Hord Hget. rewrite scan_tree_filter by assumption.
  apply Get_In in Hget; [|assumption]. destruct Hget as [Hin Hk].
  clear -Hord Hin Hk. induction t as [|x r IH]; [destruct Hin|].
  pose proof (ordered_above _ _ Hord) as Hab.
  simpl. destruct Hin as [-> | Hin].
  - unfold in_range at 1. rewrite Hk, leb_refl. simpl.
    unfold to_pair at 1. rewrite Hk. f_equal.
    rewrite filter_none; [reflexivity|].
    eapply Forall_impl; [|exact Hab]. intros y Hy. unfold Less in Hy.
    unfold in_range. rewrite Hk in Hy.
    rewrite (leb_ltb (key y) k), Hy. apply andb_false_r.
  - rewrite Forall_forall in Hab. specialize (Hab _ Hin). unfold Less in Hab.
    rewrite Hk in Hab. unfold in_range at 1.
    rewrite (leb_ltb k (key x)), Hab. simpl.
    apply IH; [eapply ordered_tail; eauto | assumption].
Qed.

End Index.

(** The pairs a scan of an ordered tree collects. *)
Lemma scan_tree_spec (t : btree.BTree) (a b : string)
    (Hord : btree.ordered t = true) :
  scan_tree t a b = map to_pair (filter (in_range a b) t)
  /\ (forall k v, In (mkPair k v) (scan_tree t a b) <->
        btree.Get t (mkItem k "") = Some (mkItem k v)
        /\ String.leb a k = true /\ String.leb k b = true)
  /\ ascending (scan_tree t a b)
  /\ NoDup (map pair_key (scan_tree t a b))
  /\ (String.ltb b a = true -> scan_tree t a b = [])
  /\ (forall k it, btree.Get t (mkItem k "") = Some it ->
        scan_tree t k k = [mkPair k (value it)]).
Proof.
  pose proof (scan_tree_filter t a b Hord) as Hscan.
  assert (Hasc : ascending (scan_tree t a b)).
  { rewrite Hscan. apply ordered_ascending. now apply ordered_filter. }
  split; [exact Hscan|]. split; [|split; [exact Hasc|split; [|split]]].
  - intros k v. split.
    + rewrite Hscan.
      intros ([k' v'] & [= -> ->] & [Hin Hr]%filter_In)%in_map_iff.
      unfold in_range in Hr. simpl in Hr. apply andb_prop in Hr.
      split; [|exact Hr]. apply Get_In; auto.
    + rewrite Hscan. intros (Hget & Ha & Hb). apply in_map_iff.
      exists (mkItem k v). split; [reflexivity|]. apply filter_In.
      apply Get_In in Hget; [|assumption]. split; [tauto|].
      unfold in_range. simpl. now rewrite Ha, Hb.
  - now apply ascending_NoDup.
  - intros Hba. rewrite Hscan. rewrite filter_none; [reflexivity|].
    apply Forall_forall. intros x _. unfold in_range. rewrite !leb_ltb.
    destruct (String.ltb (key x) a) eqn:E1; [reflexivity|].
    now rewrite (ltb_leb_trans _ _ _ Hba E1).
  - intros k it. now apply scan_point.
Qed.

(** Claim C6.  On every index (a tree with its ordering invariant) and for
    every pair of bounds, SCAN returns exactly the stored entries with
    [start_key <= k <= end_key], both ends included, in strictly ascending
    key order and without repeated keys; it is empty when
    [start_key > end_key]; and [SCAN k k] on a stored key [k] is the single
    pair [(k, v)]. *)
Theorem scan_inclusive_ascending (s : kvServer) (a b : string)
    (Hord : btree.ordered (tree s) = true) :
  exists ps,
    Scan s a b = (Ok (mkScanReply ps), s)
    /\ ps = map to_pair (filter (in_range a b) (tree s))
    /\ (forall k v, In (mkPair k v) ps <->
          btree.Get (tree s) (mkItem k "") = Some (mkItem k v)
          /\ String.leb a k = true /\ String.leb k b = true)
    /\ ascending ps
    /\ NoDup (map pair_key ps)
    /\ (String.ltb b a = true -> ps = [])
    /\ (forall k it, btree.Get (tree s) (mkItem k "") = Some it ->
          Scan s k k = (Ok (mkScanReply [mkPair k (value it)]), s)).
Proof.
  destruct (scan_tree_spec (tree s) a b Hord) as (H1 & H2 & H3 & H4 & H5 & H6).
  exists (scan_tree (tree s) a b). unfold Scan.
  split; [reflexivity|]. split; [exact H1|]. split; [exact H2|].
  split; [exact H3|]. split; [exact H4|]. split; [exact H5|].
  intros k it Hget. now rewrite (H6 k it Hget).
Qed.

(** Scenario S2: the scan of [a .. c] over the keys a, c, b. *)
Lemma scan_inclusive_ascending_witness :
  exists ps,
    Scan (snd (serve fresh [ReqPut "a" "1"; ReqPut "c" "3"; ReqPut "b" "2"]))
      "a" "c"
    = (Ok (mkScanReply ps),
       snd (serve fresh [ReqPut "a" "1"; ReqPut "c" "3"; ReqPut "b" "2"]))
    /\ ps = [mkPair "a" "1"; mkPair "b" "2"; mkPair "c" "3"].
Proof.
  destruct (scan_inclusive_ascending
              (snd (serve fresh [ReqPut "a" "1"; ReqPut "c" "3"; ReqPut "b" "2"]))
              "a" "c" eq_refl) as (ps & H1 & H2 & _).
  exists ps. split; [exact H1|]. rewrite H2. reflexivity.
Defined.

(** ** The tree operations on an ordered tree *)

Section TreeOps.

Import btree.

Lemma Less_key a b : Less a b = String.ltb (key a) (key b).
Proof. reflexivity. Qed.

Lemma ReplaceOrInsert_above x t it :
  Forall (fun y => Less x y = true) t -> Less x it = true ->
  Forall (fun y => Less x y = true) (fst (ReplaceOrInsert t it)).
Proof.
  induction t as [|y r IH]; intros Ht Hit; simpl.
  - repeat constructor; assumption.
  - inversion Ht as [|? ? Hy Hr]; subst.
    destruct (Less it y); [now repeat constructor|].
    destruct (Less y it); simpl; [|now repeat constructor].
    specialize (IH Hr Hit).
    destruct (ReplaceOrInsert r it) as [r' old]. simpl in *.
    constructor; assumption.
Qed.

Lemma ReplaceOrInsert_ordered t it :
  ordered t = true -> ordered (fst (ReplaceOrInsert t it)) = true.
Proof.
  induction t as [|x r IH]; intros Hord; [reflexivity|].
  pose proof (ordered_above _ _ Hord) as Hab.
  pose proof (ordered_tail _ _ Hord) as Hr.
  cbn [ReplaceOrInsert].
  destruct (Less it x) eqn:E1; [|destruct (Less x it) eqn:E2].
  - cbn [fst]. apply ordered_cons; [|assumption].
    constructor; [assumption|].
    eapply Forall_impl; [|exact Hab]. intros y Hy. rewrite Less_key in *.
    eapply ltb_trans; eauto.
  - specialize (IH Hr).
    pose proof (ReplaceOrInsert_above x r it Hab E2) as H.
    destruct (ReplaceOrInsert r it) as [r' old]. cbn [fst] in *.
    apply ordered_cons; assumption.
  - cbn [fst]. apply ordered_cons; [|assumption].
    rewrite Less_key in E1, E2. pose proof (ltb_tricho _ _ E1 E2) as Hk.
    eapply Forall_impl; [|exact Hab]. intros y Hy. rewrite Less_key in *.
    now rewrite Hk.
Qed.

Lemma Delete_above x t it :
  Forall (fun y => Less x y = true) t ->
  Forall (fun y => Less x y = true) (fst (Delete t it)).
Proof.
  induction t as [|y r IH]; intros Ht; simpl; [constructor|].
  inversion Ht as [|? ? Hy Hr]; subst.
  destruct (Less it y); [assumption|]. destruct (Less y it); [|assumption].
  specialize (IH Hr). destruct (Delete r it) as [r' old]. simpl in *.
  constructor; assumption.
Qed.

Lemma Delete_ordered t it :
  ordered t = true -> ordered (fst (Delete t it)) = true.
Proof.
  induction t as [|x r IH]; intros Hord; [reflexivity|].
  pose proof (ordered_above _ _ Hord) as Hab.
  pose proof (ordered_tail _ _ Hord) as Hr.
  cbn [Delete]. destruct (Less it x); [assumption|].
  destruct (Less x it); [|assumption].
  specialize (IH Hr). pose proof (Delete_above x r it Hab) as H.
  destruct (Delete r it) as [r' old]. cbn [fst] in *.
  apply ordered_cons; assumption.
Qed.

(** Lookup depends on the key of the probe only. *)
Lemma Get_key t a b : key a = key b -> Get t a = Get t b.
Proof.
  intros H. induction t as [|x r IH]; simpl; [reflexivity|].
  rewrite !Less_key, H, IH. reflexivity.
Qed.

Lemma Get_above x t k :
  Forall (fun y => Less x y = true) t -> String.ltb (key x) k = false ->
  Get t (mkItem k "") = None.
Proof.
  intros Hab Hk. destruct t as [|y r]; [reflexivity|]. simpl.
  apply Forall_inv in Hab. rewrite !Less_key in *. simpl.
  now rewrite (leb_ltb_trans _ _ _ Hk Hab).
Qed.

Lemma Get_ReplaceOrInsert t k v k' :
  ordered t = true ->
  Get (fst (ReplaceOrInsert t (mkItem k v))) (mkItem k' "") =
  if String.eqb k k' then Some (mkItem k v) else Get t (mkItem k' "").
Proof.
  induction t as [|x r IH]; intros Hord.
  - simpl. rewrite !Less_key. simpl.
    destruct (String.eqb_spec k k') as [Heq|Hne]; [subst k'|].
    + now rewrite ltb_irrefl.
    + destruct (String.ltb k' k) eqn:E1; [reflexivity|].
      destruct (String.ltb k k') eqn:E2; [reflexivity|].
      now destruct Hne; apply ltb_tricho.
  - pose proof (ordered_above _ _ Hord) as Hab.
    pose proof (ordered_tail _ _ Hord) as Hr.
    cbn [ReplaceOrInsert]. rewrite !Less_key. cbn [key].
    destruct (String.ltb k (key x)) eqn:E1;
      [|destruct (String.ltb (key x) k) eqn:E2].
    + cbn [fst Get]. rewrite !Less_key. cbn [key].
      destruct (String.eqb_spec k k') as [Heq|Hne]; [subst k'|].
      * now rewrite ltb_irrefl.
      * destruct (String.ltb k' k) eqn:F1.
        { now rewrite (ltb_trans _ _ _ F1 E1). }
        destruct (String.ltb k k') eqn:F2; [reflexivity|].
        now destruct Hne; apply ltb_tricho.
    + specialize (IH Hr).
      destruct (ReplaceOrInsert r (mkItem k v)) as [r' old].
      cbn [fst Get] in *. rewrite !Less_key. cbn [key]. rewrite IH.
      destruct (String.eqb_spec k k') as [Heq|Hne]; [subst k'|reflexivity].
      now rewrite (ltb_asym _ _ E2), E2.
    + pose proof (ltb_tricho _ _ E1 E2) as Hk.
      cbn [fst Get]. rewrite !Less_key. cbn [key]. rewrite <- Hk.
      destruct (String.eqb_spec k k') as [Heq|Hne]; [subst k'|].
      * now rewrite ltb_irrefl.
      * destruct (String.ltb k' k) eqn:F1; [reflexivity|].
        destruct (String.ltb k k') eqn:F2; [reflexivity|].
        now destruct Hne; apply ltb_tricho.
Qed.

Lemma Get_Delete t k k' :
  ordered t = true ->
  Get (fst (Delete t (mkItem k ""))) (mkItem k' "") =
  if String.eqb k k' then None else Get t (mkItem k' "").
Proof.
  induction t as [|x r IH]; intros Hord.
  - simpl. now destruct (String.eqb k k').
  - pose proof (ordered_above _ _ Hord) as Hab.
    pose proof (ordered_tail _ _ Hord) as Hr.
    cbn [Delete]. rewrite !Less_key. cbn [key].
    destruct (String.ltb k (key x)) eqn:E1;
      [|destruct (String.ltb (key x) k) eqn:E2].
    + cbn [fst]. destruct (String.eqb_spec k k') as [Heq|Hne]; [subst k'|reflexivity].
      cbn [Get]. rewrite !Less_key. cbn [key]. now rewrite E1.
    + specialize (IH Hr).
      destruct (Delete r (mkItem k "")) as [r' old].
      cbn [fst Get] in *. rewrite !Less_key. cbn [key]. rewrite IH.
      destruct (String.eqb_spec k k') as [Heq|Hne]; [subst k'|reflexivity].
      now rewrite (ltb_asym _ _ E2), E2.
    + pose proof (ltb_tricho _ _ E1 E2) as Hk. cbn [fst].
      destruct (String.eqb_spec k k') as [Heq|Hne]; [subst k'|].
      * eapply Get_above; eauto.
      * cbn [Get]. rewrite !Less_key. cbn [key]. rewrite <- Hk.
        destruct (String.ltb k' k) eqn:F1.
        { eapply Get_above; eauto. rewrite <- Hk. now apply ltb_asym. }
        destruct (String.ltb k k') eqn:F2; [reflexivity|].
        now destruct Hne; apply ltb_tricho.
Qed.

(** The key of a found item is the key looked up. *)
Lemma Get_found_key t k it :
  Get t (mkItem k "") = Some it -> key it = k.
Proof.
  induction t as [|x r IH]; simpl; [discriminate|].
  rewrite !Less_key. simpl.
  destruct (String.ltb k (key x)) eqn:E1; [discriminate|].
  destruct (String.ltb (key x) k) eqn:E2; [assumption|].
  intros [= <-]. symmetry. now apply ltb_tricho.
Qed.

End TreeOps.

(** ** Reads, and mutations whose append fails *)

Lemma appendWAL_tree s cmd : tree (snd (appendWAL s cmd)) = tree s.
Proof.
  unfold appendWAL. destruct (negb (isValidOp (Op cmd))); [reflexivity|].
  destruct (json.Marshal cmd) as [payload [e|]]; [reflexivity|].
  destruct (Nat.ltb maxWALFrameSize (List.length payload)); [reflexivity|].
  destruct (writeFull (logFile s) _) as [[e|] f1]; [reflexivity|].
  destruct (writeFull f1 payload) as [[e|] f2]; [reflexivity|].
  destruct (os.Sync f2) as [[e|] f3]; reflexivity.
Qed.

(** Claim C3.  When the append of the record of a PUT, SWAP or DELETE
    request fails, the handler returns that error to the caller and the
    index is the index from before the request: no entry was inserted,
    replaced or removed. *)
Theorem append_failure_leaves_index (s : kvServer) (rq : request)
    (cmd : walCommand) (e : error) (s1 : kvServer)
    (Hrq : record_of rq = Some cmd)
    (Hfail : appendWAL s cmd = (Some e, s1)) :
  handle s rq = (Err e, s1)
  /\ tree s1 = tree s
  /\ (forall k, btree.Get (tree s1) k = btree.Get (tree s) k)
  /\ (forall k v, rq = ReqPut k v -> Put s k v = (Err e, s1))
  /\ (forall k v, rq = ReqSwap k v -> Swap s k v = (Err e, s1))
  /\ (forall k, rq = ReqDelete k -> Delete s k = (Err e, s1)).
Proof.
  assert (Ht : tree s1 = tree s).
  { pose proof (appendWAL_tree s cmd) as H. now rewrite Hfail in H. }
  assert (HP : forall k v, rq = ReqPut k v -> Put s k v = (Err e, s1)).
  { intros k v ->. injection Hrq as <-. unfold Put. now rewrite Hfail. }
  assert (HS : forall k v, rq = ReqSwap k v -> Swap s k v = (Err e, s1)).
  { intros k v ->. injection Hrq as <-. unfold Swap. now rewrite Hfail. }
  assert (HD : forall k, rq = ReqDelete k -> Delete s k = (Err e, s1)).
  { intros k ->. injection Hrq as <-. unfold Delete. now rewrite Hfail. }
  split; [|split; [exact Ht|split; [now intros k; rewrite Ht|auto]]].
  destruct rq as [k v|k|k v|k|a b]; try discriminate; cbn [handle].
  - now rewrite (HP k v eq_refl).
  - now rewrite (HS k v eq_refl).
  - now rewrite (HD k eq_refl).
Qed.

(** A PUT on a device whose next write fails. *)
Lemma append_failure_leaves_index_witness :
  exists e s1,
    handle failing_write (ReqPut "a" "1") = (Err e, s1)
    /\ tree s1 = tree failing_write.
Proof.
  destruct (appendWAL failing_write (mkCmd "put" "a" "1")) as [[e|] s1] eqn:E;
    [|vm_compute in E; discriminate].
  exists e, s1.
  destruct (append_failure_leaves_index failing_write (ReqPut "a" "1") _ e s1
              eq_refl E) as (H1 & H2 & _).
  split; [exact H1 | exact H2].
Defined.

(** Claim C10.  GET and SCAN always return a nil error and leave the whole
    server state as it was: the index tree, the contents of the log file
    and the position of its handle; in the SQLite-backed variant as well. *)
Theorem reads_leave_state (s : kvServer) (k a b : string)
    (codec : sqlite.ProtoCodec) (sd : sqlite.kvServer) :
  (exists r, Get s k = (Ok r, s))
  /\ (exists r, Scan s a b = (Ok r, s))
  /\ tree (snd (Get s k)) = tree s
  /\ data (logFile (snd (Get s k))) = data (logFile s)
  /\ off (logFile (snd (Get s k))) = off (logFile s)
  /\ tree (snd (Scan s a b)) = tree s
  /\ data (logFile (snd (Scan s a b))) = data (logFile s)
  /\ off (logFile (snd (Scan s a b))) = off (logFile s)
  /\ (exists r, sqlite.Get sd k = (Ok r, sd))
  /\ (exists r, sqlite.Scan sd a b = (Ok r, sd)).
Proof.
  assert (HG : exists r, Get s k = (Ok r, s)).
  { unfold Get. destruct (btree.Get (tree s) _); eauto. }
  assert (HS : exists r, Scan s a b = (Ok r, s)) by (unfold Scan; eauto).
  destruct HG as [r HG], HS as [r' HS]. rewrite HG, HS. cbn [snd].
  repeat (split; [now eauto|]).
  split; [|unfold sqlite.Scan; eauto].
  unfold sqlite.Get. destruct (btree.Get (sqlite.tree sd) _); eauto.
Qed.

(** ** The two back-ends *)

Section Backends.

Context {codec : sqlite.ProtoCodec}.

Lemma sqlite_appendLog_tree sd cmd :
  sqlite.tree (snd (sqlite.appendLog sd cmd)) = sqlite.tree sd.
Proof.
  unfold sqlite.appendLog. destruct (negb _); [reflexivity|].
  destruct (sqlite.proto_Marshal cmd); [|reflexivity].
  destruct (sqlite.Exec_insert _ _) as [[e|] db']; reflexivity.
Qed.

(** One request on both servers with the same index: when neither
    reports an error, the replies are equal and so are the indexes
    after. *)
Lemma handle_same_reply s sd rq r s' r' sd' :
  tree s = sqlite.tree sd ->
  handle s rq = (Ok r, s') -> sqlite.handle sd rq = (Ok r', sd') ->
  r = r' /\ tree s' = sqlite.tree sd'.
Proof.
  intros Ht H1 H2. destruct rq as [k v|k|k v|k|a b]; cbn [handle sqlite.handle] in *.
  - unfold Put in H1. unfold sqlite.Put in H2.
    pose proof (appendWAL_tree s (mkCmd "put" k v)) as T1.
    pose proof (sqlite_appendLog_tree sd
                  (sqlite.mkWALCommand sqlite.WALCommand_OP_PUT k v)) as T2.
    destruct (appendWAL s _) as [[e|] s1]; [discriminate|].
    destruct (sqlite.appendLog sd _) as [[e|] sd1]; [discriminate|].
    cbn [snd map_result] in *. injection H1 as <- <-. injection H2 as <- <-.
    rewrite Ht. split; [reflexivity|].
    unfold applyCommand, sqlite.applyCommand. cbn. now rewrite T1, T2, Ht.
  - unfold Get in H1. unfold sqlite.Get in H2. rewrite Ht in H1.
    destruct (btree.Get (sqlite.tree sd) _); cbn [map_result] in *;
      injection H1 as <- <-; injection H2 as <- <-; auto.
  - unfold Swap in H1. unfold sqlite.Swap in H2.
    pose proof (appendWAL_tree s (mkCmd "swap" k v)) as T1.
    pose proof (sqlite_appendLog_tree sd
                  (sqlite.mkWALCommand sqlite.WALCommand_OP_SWAP k v)) as T2.
    destruct (appendWAL s _) as [[e|] s1]; [discriminate|].
    destruct (sqlite.appendLog sd _) as [[e|] sd1]; [discriminate|].
    rewrite Ht in H1. cbn [snd] in *.
    assert (Hs : tree (applyCommand s1 (mkCmd "swap" k v)) =
                 sqlite.tree (sqlite.applyCommand sd1
                   (sqlite.mkWALCommand sqlite.WALCommand_OP_SWAP k v))).
    { unfold applyCommand, sqlite.applyCommand. cbn. now rewrite T1, T2, Ht. }
    destruct (btree.Get (sqlite.tree sd) _); cbn [map_result] in *;
      injection H1 as <- <-; injection H2 as <- <-; auto.
  - unfold Delete in H1. unfold sqlite.Delete in H2.
    pose proof (appendWAL_tree s (mkCmd "delete" k "")) as T1.
    pose proof (sqlite_appendLog_tree sd
                  (sqlite.mkWALCommand sqlite.WALCommand_OP_DELETE k "")) as T2.
    destruct (appendWAL s _) as [[e|] s1]; [discriminate|].
    destruct (sqlite.appendLog sd _) as [[e|] sd1]; [discriminate|].
    cbn [snd map_result] in *. injection H1 as <- <-. injection H2 as <- <-.
    rewrite Ht. split; [reflexivity|].
    unfold applyCommand, sqlite.applyCommand. cbn. now rewrite T1, T2, Ht.
  - unfold Scan in H1. unfold sqlite.Scan in H2. rewrite Ht in H1.
    cbn [map_result] in *. injection H1 as <- <-. injection H2 as <- <-. auto.
Qed.

End Backends.

(** ** UTF-8: decoding a valid encoding and encoding it again *)

Ltac Zify.zify_post_hook ::= Z.to_euclidean_division_equations.

Section Utf8Facts.
Import utf8.
Local Open Scope N_scope.

Lemma b2n_bound c : b2n c < 256.
Proof. apply N_ascii_bounded. Qed.

Lemma n2b_b2n c : n2b (b2n c) = c.
Proof. apply ascii_N_embedding. Qed.

Lemma land_zero_shift q n b : b < 2 ^ n -> N.land (q * 2 ^ n) b = 0.
Proof.
  intros Hb. apply N.bits_inj_0. intros m. rewrite N.land_spec.
  destruct (N.lt_ge_cases m n) as [Hm|Hm].
  - now rewrite N.mul_pow2_bits_low.
  - destruct (N.eq_dec b 0) as [->|Hb0]; [now rewrite N.bits_0, andb_false_r|].
    rewrite (N.bits_above_log2 b m), andb_false_r; [reflexivity|].
    apply N.log2_lt_pow2; [lia|].
    eapply N.lt_le_trans; [exact Hb|]. apply N.pow_le_mono_r; lia.
Qed.

Lemma lor_add q n b : b < 2 ^ n -> N.lor (q * 2 ^ n) b = q * 2 ^ n + b.
Proof.
  intros Hb. pose proof (land_zero_shift q n b Hb) as H0.
  now rewrite N.add_nocarry_lxor, N.lxor_lor.
Qed.

Lemma first_cases p0 :
  p0 < 256 ->
  (first p0 = as_ /\ p0 < 0x80) \/
  (first p0 = xx /\ (0x80 <= p0 < 0xC2 \/ 0xF5 <= p0)) \/
  (first p0 = s1 /\ 0xC2 <= p0 <= 0xDF) \/
  (first p0 = s2 /\ p0 = 0xE0) \/
  (first p0 = s3 /\ 0xE1 <= p0 <= 0xEF /\ p0 <> 0xED) \/
  (first p0 = s4 /\ p0 = 0xED) \/
  (first p0 = s5 /\ p0 = 0xF0) \/
  (first p0 = s6 /\ 0xF1 <= p0 <= 0xF3) \/
  (first p0 = s7 /\ p0 = 0xF4).
Proof.
  intros Hp. unfold first.
  repeat match goal with
  | |- context [if (?a <? ?b) then _ else _] => destruct (N.ltb_spec a b)
  | |- context [if (?a =? ?b) then _ else _] => destruct (N.eqb_spec a b)
  end; try (intuition lia).
Qed.

Lemma enc2 c0 c1 :
  0xC2 <= b2n c0 <= 0xDF -> cont c1 ->
  EncodeRune (N.lor (N.shiftl (N.land (b2n c0) mask2) 6) (N.land (b2n c1) maskx))
  = [c0; c1].
Proof.
  unfold cont. intros H0 H1.
  unfold mask2, maskx. change 0x1F with (N.ones 5). change 0x3F with (N.ones 6).
  rewrite !N.land_ones, N.shiftl_mul_pow2.
  rewrite lor_add by (apply N.mod_lt; discriminate).
  set (r := _ + _).
  assert (Hr : r = (b2n c0 - 0xC0) * 64 + (b2n c1 - 0x80)) by (subst r; lia).
  unfold EncodeRune, rune1Max, rune2Max.
  destruct (N.leb_spec r 0x7F); [lia|].
  destruct (N.leb_spec r 0x7FF); [|lia].
  unfold t2, tx, maskx. change 0x3F with (N.ones 6).
  rewrite N.land_ones, N.shiftr_div_pow2.
  change 0xC0 with (3 * 2 ^ 6). change 0x80 with (2 * 2 ^ 6).
  rewrite !lor_add by lia.
  replace (3 * 2 ^ 6 + r / 2 ^ 6) with (b2n c0) by lia.
  replace (2 * 2 ^ 6 + r mod 2 ^ 6) with (b2n c1) by lia.
  now rewrite !n2b_b2n.
Qed.

Lemma enc3 c0 c1 c2 :
  lead3 c0 c1 -> cont c2 ->
  EncodeRune (N.lor (N.lor (N.shiftl (N.land (b2n c0) mask3) 12)
                           (N.shiftl (N.land (b2n c1) maskx) 6))
                    (N.land (b2n c2) maskx))
  = [c0; c1; c2].
Proof.
  unfold lead3, cont. intros H0 H2.
  unfold mask3, maskx. change 0x0F with (N.ones 4). change 0x3F with (N.ones 6).
  rewrite !N.land_ones, !N.shiftl_mul_pow2.
  rewrite (lor_add _ 12) by lia.
  replace (b2n c0 mod 2 ^ 4 * 2 ^ 12 + b2n c1 mod 2 ^ 6 * 2 ^ 6)
    with ((b2n c0 mod 2 ^ 4 * 2 ^ 6 + b2n c1 mod 2 ^ 6) * 2 ^ 6) by lia.
  rewrite lor_add by (apply N.mod_lt; discriminate).
  set (r := _ + _).
  assert (Hr : r = (b2n c0 - 0xE0) * 4096 + (b2n c1 - 0x80) * 64 + (b2n c2 - 0x80))
    by (subst r; lia).
  unfold EncodeRune, rune1Max, rune2Max, rune3Max, MaxRune, surrogateMin,
    surrogateMax.
  destruct (N.leb_spec r 0x7F); [lia|].
  destruct (N.leb_spec r 0x7FF); [lia|].
  destruct (N.ltb_spec 0x10FFFF r); [lia|].
  destruct (N.leb_spec 0xD800 r); cbn [andb orb];
    [destruct (N.leb_spec r 0xDFFF); [lia|]|];
    (destruct (N.leb_spec r 0xFFFF); [|lia]);
    unfold encode3, t3, tx, maskx; change 0x3F with (N.ones 6);
    rewrite !N.land_ones, !N.shiftr_div_pow2;
    change 0xE0 with (7 * 2 ^ 5); change 0x80 with (2 * 2 ^ 6);
    rewrite !lor_add by lia;
    replace (7 * 2 ^ 5 + r / 2 ^ 12) with (b2n c0) by lia;
    replace (2 * 2 ^ 6 + (r / 2 ^ 6) mod 2 ^ 6) with (b2n c1) by lia;
    replace (2 * 2 ^ 6 + r mod 2 ^ 6) with (b2n c2) by lia;
    now rewrite !n2b_b2n.
Qed.

Lemma enc4 c0 c1 c2 c3 :
  lead4 c0 c1 -> cont c2 -> cont c3 ->
  EncodeRune (N.lor (N.lor (N.lor (N.shiftl (N.land (b2n c0) mask4) 18)
                                  (N.shiftl (N.land (b2n c1) maskx) 12))
                           (N.shiftl (N.land (b2n c2) maskx) 6))
                    (N.land (b2n c3) maskx))
  = [c0; c1; c2; c3].
Proof.
  unfold lead4, cont. intros H0 H2 H3.
  unfold mask4, maskx. change 0x07 with (N.ones 3). change 0x3F with (N.ones 6).
  rewrite !N.land_ones, !N.shiftl_mul_pow2.
  rewrite (lor_add _ 18) by lia.
  replace (b2n c0 mod 2 ^ 3 * 2 ^ 18 + b2n c1 mod 2 ^ 6 * 2 ^ 12)
    with ((b2n c0 mod 2 ^ 3 * 2 ^ 6 + b2n c1 mod 2 ^ 6) * 2 ^ 12) by lia.
  rewrite (lor_add _ 12) by lia.
  replace ((b2n c0 mod 2 ^ 3 * 2 ^ 6 + b2n c1 mod 2 ^ 6) * 2 ^ 12
           + b2n c2 mod 2 ^ 6 * 2 ^ 6)
    with (((b2n c0 mod 2 ^ 3 * 2 ^ 6 + b2n c1 mod 2 ^ 6) * 2 ^ 6
           + b2n c2 mod 2 ^ 6) * 2 ^ 6) by lia.
  rewrite lor_add by (apply N.mod_lt; discriminate).
  set (r := _ + _).
  assert (Hr : r = (b2n c0 - 0xF0) * 262144 + (b2n c1 - 0x80) * 4096
                   + (b2n c2 - 0x80) * 64 + (b2n c3 - 0x80))
    by (subst r; lia).
  unfold EncodeRune, rune1Max, rune2Max, rune3Max, MaxRune, surrogateMin,
    surrogateMax.
  destruct (N.leb_spec r 0x7F); [lia|].
  destruct (N.leb_spec r 0x7FF); [lia|].
  destruct (N.ltb_spec 0x10FFFF r); [lia|].
  destruct (N.leb_spec 0xD800 r); [|lia].
  destruct (N.leb_spec r 0xDFFF); [lia|]. cbn [andb orb].
  destruct (N.leb_spec r 0xFFFF); [lia|].
  unfold t4, tx, maskx; change 0x3F with (N.ones 6).
  rewrite !N.land_ones, !N.shiftr_div_pow2.
  change 0xF0 with (15 * 2 ^ 4); change 0x80 with (2 * 2 ^ 6).
  rewrite !lor_add by lia.
  replace (15 * 2 ^ 4 + r / 2 ^ 18) with (b2n c0) by lia.
  replace (2 * 2 ^ 6 + (r / 2 ^ 12) mod 2 ^ 6) with (b2n c1) by lia.
  replace (2 * 2 ^ 6 + (r / 2 ^ 6) mod 2 ^ 6) with (b2n c2) by lia.
  replace (2 * 2 ^ 6 + r mod 2 ^ 6) with (b2n c3) by lia.
  now rewrite !n2b_b2n.
Qed.
End Utf8Facts.

Ltac Zify.zify_post_hook ::= idtac.

Section DecodeFacts.
Import utf8.
Local Open Scope N_scope.

Lemma DecodeRune_cons c0 p1 :
  DecodeRune (c0 :: p1) =
  (let p0 := b2n c0 in
   let x := first p0 in
   if as_ <=? x then ((if N.odd x then RuneError else p0), 1%nat)
   else
     let sz := N.to_nat (N.land x 7) in
     let '(lo, hi) := acceptRanges (N.shiftr x 4) in
     if (List.length (c0 :: p1) <? sz)%nat then (RuneError, 1%nat)
     else
       match p1 with
       | [] => (RuneError, 1%nat)
       | c1 :: p2 =>
           let b1 := b2n c1 in
           if (b1 <? lo) || (hi <? b1) then (RuneError, 1%nat)
           else if (sz <=? 2)%nat then
             (N.lor (N.shiftl (N.land p0 mask2) 6) (N.land b1 maskx), 2%nat)
           else
             match p2 with
             | [] => (RuneError, 1%nat)
             | c2 :: p3 =>
                 let b2 := b2n c2 in
                 if (b2 <? locb) || (hicb <? b2) then (RuneError, 1%nat)
                 else if (sz <=? 3)%nat then
                   (N.lor (N.lor (N.shiftl (N.land p0 mask3) 12)
                                 (N.shiftl (N.land b1 maskx) 6))
                          (N.land b2 maskx), 3%nat)
                 else
                   match p3 with
                   | [] => (RuneError, 1%nat)
                   | c3 :: _ =>
                       let b3 := b2n c3 in
                       if (b3 <? locb) || (hicb <? b3)
                       then (RuneError, 1%nat)
                       else
                         (N.lor (N.lor (N.lor
                            (N.shiftl (N.land p0 mask4) 18)
                            (N.shiftl (N.land b1 maskx) 12))
                            (N.shiftl (N.land b2 maskx) 6))
                            (N.land b3 maskx), 4%nat)
                   end
             end
       end).
Proof. reflexivity. Qed.

Ltac range_tests :=
  repeat match goal with
  | |- context [(?a <? ?b)] => destruct (N.ltb_spec a b)
  end; cbn [orb].

Ltac header_of H x sz lo hi :=
  change (as_ <=? x) with false in H;
  change (N.to_nat (N.land x 7)) with sz in H;
  change (acceptRanges (N.shiftr x 4)) with (lo, hi) in H;
  cbv iota beta in H.

(** The three outcomes of [DecodeRune] on a non-empty input: an ASCII
    byte, an invalid encoding, or a valid encoding of two to four
    bytes. *)
Lemma DecodeRune_spec c0 p1 r n :
  DecodeRune (c0 :: p1) = (r, n) ->
  (n = 1%nat /\ b2n c0 < 0x80 /\ r = b2n c0) \/
  (n = 1%nat /\ 0x80 <= b2n c0 /\ r = RuneError) \/
  decoded (c0 :: p1) r n.
Proof.
  intros H. rewrite DecodeRune_cons in H. cbv zeta in H.
  pose proof (b2n_bound c0) as Hb.
  destruct (first_cases (b2n c0) Hb)
    as [[Hx ?]|[[Hx ?]|[[Hx ?]|[[Hx ?]|[[Hx ?]|[[Hx ?]|[[Hx ?]|[[Hx ?]|[Hx ?]]]]]]]]];
    rewrite Hx in H.
  - change (as_ <=? as_) with true in H. cbv iota in H.
    change (N.odd as_) with false in H. cbv iota in H.
    injection H as <- <-. auto.
  - change (as_ <=? xx) with true in H. cbv iota in H.
    change (N.odd xx) with true in H. cbv iota in H.
    injection H as <- <-. right; left. repeat split; try reflexivity; lia.
  - header_of H s1 2%nat locb hicb.
    destruct p1 as [|c1 p2]; [simpl in H; injection H as <- <-; right; left; repeat split; lia|].
    cbn [List.length Nat.ltb Nat.leb] in H. unfold locb, hicb in H.
    revert H. range_tests; intros [= <- <-];
      try (right; left; repeat split; lia).
    right; right. apply decoded2; unfold cont; auto; lia.
  - header_of H s2 3%nat 0xA0 hicb.
    destruct p1 as [|c1 [|c2 p3]];
      try (simpl in H; injection H as <- <-; right; left; repeat split; lia).
    cbn [List.length Nat.ltb Nat.leb] in H. unfold locb, hicb in H.
    revert H. range_tests; intros [= <- <-];
      try (right; left; repeat split; lia).
    right; right. apply decoded3; unfold lead3, cont; auto; lia.
  - header_of H s3 3%nat locb hicb.
    destruct p1 as [|c1 [|c2 p3]];
      try (simpl in H; injection H as <- <-; right; left; repeat split; lia).
    cbn [List.length Nat.ltb Nat.leb] in H. unfold locb, hicb in H.
    revert H. range_tests; intros [= <- <-];
      try (right; left; repeat split; lia).
    right; right. apply decoded3; unfold lead3, cont; auto; lia.
  - header_of H s4 3%nat locb 0x9F.
    destruct p1 as [|c1 [|c2 p3]];
      try (simpl in H; injection H as <- <-; right; left; repeat split; lia).
    cbn [List.length Nat.ltb Nat.leb] in H. unfold locb, hicb in H.
    revert H. range_tests; intros [= <- <-];
      try (right; left; repeat split; lia).
    right; right. apply decoded3; unfold lead3, cont; auto; lia.
  - header_of H s5 4%nat 0x90 hicb.
    destruct p1 as [|c1 [|c2 [|c3 p4]]];
      try (simpl in H; injection H as <- <-; right; left; repeat split; lia).
    cbn [List.length Nat.ltb Nat.leb] in H. unfold locb, hicb in H.
    revert H. range_tests; intros [= <- <-];
      try (right; left; repeat split; lia).
    right; right. apply decoded4; unfold lead4, cont; auto; lia.
  - header_of H s6 4%nat locb hicb.
    destruct p1 as [|c1 [|c2 [|c3 p4]]];
      try (simpl in H; injection H as <- <-; right; left; repeat split; lia).
    cbn [List.length Nat.ltb Nat.leb] in H. unfold locb, hicb in H.
    revert H. range_tests; intros [= <- <-];
      try (right; left; repeat split; lia).
    right; right. apply decoded4; unfold lead4, cont; auto; lia.
  - header_of H s7 4%nat locb 0x8F.
    destruct p1 as [|c1 [|c2 [|c3 p4]]];
      try (simpl in H; injection H as <- <-; right; left; repeat split; lia).
    cbn [List.length Nat.ltb Nat.leb] in H. unfold locb, hicb in H.
    revert H. range_tests; intros [= <- <-];
      try (right; left; repeat split; lia).
    right; right. apply decoded4; unfold lead4, cont; auto; lia.
Qed.

Lemma decoded_width p r n : decoded p r n -> (2 <= n <= 4)%nat.
Proof. destruct 1; lia. Qed.

Lemma decoded_split p r n :
  decoded p r n ->
  p = firstn n p ++ skipn n p /\ List.length (firstn n p) = n.
Proof. destruct 1; split; reflexivity. Qed.

Lemma decoded_high p r n :
  decoded p r n -> Forall (fun c => 0x80 <= b2n c) (firstn n p).
Proof.
  destruct 1; cbn [firstn]; unfold lead3, lead4, cont in *;
    repeat constructor; lia.
Qed.

Lemma decoded_encode p r n : decoded p r n -> EncodeRune r = firstn n p.
Proof.
  destruct 1; subst r; cbn [firstn]; auto using enc2, enc3, enc4.
Qed.

Ltac header_goal x sz lo hi :=
  change (as_ <=? x) with false;
  change (N.to_nat (N.land x 7)) with sz;
  change (acceptRanges (N.shiftr x 4)) with (lo, hi);
  cbv iota beta.

Ltac redecode :=
  cbn [List.length Nat.ltb Nat.leb app]; unfold locb, hicb;
  range_tests; try lia; reflexivity.

(** A valid encoding decodes the same whatever follows it. *)
Lemma decoded_stable p r n Y :
  decoded p r n -> DecodeRune (firstn n p ++ Y) = (r, n).
Proof.
  destruct 1 as [c0 c1 p r H0 H1 Hr|c0 c1 c2 p r H0 H2 Hr
                |c0 c1 c2 c3 p r H0 H2 H3 Hr];
    subst r; cbn [firstn app]; rewrite DecodeRune_cons; cbv zeta;
    unfold lead3, lead4, cont in *;
    pose proof (b2n_bound c0) as Hb;
    destruct (first_cases (b2n c0) Hb)
      as [[Hx ?]|[[Hx ?]|[[Hx ?]|[[Hx ?]|[[Hx ?]|[[Hx ?]|[[Hx ?]|[[Hx ?]|[Hx ?]]]]]]]]];
    try lia; rewrite Hx.
  - header_goal s1 2%nat locb hicb. redecode.
  - header_goal s2 3%nat 0xA0 hicb. redecode.
  - header_goal s3 3%nat locb hicb. redecode.
  - header_goal s4 3%nat locb 0x9F. redecode.
  - header_goal s5 4%nat 0x90 hicb. redecode.
  - header_goal s6 4%nat locb hicb. redecode.
  - header_goal s7 4%nat locb 0x8F. redecode.
Qed.

(** [DecodeRune] reads at most [UTFMax] bytes. *)
Lemma DecodeRune_firstn p : DecodeRune (firstn UTFMax p) = DecodeRune p.
Proof.
  destruct p as [|c0 p1]; [reflexivity|].
  destruct (DecodeRune (c0 :: p1)) as [r n] eqn:E.
  destruct (DecodeRune_spec _ _ _ _ E) as [(-> & Hlt & ->)|[(-> & Hge & ->)|Hd]].
  - clear E. cbn [firstn UTFMax]. rewrite DecodeRune_cons. cbv zeta.
    pose proof (b2n_bound c0) as Hb.
    destruct (first_cases (b2n c0) Hb)
      as [[Hx ?]|[[Hx ?]|[[Hx ?]|[[Hx ?]|[[Hx ?]|[[Hx ?]|[[Hx ?]|[[Hx ?]|[Hx ?]]]]]]]]];
      try lia. rewrite Hx. reflexivity.
  - destruct p1 as [|c1 [|c2 [|c3 [|c4 p5]]]]; try exact E.
    cbn [firstn UTFMax]. rewrite DecodeRune_cons in E |- *. cbv zeta in E |- *.
    pose proof (b2n_bound c0) as Hb.
    destruct (first_cases (b2n c0) Hb)
      as [[Hx ?]|[[Hx ?]|[[Hx ?]|[[Hx ?]|[[Hx ?]|[[Hx ?]|[[Hx ?]|[[Hx ?]|[Hx ?]]]]]]]]];
      rewrite Hx in E |- *; exact E.
  - pose proof (decoded_width _ _ _ Hd) as Hn.
    pose proof (decoded_stable _ _ _ (firstn (UTFMax - n) (skipn n (c0 :: p1))) Hd)
      as Hs.
    rewrite <- Hs. f_equal.
    destruct Hd; reflexivity.
Qed.

End DecodeFacts.

(** ** JSON string literals: what [Marshal] writes, [Unmarshal] reads back *)

Section JsonStrings.
Import json.
Local Open Scope N_scope.

Lemma high_neq c x : 0x80 <= b2n c -> b2n x < 0x80 -> Ascii.eqb c x = false.
Proof.
  intros Hc Hx. apply Ascii.eqb_neq. intros ->. lia.
Qed.

Lemma scan_chunk_nil : scan_chunk [].
Proof. intros X. simpl. now destruct (scan_string X) as [[? ?]|]. Qed.

Lemma scan_chunk_app a b : scan_chunk a -> scan_chunk b -> scan_chunk (a ++ b).
Proof.
  intros Ha Hb X. rewrite <- app_assoc, Ha, Hb.
  destruct (scan_string X) as [[raw rest]|]; [|reflexivity].
  now rewrite app_assoc.
Qed.

Lemma scan_chunk_byte c :
  Ascii.eqb c quote = false -> Ascii.eqb c "\" = false ->
  (b2n c <? 0x20) = false -> scan_chunk [c].
Proof.
  intros H1 H2 H3 X. cbn [app scan_string]. now rewrite H1, H2, H3.
Qed.

Lemma scan_chunk_high a : Forall (fun c => 0x80 <= b2n c) a -> scan_chunk a.
Proof.
  induction 1 as [|c a Hc _ IH]; [apply scan_chunk_nil|].
  change (c :: a) with ([c] ++ a). apply scan_chunk_app; [|exact IH].
  apply scan_chunk_byte.
  - apply high_neq; [assumption | reflexivity].
  - apply high_neq; [assumption | reflexivity].
  - apply N.ltb_ge. lia.
Qed.

Lemma prepend_app a b o : prepend a (prepend b o) = prepend (a ++ b) o.
Proof. destruct o; simpl; [now rewrite app_assoc | reflexivity]. Qed.

Lemma unq_chunk_nil : unq_chunk [] [].
Proof. intros X. simpl. now destruct (unquote_loop X 0). Qed.

Lemma unq_chunk_app a da b db :
  unq_chunk a da -> unq_chunk b db -> unq_chunk (a ++ b) (da ++ db).
Proof.
  intros Ha Hb X. now rewrite <- app_assoc, Ha, Hb, prepend_app.
Qed.

Lemma ascii_piece_scan c : b2n c < 0x80 -> scan_chunk (ascii_piece c).
Proof.
  destruct c as [[] [] [] [] [] [] [] []]; intros H; try discriminate H;
    intros X; reflexivity.
Qed.

Lemma ascii_piece_unq c : b2n c < 0x80 -> unq_chunk (ascii_piece c) [c].
Proof.
  destruct c as [[] [] [] [] [] [] [] []]; intros H; try discriminate H;
    intros X; reflexivity.
Qed.

Lemma unquote_loop_skip a l :
  unquote_loop (a ++ l) (List.length a) = unquote_loop l 0.
Proof.
  induction a as [|x a IH]; [reflexivity|]. exact IH.
Qed.

Lemma unquote_loop_high c rest :
  0x80 <= b2n c ->
  unquote_loop (c :: rest) 0 =
  let '(rr, size) := utf8.DecodeRune (c :: rest) in
  prepend (utf8.EncodeRune rr) (unquote_loop rest (size - 1)).
Proof.
  intros Hc. cbn [unquote_loop].
  rewrite (high_neq c "\"%char Hc) by reflexivity.
  rewrite (high_neq c quote Hc) by reflexivity.
  replace (b2n c <? 0x20) with false by (symmetry; apply N.ltb_ge; lia).
  replace (b2n c <? utf8.RuneSelf) with false
    by (symmetry; apply N.ltb_ge; unfold utf8.RuneSelf; lia).
  reflexivity.
Qed.

(** The bytes of a valid multi-byte rune are read back as they are. *)
Lemma raw_unq p r n :
  decoded p r n -> unq_chunk (firstn n p) (firstn n p).
Proof.
  intros Hd X.
  pose proof (decoded_stable _ _ _ X Hd) as Hs.
  pose proof (decoded_encode _ _ _ Hd) as He.
  pose proof (decoded_high _ _ _ Hd) as Hh.
  destruct (firstn n p) as [|c t] eqn:Ef.
  { destruct Hd; discriminate. }
  assert (Hlen : List.length t = (n - 1)%nat).
  { pose proof (proj2 (decoded_split _ _ _ Hd)) as Hl. rewrite Ef in Hl.
    simpl in Hl. lia. }
  cbn [app]. rewrite unquote_loop_high by (now inversion Hh).
  cbn [app] in Hs. rewrite Hs, He, <- Hlen. now rewrite unquote_loop_skip.
Qed.

Lemma appendString_loop_cons c rest :
  appendString_loop (c :: rest) 0 =
  if b2n c <? utf8.RuneSelf then ascii_piece c ++ appendString_loop rest 0
  else
    let '(r, size) := utf8.DecodeRune (firstn utf8.UTFMax (c :: rest)) in
    if (r =? utf8.RuneError) && (size =? 1)%nat then
      bytes "\ufffd" ++ appendString_loop rest 0
    else if (r =? 0x2028) || (r =? 0x2029) then
      bytes "\u202" ++ [hex (N.land r 0xF)]
      ++ appendString_loop rest (size - 1)
    else
      firstn size (c :: rest) ++ appendString_loop rest (size - 1).
Proof. reflexivity. Qed.

Lemma valid_from_cons c rest :
  utf8.valid_from (c :: rest) 0 =
  if b2n c <? utf8.RuneSelf then utf8.valid_from rest 0
  else
    let '(r, size) := utf8.DecodeRune (c :: rest) in
    if (size =? 1)%nat then false else utf8.valid_from rest (size - 1).
Proof. reflexivity. Qed.

(** The body of the literal that [appendString] writes for a valid
    UTF-8 string is scanned as a whole and unquoted to the string. *)
Lemma appendString_loop_chunk n : forall s,
  (List.length s <= n)%nat -> utf8.valid_from s 0 = true ->
  scan_chunk (appendString_loop s 0) /\ unq_chunk (appendString_loop s 0) s.
Proof.
  induction n as [|n IH]; intros s Hlen Hv.
  - destruct s; [|simpl in Hlen; lia].
    split; [apply scan_chunk_nil | apply unq_chunk_nil].
  - destruct s as [|c rest];
      [split; [apply scan_chunk_nil | apply unq_chunk_nil]|].
    simpl in Hlen. rewrite appendString_loop_cons. rewrite valid_from_cons in Hv.
    destruct (N.ltb_spec (b2n c) utf8.RuneSelf) as [Hc|Hc].
    + destruct (IH rest ltac:(lia) Hv) as [IHs IHu]. split.
      * apply scan_chunk_app; [now apply ascii_piece_scan | exact IHs].
      * change (c :: rest) with ([c] ++ rest).
        apply unq_chunk_app; [now apply ascii_piece_unq | exact IHu].
    + rewrite DecodeRune_firstn.
      destruct (utf8.DecodeRune (c :: rest)) as [r size] eqn:E.
      destruct (Nat.eqb_spec size 1) as [->|Hsz]; [discriminate|].
      rewrite andb_false_r.
      destruct (DecodeRune_spec _ _ _ _ E) as [(? & _)|[(? & _)|Hd]];
        try contradiction.
      pose proof (decoded_encode _ _ _ Hd) as He.
      pose proof (decoded_high _ _ _ Hd) as Hh.
      pose proof (raw_unq _ _ _ Hd) as Hraw.
      assert (Htail : exists tail,
                 c :: rest = firstn size (c :: rest) ++ tail /\
                 appendString_loop rest (size - 1) = appendString_loop tail 0 /\
                 utf8.valid_from rest (size - 1) = utf8.valid_from tail 0 /\
                 (List.length tail <= n)%nat).
      { inversion Hd; subst; eexists; (split; [reflexivity|]);
          cbn [appendString_loop utf8.valid_from Nat.sub];
          (split; [reflexivity|]); (split; [reflexivity|]);
          simpl in Hlen; lia. }
      destruct Htail as (tail & Hsplit & Ha & Hvt & Hlt).
      rewrite Ha. rewrite Hvt in Hv.
      destruct (IH tail Hlt Hv) as [IHs IHu].
      set (chunk := firstn size (c :: rest)) in *.
      rewrite Hsplit.
      destruct (N.eqb_spec r 0x2028) as [->|H28];
        [|destruct (N.eqb_spec r 0x2029) as [->|H29]]; cbn [orb].
      * split.
        { rewrite app_assoc. apply scan_chunk_app; [|exact IHs].
          intros X. reflexivity. }
        { rewrite app_assoc. apply unq_chunk_app; [|exact IHu].
          rewrite <- He. intros X. reflexivity. }
      * split.
        { rewrite app_assoc. apply scan_chunk_app; [|exact IHs].
          intros X. reflexivity. }
        { rewrite app_assoc. apply unq_chunk_app; [|exact IHu].
          rewrite <- He. intros X. reflexivity. }
      * split.
        { apply scan_chunk_app; [now apply scan_chunk_high | exact IHs]. }
        { apply unq_chunk_app; [exact Hraw | exact IHu]. }
Qed.

(** A string value written by [appendString] parses to the string. *)
Lemma scan_appendString s X :
  utf8.ValidString s = true ->
  scan_string (appendString_loop (bytes s) 0 ++ quote :: X) =
  Some (appendString_loop (bytes s) 0, X)
  /\ unquoteBytes (appendString_loop (bytes s) 0) = Some (bytes s).
Proof.
  intros Hv.
  destruct (appendString_loop_chunk _ (bytes s) (le_n _) Hv) as [Hs Hu].
  split.
  - rewrite Hs. cbn [scan_string]. change (Ascii.eqb quote quote) with true.
    cbv iota. now rewrite app_nil_r.
  - unfold unquoteBytes.
    rewrite <- (app_nil_r (appendString_loop (bytes s) 0)), Hu.
    simpl. now rewrite app_nil_r.
Qed.

End JsonStrings.

(** ** The codec of the records: [Marshal] then [Unmarshal] *)

Section Codec.
Import json.

Lemma bytes_string s : string_of_list_ascii (bytes s) = s.
Proof. apply string_of_list_ascii_of_string. Qed.

Lemma parse_string_value f s X :
  utf8.ValidString s = true ->
  parse_value (S f) (appendString s ++ X) = POk (JString s) X.
Proof.
  intros Hv. unfold appendString. cbn [app parse_value].
  change (Ascii.eqb quote "{") with false.
  change (Ascii.eqb quote "[") with false.
  change (Ascii.eqb quote quote) with true. cbv iota.
  rewrite <- app_assoc. cbn [app].
  destruct (scan_appendString s X Hv) as [-> ->].
  now rewrite bytes_string.
Qed.

Lemma skip_ws_appendString s X :
  skip_ws (appendString s ++ X) = appendString s ++ X.
Proof. reflexivity. Qed.

(** One member with a string value, followed by [X]. *)
Lemma parse_member f kraw k s X :
  scan_chunk kraw -> unquoteBytes kraw = Some k ->
  utf8.ValidString s = true ->
  parse_members (S (S f))
    (quote :: kraw ++ quote :: ":"%char :: appendString s ++ X) =
  match skip_ws X with
  | c4 :: r4 =>
      if Ascii.eqb c4 "," then
        match parse_members (S f) (skip_ws r4) with
        | POk ms r5 => POk ((string_of_list_ascii k, JString s) :: ms) r5
        | PErr => PErr
        | PFuel => PFuel
        end
      else if Ascii.eqb c4 "}" then POk [(string_of_list_ascii k, JString s)] r4
      else PErr
  | [] => PErr
  end.
Proof.
  intros Hk Hu Hv.
  cbn [parse_members]. change (Ascii.eqb quote quote) with true. cbv iota.
  rewrite Hk. cbn [scan_string]. change (Ascii.eqb quote quote) with true.
  cbv iota. rewrite app_nil_r, Hu.
  change (skip_ws (":"%char :: appendString s ++ X))
    with (":"%char :: appendString s ++ X).
  cbv iota. change (Ascii.eqb ":" ":") with true. cbv iota.
  rewrite skip_ws_appendString, parse_string_value by assumption.
  reflexivity.
Qed.

Lemma key_chunk k :
  (k = "op" \/ k = "key" \/ k = "value") ->
  scan_chunk (bytes k) /\ unquoteBytes (bytes k) = Some (bytes k).
Proof.
  intros [-> | [-> | ->]];
    (split; [intros X; cbn; now destruct (scan_string X) as [[? ?]|]
            | reflexivity]).
Qed.

Ltac next_member :=
  cbn [skip_ws]; change (isSpace ",") with false; cbv iota;
  change (Ascii.eqb "," ",") with true; cbv iota;
  cbn [skip_ws]; change (isSpace quote) with false; cbv iota.

(** The round trip of the codec on valid UTF-8 strings. *)
Lemma Unmarshal_Marshal cmd :
  utf8.ValidString (Op cmd) = true ->
  utf8.ValidString (Key cmd) = true ->
  utf8.ValidString (Value cmd) = true ->
  Unmarshal (fst (Marshal cmd)) = Ok cmd.
Proof.
  destruct cmd as [op k v]. cbn [Op Key Value Marshal fst]. intros Ho Hk Hv.
  destruct (key_chunk "op" ltac:(auto)) as [Cop Uop].
  destruct (key_chunk "key" ltac:(auto)) as [Ckey Ukey].
  destruct (key_chunk "value" ltac:(auto)) as [Cval Uval].
  unfold Unmarshal.
  set (tail := (if (String.length v =? 0)%nat then []
                else field_prefix "," "value" ++ appendString v) ++ bytes "}").
  change (field_prefix "{" "op" ++ appendString op ++ field_prefix "," "key"
          ++ appendString k ++ tail)
    with ("{"%char :: quote :: bytes "op" ++ quote :: ":"%char
          :: appendString op
          ++ (","%char :: quote :: bytes "key" ++ quote :: ":"%char
              :: appendString k ++ tail)).
  set (rest := quote :: bytes "op" ++ _).
  assert (Hfuel : exists f, S (List.length ("{"%char :: rest)) = S (S (S (S f)))).
  { subst rest. cbn [List.length bytes list_ascii_of_string app].
    unfold appendString. cbn [List.length]. eexists. reflexivity. }
  destruct Hfuel as [f ->].
  cbn [skip_ws]. change (isSpace "{") with false. cbv iota.
  change (Ascii.eqb "{" "{") with true. cbv iota.
  unfold parse_object. subst rest.
  cbn [skip_ws]. change (isSpace quote) with false. cbv iota.
  change (Ascii.eqb quote "}") with false. cbv iota.
  rewrite (parse_member _ (bytes "op") (bytes "op") op _ Cop Uop Ho).
  next_member.
  rewrite (parse_member _ (bytes "key") (bytes "key") k _ Ckey Ukey Hk).
  subst tail. destruct (String.length v =? 0)%nat eqn:Ev.
  - destruct v; [|discriminate]. reflexivity.
  - change ((field_prefix "," "value" ++ appendString v) ++ bytes "}")
      with (","%char :: quote :: bytes "value" ++ quote :: ":"%char
            :: appendString v ++ ["}"%char]).
    next_member.
    rewrite (parse_member _ (bytes "value") (bytes "value") v _ Cval Uval Hv).
    reflexivity.
Qed.

End Codec.

(** ** The bounds of the loops are never reached *)

Section Fuel.
Import json.

Lemma skip_ws_length l : List.length (skip_ws l) <= List.length l.
Proof.
  induction l as [|c r IH]; simpl; [lia|]. destruct (isSpace c); simpl; lia.
Qed.

Lemma scan_string_length_le n : forall l raw r,
  List.length l <= n ->
  scan_string l = Some (raw, r) -> List.length r < List.length l.
Proof.
  induction n as [|n IH]; intros l raw r Hn;
    (destruct l as [|c l]; [discriminate|]); simpl in Hn; [lia|].
  cbn [scan_string].
  destruct (Ascii.eqb c quote); [intros [= _ <-]; simpl; lia|].
  destruct (Ascii.eqb c "\").
  - destruct l as [|e r1]; [discriminate|].
    destruct (isSimpleEscape e).
    + destruct (scan_string r1) as [[raw' rest]|] eqn:E; [|discriminate].
      intros [= _ <-]. apply IH in E; simpl in *; lia.
    + destruct (Ascii.eqb e "u"); [|discriminate].
      destruct r1 as [|h1 [|h2 [|h3 [|h4 r2]]]]; try discriminate.
      destruct (isHex h1 && isHex h2 && isHex h3 && isHex h4); [|discriminate].
      destruct (scan_string r2) as [[raw' rest]|] eqn:E; [|discriminate].
      intros [= _ <-]. apply IH in E; simpl in *; lia.
  - destruct (N.ltb (b2n c) 32); [discriminate|].
    destruct (scan_string l) as [[raw' rest]|] eqn:E; [|discriminate].
    intros [= _ <-]. apply IH in E; simpl in *; lia.
Qed.

Lemma scan_string_length l raw r :
  scan_string l = Some (raw, r) -> List.length r < List.length l.
Proof. apply (scan_string_length_le (List.length l)). lia. Qed.

Lemma skip_digits_length l : List.length (skip_digits l) <= List.length l.
Proof.
  induction l as [|c r IH]; simpl; [lia|]. destruct (isDigit c); simpl; lia.
Qed.

Lemma scan_exp_length l r :
  scan_exp l = Some r -> List.length r <= List.length l.
Proof.
  unfold scan_exp. destruct l as [|c l]; [intros [= <-]; lia|].
  destruct (_ || _)%bool; [|intros [= <-]; lia].
  destruct l as [|sgn l']; [discriminate|].
  destruct (_ || _)%bool.
  - destruct l' as [|d r2]; [discriminate|].
    destruct (isDigit d); [|discriminate]. intros [= <-].
    pose proof (skip_digits_length r2). simpl. lia.
  - destruct (isDigit sgn); [|discriminate]. intros [= <-].
    pose proof (skip_digits_length l'). simpl. lia.
Qed.

Lemma scan_frac_length l r :
  scan_frac l = Some r -> List.length r <= List.length l.
Proof.
  unfold scan_frac. destruct l as [|c l]; [intros [= <-]; lia|].
  destruct (Ascii.eqb c "."); [|apply scan_exp_length].
  destruct l as [|d r1]; [discriminate|].
  destruct (isDigit d); [|discriminate]. intros H%scan_exp_length.
  pose proof (skip_digits_length r1). simpl. lia.
Qed.

Lemma scan_number_length l r :
  scan_number l = Some r -> List.length r < List.length l.
Proof.
  unfold scan_number. intros H.
  assert (Haux : forall l1 r, match l1 with
             | c :: r0 => if Ascii.eqb c "0" then scan_frac r0
                          else if isDigit c then scan_frac (skip_digits r0)
                          else None
             | [] => None end = Some r -> List.length r < List.length l1).
  { intros [|c r0] r'; [discriminate|].
    destruct (Ascii.eqb c "0"); [intros E%scan_frac_length; simpl; lia|].
    destruct (isDigit c); [|discriminate]. intros E%scan_frac_length.
    pose proof (skip_digits_length r0). simpl. lia. }
  destruct l as [|c l]; [discriminate|].
  destruct (Ascii.eqb c "-").
  - apply (Haux l) in H. simpl. lia.
  - now apply (Haux (c :: l)) in H.
Qed.

Lemma strip_prefix_length pre : forall l r,
  strip_prefix pre l = Some r -> List.length r <= List.length l.
Proof.
  induction pre as [|p pre IH]; intros l r; simpl; [intros [= <-]; lia|].
  destruct l as [|c l]; [discriminate|].
  destruct (Ascii.eqb p c); [|discriminate]. intros H%IH. simpl. lia.
Qed.

(** With more fuel than input, the parser never reaches its bound, and
    each of its three functions consumes input. *)
Lemma parse_fuel f : forall l,
  List.length l < f ->
  fuel_ok l (parse_value f l) /\ fuel_ok l (parse_members f l)
  /\ (match skip_ws l with
      | c :: r => (Ascii.eqb c "," || Ascii.eqb c "]")%bool = true
      | [] => True
      end -> fuel_ok l (parse_elems f l)).
Proof.
  induction f as [|f IH]; intros l Hl; [lia|].
  assert (IHv : forall l', List.length l' < f -> fuel_ok l' (parse_value f l'))
    by (intros; now apply IH).
  assert (IHm : forall l', List.length l' < f -> fuel_ok l' (parse_members f l'))
    by (intros; now apply IH).
  assert (IHe : forall l', List.length l' < f -> fuel_ok l' (parse_elems f l')).
  { intros l' Hl'. destruct f as [|f']; [lia|].
    destruct (IH l' Hl') as (_ & _ & He).
    destruct (skip_ws l') as [|c r] eqn:E.
    - cbn [parse_elems]. now rewrite E.
    - destruct (Ascii.eqb c "," || Ascii.eqb c "]")%bool eqn:Ec; [now apply He|].
      cbn [parse_elems]. rewrite E. apply orb_false_elim in Ec as [-> ->].
      exact I. }
  clear IH. split; [|split].
  - (* parse_value *)
    cbn [parse_value]. destruct l as [|c r]; [exact I|]. simpl in Hl.
    destruct (Ascii.eqb c "{").
    { pose proof (skip_ws_length r) as Hs.
      destruct (skip_ws r) as [|c' r']; [exact I|]. simpl in Hs.
      destruct (Ascii.eqb c' "}"); [simpl; lia|].
      specialize (IHm (c' :: r') ltac:(simpl; lia)).
      destruct (parse_members f (c' :: r')); simpl in *; auto; lia. }
    destruct (Ascii.eqb c "[").
    { pose proof (skip_ws_length r) as Hs.
      destruct (skip_ws r) as [|c' r']; [exact I|]. simpl in Hs.
      destruct (Ascii.eqb c' "]"); [simpl; lia|].
      specialize (IHv (c' :: r') ltac:(simpl; lia)).
      destruct (parse_value f (c' :: r')) as [v r1| |]; simpl in *; auto.
      specialize (IHe r1 ltac:(lia)).
      destruct (parse_elems f r1); simpl in *; auto; lia. }
    destruct (Ascii.eqb c quote).
    { destruct (scan_string r) as [[raw r']|] eqn:E; [|exact I].
      apply scan_string_length in E.
      destruct (unquoteBytes raw); simpl; auto; lia. }
    destruct (Ascii.eqb c "t").
    { destruct (strip_prefix _ r) eqn:E; [|exact I].
      apply strip_prefix_length in E. simpl. lia. }
    destruct (Ascii.eqb c "f").
    { destruct (strip_prefix _ r) eqn:E; [|exact I].
      apply strip_prefix_length in E. simpl. lia. }
    destruct (Ascii.eqb c "n").
    { destruct (strip_prefix _ r) eqn:E; [|exact I].
      apply strip_prefix_length in E. simpl. lia. }
    destruct (scan_number (c :: r)) eqn:E; [|exact I].
    apply scan_number_length in E. simpl in *. lia.
  - (* parse_members *)
    cbn [parse_members]. destruct l as [|c r]; [exact I|]. simpl in Hl.
    destruct (Ascii.eqb c quote); [|exact I].
    destruct (scan_string r) as [[raw r1]|] eqn:E; [|exact I].
    apply scan_string_length in E.
    destruct (unquoteBytes raw); [|exact I].
    pose proof (skip_ws_length r1) as Hs1.
    destruct (skip_ws r1) as [|c2 r2]; [exact I|]. simpl in Hs1.
    destruct (Ascii.eqb c2 ":"); [|exact I].
    pose proof (skip_ws_length r2) as Hs2.
    specialize (IHv (skip_ws r2) ltac:(lia)).
    destruct (parse_value f (skip_ws r2)) as [v r3| |]; simpl in IHv; auto.
    pose proof (skip_ws_length r3) as Hs3.
    destruct (skip_ws r3) as [|c4 r4]; [exact I|]. simpl in Hs3.
    destruct (Ascii.eqb c4 ",").
    { pose proof (skip_ws_length r4) as Hs4.
      specialize (IHm (skip_ws r4) ltac:(lia)).
      destruct (parse_members f (skip_ws r4)); simpl in *; auto; lia. }
    destruct (Ascii.eqb c4 "}"); simpl; auto; lia.
  - (* parse_elems *)
    cbn [parse_elems]. pose proof (skip_ws_length l) as Hs.
    destruct (skip_ws l) as [|c r]; [intros _; exact I|]. simpl in Hs.
    intros Hc. destruct (Ascii.eqb c ",").
    { pose proof (skip_ws_length r) as Hs2.
      specialize (IHv (skip_ws r) ltac:(lia)).
      destruct (parse_value f (skip_ws r)) as [v r1| |]; simpl in IHv; auto.
      specialize (IHe r1 ltac:(lia)).
      destruct (parse_elems f r1); simpl in *; auto; lia. }
    destruct (Ascii.eqb c "]"); [simpl; lia | discriminate].
Qed.

(** [Unmarshal] never stops for lack of fuel: its errors are errors of
    the input. *)
Lemma Unmarshal_fuel data : Unmarshal data <> Err fuel_exhausted.
Proof.
  unfold Unmarshal. pose proof (skip_ws_length data) as Hs.
  destruct (skip_ws data) as [|c r]; [discriminate|]. simpl in Hs.
  destruct (Ascii.eqb c "{").
  - unfold parse_object. pose proof (skip_ws_length r) as Hs2.
    destruct (skip_ws r) as [|c' r']; [discriminate|]. simpl in Hs2.
    destruct (Ascii.eqb c' "}").
    + destruct (skip_ws r'); [|discriminate].
      cbn. discriminate.
    + destruct (parse_fuel (S (List.length data)) (c' :: r') ltac:(simpl; lia))
        as (_ & Hm & _).
      destruct (parse_members _ (c' :: r')) as [ms rest| |];
        [|discriminate|destruct Hm].
      destruct (skip_ws rest); [|discriminate].
      destruct (store_members ms _ None) as [cmd [e|]] eqn:E; [|discriminate].
      intros [= ->]. revert E. generalize (mkCmd "" "" "").
      assert (Hgen : forall ms c sv c' ,
                 sv <> Some fuel_exhausted ->
                 store_members ms c sv = (c', Some fuel_exhausted) -> False).
      { clear. induction ms as [|[k v] ms IH]; intros c sv c' Hsv; simpl.
        - intros [= _ ->]. now apply Hsv.
        - destruct (find_field k); [|now apply IH].
          destruct v; try (now apply IH);
            (apply IH; destruct sv; [intros [= ->]; now apply Hsv|discriminate]). }
      intros c0 E. eapply Hgen; [|exact E]. discriminate.
  - destruct (parse_fuel (S (List.length data)) (c :: r) ltac:(simpl; lia))
      as (Hv & _).
    destruct (parse_value _ (c :: r)) as [v rest| |];
      [|discriminate|destruct Hv].
    destruct (skip_ws rest); [|discriminate]. destruct v; discriminate.
Qed.

End Fuel.

(** ** The log file *)

Section LogFile.

(** The length written by [appendWAL] is read back by [replayWAL]. *)
Lemma Uint32_PutUint32 n :
  n <= maxWALFrameSize ->
  binary.Uint32 (binary.PutUint32 (binary.uint32 n)) = N.of_nat n.
Proof.
  intros Hn.
  assert (H : forallb (fun n => N.eqb (binary.Uint32 (binary.PutUint32
                (binary.uint32 n))) (N.of_nat n)) (seq 0 (S maxWALFrameSize))
              = true) by (vm_compute; reflexivity).
  rewrite forallb_forall in H. apply N.eqb_eq, H, in_seq. lia.
Qed.

Lemma writeFull_eq w d :
  writeFull w d =
  match d with
  | [] => (None, w)
  | _ :: _ => let '(_, err, w') := os.Write w d in (err, w')
  end.
Proof.
  unfold writeFull. destruct d as [|c d]; [reflexivity|].
  cbn [List.length writeFull_loop]. unfold os.Write.
  destruct (faults w) as [|[|k] fs]; cbn [List.length Nat.eqb tl];
    try reflexivity;
    change (S (List.length d)) with (List.length (c :: d));
    rewrite skipn_all; now destruct (List.length d).
Qed.

(** On a device without faults a write at the end of the file appends. *)
Lemma write_at_end d bs : os.write_at d (List.length d) bs = d ++ bs.
Proof.
  unfold os.write_at. rewrite firstn_all, Nat.sub_diag, skipn_all2 by lia.
  cbn [repeat app]. now rewrite app_nil_r.
Qed.

Lemma read_ok d o n :
  o + n <= List.length d ->
  readFullWithEOFAsBoundary (mkFile d o []) n =
  (firstn n (skipn o d), None, mkFile d (o + n) []).
Proof.
  intros Hn. unfold readFullWithEOFAsBoundary, io.ReadFull.
  destruct (Nat.eqb_spec n 0) as [->|Hn0].
  - now rewrite Nat.add_0_r.
  - cbn [faults data off tl]. rewrite length_skipn.
    destruct (Nat.leb_spec n (List.length d - o)); [reflexivity|lia].
Qed.

Lemma read_eof d o n :
  n <> 0 -> List.length d <= o ->
  readFullWithEOFAsBoundary (mkFile d o []) n =
  ([], Some io_EOF, mkFile d (o + 0) []).
Proof.
  intros Hn Ho. unfold readFullWithEOFAsBoundary, io.ReadFull.
  destruct (Nat.eqb_spec n 0) as [->|_]; [contradiction|].
  cbn [faults data off tl]. rewrite skipn_all2 by lia.
  cbn [List.length]. destruct (Nat.leb_spec n 0); [lia|]. reflexivity.
Qed.

Lemma read_short d o n :
  o < List.length d -> List.length d < o + n ->
  readFullWithEOFAsBoundary (mkFile d o []) n =
  (skipn o d, Some io_ErrUnexpectedEOF,
   mkFile d (o + (List.length d - o)) []).
Proof.
  intros Ho Hn. unfold readFullWithEOFAsBoundary, io.ReadFull.
  destruct (Nat.eqb_spec n 0) as [->|_]; [lia|].
  cbn [faults data off tl].
  pose proof (length_skipn o d) as Hl.
  destruct (Nat.leb_spec n (List.length (skipn o d))); [lia|].
  destruct (skipn o d) as [|c r] eqn:E; [simpl in Hl; lia|].
  rewrite Hl. cbn [errors_Is errors_Is_chain error_eqb orb].
  destruct (Nat.eqb_spec (List.length d - o) 0); [lia|reflexivity].
Qed.

End LogFile.

(** ** Appending to the log *)

Section Append.

Lemma Write_ok f b n f' :
  os.Write f b = (n, None, f') ->
  f' = mkFile (os.write_at (data f) (off f) b) (off f + List.length b)
         (tl (faults f)).
Proof.
  unfold os.Write. destruct (faults f) as [|[|k] fs]; cbn [tl];
    now intros [= _ <-].
Qed.

Lemma writeFull_ok f b f' :
  writeFull f b = (None, f') -> b <> [] ->
  f' = mkFile (os.write_at (data f) (off f) b) (off f + List.length b)
         (tl (faults f)).
Proof.
  rewrite writeFull_eq. destruct b as [|c b]; [congruence|]. intros H _.
  destruct (os.Write f (c :: b)) as [[n err] w'] eqn:E.
  injection H as -> <-. now apply Write_ok in E.
Qed.

Lemma Sync_ok f f' :
  os.Sync f = (None, f') -> f' = mkFile (data f) (off f) (tl (faults f)).
Proof.
  unfold os.Sync. destruct (faults f) as [|[|k] fs]; cbn [tl];
    now intros [= <-].
Qed.

Lemma Marshal_nonempty cmd : fst (json.Marshal cmd) <> [].
Proof. discriminate. Qed.

Lemma Marshal_ok cmd : snd (json.Marshal cmd) = None.
Proof. reflexivity. Qed.

Lemma frame_length cmd :
  List.length (frame cmd) = 4 + List.length (fst (json.Marshal cmd)).
Proof. unfold frame. now rewrite length_app. Qed.

(** A successful append on a handle at the end of the file: the record
    was acceptable and the file grew by its frame. *)
Lemma appendWAL_success s cmd s' :
  appendWAL s cmd = (None, s') ->
  off (logFile s) = List.length (data (logFile s)) ->
  isValidOp (Op cmd) = true
  /\ List.length (fst (json.Marshal cmd)) <= maxWALFrameSize
  /\ tree s' = tree s
  /\ data (logFile s') = data (logFile s) ++ frame cmd
  /\ off (logFile s') = List.length (data (logFile s'))
  /\ faults (logFile s') = tl (tl (tl (faults (logFile s)))).
Proof.
  unfold appendWAL. intros H Hoff.
  destruct (isValidOp (Op cmd)); [|discriminate]. cbn [negb] in H.
  destruct (json.Marshal cmd) as [payload err] eqn:EM.
  assert (Hp : payload = fst (json.Marshal cmd)) by now rewrite EM.
  assert (He : err = None) by (pose proof (Marshal_ok cmd) as M; now rewrite EM in M).
  subst err.
  destruct (Nat.ltb_spec maxWALFrameSize (List.length payload)); [discriminate|].
  destruct (writeFull (logFile s) _) as [[e|] f1] eqn:E1; [discriminate|].
  destruct (writeFull f1 payload) as [[e|] f2] eqn:E2; [discriminate|].
  destruct (os.Sync f2) as [[e|] f3] eqn:E3; [discriminate|].
  injection H as <-.
  apply writeFull_ok in E1; [|discriminate].
  apply writeFull_ok in E2; [|rewrite Hp; apply Marshal_nonempty].
  apply Sync_ok in E3. subst f3 f2 f1. cbn [data off faults tree logFile with_file].
  rewrite Hoff, write_at_end.
  replace (List.length (data (logFile s)) + List.length (binary.PutUint32 _))
    with (List.length (data (logFile s) ++ binary.PutUint32
            (binary.uint32 (List.length payload))))
    by now rewrite length_app.
  rewrite write_at_end. unfold frame. rewrite <- Hp, <- app_assoc.
  cbn [fst]. repeat split; try assumption. rewrite !length_app. lia.
Qed.

(** On a device without faults, an acceptable record is appended. *)
Lemma appendWAL_sound s cmd :
  faults (logFile s) = [] ->
  isValidOp (Op cmd) = true ->
  List.length (fst (json.Marshal cmd)) <= maxWALFrameSize ->
  exists s', appendWAL s cmd = (None, s').
Proof.
  intros Hf Hop Hlen. unfold appendWAL. rewrite Hop. cbn [negb].
  destruct (json.Marshal cmd) as [payload err] eqn:EM.
  assert (He : err = None) by (pose proof (Marshal_ok cmd) as M; now rewrite EM in M).
  assert (Hp : payload <> [])
    by (pose proof (Marshal_nonempty cmd) as M; now rewrite EM in M).
  subst err. cbn [fst] in Hlen.
  destruct (Nat.ltb_spec maxWALFrameSize (List.length payload)); [lia|].
  rewrite !writeFull_eq. cbn [binary.PutUint32].
  unfold os.Write at 1. rewrite Hf.
  destruct payload as [|c p]; [congruence|].
  cbn [tl]. rewrite writeFull_eq.
  unfold os.Write, os.Sync. cbn [faults tl]. eauto.
Qed.

(** On a device without faults, a failing append writes nothing. *)
Lemma appendWAL_sound_failure s cmd e s' :
  faults (logFile s) = [] -> appendWAL s cmd = (Some e, s') -> s' = s.
Proof.
  intros Hf. unfold appendWAL.
  destruct (negb (isValidOp (Op cmd))); [now intros [= _ <-]|].
  destruct (json.Marshal cmd) as [payload err] eqn:EM.
  assert (He : err = None) by (pose proof (Marshal_ok cmd) as M; now rewrite EM in M).
  assert (Hp : payload <> [])
    by (pose proof (Marshal_nonempty cmd) as M; now rewrite EM in M).
  subst err.
  destruct (Nat.ltb maxWALFrameSize (List.length payload)); [now intros [= _ <-]|].
  rewrite !writeFull_eq. cbn [binary.PutUint32].
  unfold os.Write at 1. rewrite Hf.
  destruct payload as [|c p]; [congruence|].
  cbn [tl]. rewrite writeFull_eq.
  unfold os.Write, os.Sync. cbn [faults tl]. discriminate.
Qed.

End Append.

(** ** Replaying the log *)

Section Replay.

Lemma applyCommand_eq s cmd :
  applyCommand s cmd = mkServer (apply_index (tree s) cmd) (logFile s).
Proof.
  unfold apply_index, applyCommand. cbn [tree logFile].
  destruct (_ || _); [reflexivity|].
  destruct (String.eqb (Op cmd) "delete"); [reflexivity|]. now destruct s.
Qed.

(** The replay applies the records it decodes, in order. *)
Lemma replayWAL_loop_records fuel : forall s,
  replayWAL_loop fuel s =
  let '(err, cmds, f') := wal_records_loop fuel (logFile s) in
  (err, mkServer (fold_left apply_index cmds (tree s)) f').
Proof.
  induction fuel as [|fuel IH]; intros s; [now destruct s|].
  cbn [replayWAL_loop wal_records_loop].
  destruct (readFullWithEOFAsBoundary (logFile s) 4) as [[lenBuf err] f1].
  destruct (errors_Is err io_EOF); [reflexivity|].
  destruct (errors_Is err io_ErrUnexpectedEOF); [reflexivity|].
  destruct err as [e|]; [reflexivity|].
  destruct (N.ltb _ _); [reflexivity|].
  destruct (readFullWithEOFAsBoundary f1 _) as [[payload err] f2].
  destruct (errors_Is err io_ErrUnexpectedEOF); [reflexivity|].
  destruct err as [e|]; [reflexivity|].
  destruct (decodeCommand payload) as [cmd|e]; [|reflexivity].
  rewrite IH, applyCommand_eq. cbn [logFile tree with_file].
  now destruct (wal_records_loop fuel f2) as [[err' cmds] f3].
Qed.

(** What a read leaves of the file. *)
Lemma read_result f n :
  let '(buf, err, f') := readFullWithEOFAsBoundary f n in
  data f' = data f
  /\ (faults f = [] -> faults f' = [])
  /\ (err = None ->
      off f' = off f + n /\ (n <> 0 -> off f + n <= List.length (data f))).
Proof.
  unfold readFullWithEOFAsBoundary, io.ReadFull.
  destruct (Nat.eqb_spec n 0) as [->|Hn].
  { repeat split; auto; lia. }
  destruct (faults f) as [|[|k] fs] eqn:Ef; cbn [tl].
  - pose proof (length_skipn (off f) (data f)) as Hl.
    destruct (Nat.leb_spec n (List.length (skipn (off f) (data f)))).
    + cbn [data off faults]. repeat split; auto; lia.
    + destruct (skipn (off f) (data f));
        cbn [errors_Is errors_Is_chain error_eqb orb List.length Nat.eqb
             data off faults];
        repeat split; auto; discriminate.
  - pose proof (length_skipn (off f) (data f)) as Hl.
    destruct (Nat.leb_spec n (List.length (skipn (off f) (data f)))).
    + cbn [data off faults]. repeat split; auto; try discriminate; lia.
    + destruct (skipn (off f) (data f));
        cbn [errors_Is errors_Is_chain error_eqb orb List.length Nat.eqb
             data off faults];
        repeat split; auto; discriminate.
  - cbn [errors_Is errors_Is_chain error_eqb orb data off faults].
    repeat split; auto; discriminate.
Qed.

Lemma decodeCommand_error payload e :
  decodeCommand payload = Err e -> e <> fuel_exhausted.
Proof.
  unfold decodeCommand. destruct (json.Unmarshal payload) as [cmd|e'].
  - destruct (negb _); [|discriminate]. intros [= <-]. discriminate.
  - intros [= <-]. discriminate.
Qed.

(** The loop ends before its bound, and leaves the contents of the file
    as they are. *)
Lemma wal_records_loop_fuel fuel : forall f,
  List.length (data f) - off f < fuel ->
  let '(err, _, f') := wal_records_loop fuel f in
  err <> Some fuel_exhausted /\ data f' = data f
  /\ (faults f = [] -> faults f' = []).
Proof.
  induction fuel as [|fuel IH]; intros f Hf; [lia|].
  cbn [wal_records_loop].
  pose proof (read_result f 4) as R1.
  destruct (readFullWithEOFAsBoundary f 4) as [[lenBuf err] f1].
  destruct R1 as (D1 & F1 & O1).
  destruct (errors_Is err io_EOF); [repeat split; auto; discriminate|].
  destruct (errors_Is err io_ErrUnexpectedEOF);
    [repeat split; auto; discriminate|].
  destruct err as [e|]; [repeat split; auto; discriminate|].
  destruct (O1 eq_refl) as [Ho1 Hb1]. specialize (Hb1 ltac:(lia)).
  destruct (N.ltb _ _); [repeat split; auto; discriminate|].
  pose proof (read_result f1 (N.to_nat (binary.Uint32 lenBuf))) as R2.
  destruct (readFullWithEOFAsBoundary f1 _) as [[payload err] f2].
  destruct R2 as (D2 & F2 & O2).
  destruct (errors_Is err io_ErrUnexpectedEOF);
    [repeat split; auto; try discriminate; congruence|].
  destruct err as [e|]; [repeat split; auto; try discriminate; congruence|].
  destruct (O2 eq_refl) as [Ho2 _].
  destruct (decodeCommand payload) as [cmd|e] eqn:Ed.
  - specialize (IH f2 ltac:(rewrite D2, D1; lia)).
    destruct (wal_records_loop fuel f2) as [[err' cmds] f3].
    destruct IH as (? & ? & ?). repeat split; auto; congruence.
  - apply decodeCommand_error in Ed.
    repeat split; auto; congruence.
Qed.

End Replay.

Section Frames.

Lemma isValidOp_utf8 op : isValidOp op = true -> utf8.ValidString op = true.
Proof.
  unfold isValidOp. intros H.
  apply orb_prop in H as [H|H]; [apply orb_prop in H as [H|H]|];
    apply String.eqb_eq in H; subst; reflexivity.
Qed.

Lemma acceptable_spec cmd :
  acceptable cmd = true ->
  isValidOp (Op cmd) = true
  /\ utf8.ValidString (Key cmd) = true /\ utf8.ValidString (Value cmd) = true
  /\ List.length (fst (json.Marshal cmd)) <= maxWALFrameSize.
Proof.
  unfold acceptable, utf8_record.
  intros [[H1 [H2 H3]%andb_prop]%andb_prop H4%Nat.leb_le]%andb_prop. auto.
Qed.

Lemma decodeCommand_Marshal cmd :
  acceptable cmd = true -> decodeCommand (fst (json.Marshal cmd)) = Ok cmd.
Proof.
  intros (Hop & Hk & Hv & _)%acceptable_spec. unfold decodeCommand.
  rewrite Unmarshal_Marshal by auto using isValidOp_utf8.
  now rewrite Hop.
Qed.

Lemma skipn_app_exact {A} (l1 l2 : list A) :
  skipn (List.length l1) (l1 ++ l2) = l2.
Proof. now rewrite skipn_app, skipn_all, Nat.sub_diag. Qed.

Lemma firstn_app_exact {A} (l1 l2 : list A) :
  firstn (List.length l1) (l1 ++ l2) = l1.
Proof. now rewrite firstn_app, firstn_all, Nat.sub_diag, app_nil_r. Qed.

(** One frame at the handle, on a device without faults. *)
Lemma wal_records_loop_frame fuel pre cmd rest :
  acceptable cmd = true ->
  wal_records_loop (S fuel)
    (mkFile (pre ++ frame cmd ++ rest) (List.length pre) []) =
  let '(err, cmds, f') :=
    wal_records_loop fuel
      (mkFile (pre ++ frame cmd ++ rest) (List.length (pre ++ frame cmd)) [])
  in (err, cmd :: cmds, f').
Proof.
  intros Hacc. pose proof (acceptable_spec _ Hacc) as (_ & _ & _ & Hlen).
  cbn [wal_records_loop].
  set (payload := fst (json.Marshal cmd)) in *.
  set (hdr := binary.PutUint32 (binary.uint32 (List.length payload))).
  assert (Hhdr : List.length hdr = 4) by reflexivity.
  assert (Hframe : frame cmd = hdr ++ payload) by reflexivity.
  rewrite read_ok by (rewrite !length_app, Hframe, length_app; lia).
  rewrite skipn_app_exact, Hframe, <- app_assoc.
  replace (firstn 4 (hdr ++ payload ++ rest)) with hdr by reflexivity.
  cbn [errors_Is]. subst hdr. rewrite Uint32_PutUint32 by assumption.
  destruct (N.ltb_spec (N.of_nat maxWALFrameSize) (N.of_nat (List.length payload)));
    [lia|].
  rewrite Nat2N.id.
  rewrite read_ok
    by (rewrite !length_app; cbn [List.length binary.PutUint32]; lia).
  replace (List.length pre + 4)
    with (List.length (pre ++ binary.PutUint32
            (binary.uint32 (List.length payload))))
    by (rewrite length_app; reflexivity).
  rewrite (app_assoc pre), skipn_app_exact, firstn_app_exact.
  cbn [errors_Is]. subst payload. rewrite decodeCommand_Marshal by assumption.
  rewrite <- length_app, <- !app_assoc. reflexivity.
Qed.

(** The replay of a log made of the frames of acceptable records yields
    these records, in order, each once. *)
Lemma wal_records_loop_frames cmds : forall fuel pre,
  forallb acceptable cmds = true ->
  List.length (List.concat (map frame cmds)) < fuel ->
  exists f',
    wal_records_loop fuel
      (mkFile (pre ++ List.concat (map frame cmds)) (List.length pre) []) =
    (None, cmds, f').
Proof.
  induction cmds as [|cmd cmds IH]; intros fuel pre Hacc Hfuel.
  - destruct fuel as [|fuel]; [lia|]. cbn [map List.concat wal_records_loop].
    rewrite app_nil_r, read_eof by (auto; lia). cbn. eauto.
  - cbn [forallb] in Hacc. apply andb_prop in Hacc as [Ha Hacc].
    cbn [map List.concat] in *. rewrite length_app, frame_length in Hfuel.
    destruct fuel as [|fuel]; [lia|].
    rewrite wal_records_loop_frame by assumption.
    destruct (IH fuel (pre ++ frame cmd) Hacc ltac:(lia)) as [f' Hf'].
    rewrite <- app_assoc in Hf'. rewrite Hf'. eauto.
Qed.

Lemma wal_records_frames cmds :
  forallb acceptable cmds = true ->
  wal_records (List.concat (map frame cmds)) = (None, cmds).
Proof.
  intros Hacc. unfold wal_records.
  destruct (wal_records_loop_frames cmds
              (S (List.length (List.concat (map frame cmds)))) [] Hacc ltac:(lia))
    as [f' Hf'].
  cbn [app List.length] in Hf'. now rewrite Hf'.
Qed.

(** Recovery on a device without faults: the index is the fold of the
    applier over the records of the log, and the handle is at the end. *)
Lemma newKVServer_records d :
  newKVServer (os.OpenFile d []) =
  match wal_records d with
  | (None, cmds) =>
      Ok (mkServer (fold_left apply_index cmds btree.New)
            (mkFile d (List.length d) []))
  | (Some e, _) => Err e
  end.
Proof.
  unfold newKVServer, replayWAL, wal_records, os.OpenFile, os.Seek.
  cbn [logFile faults data off tl with_file tree].
  rewrite replayWAL_loop_records. cbn [logFile tree].
  pose proof (wal_records_loop_fuel (S (List.length d)) (mkFile d 0 [])
                ltac:(cbn; lia)) as Hf.
  destruct (wal_records_loop _ _) as [[err cmds] f'].
  destruct Hf as (_ & Hd & Hfl). cbn [data faults] in Hd, Hfl.
  destruct err as [e|]; [reflexivity|].
  cbn [logFile]. rewrite (Hfl eq_refl), Hd. reflexivity.
Qed.

(** The replay never stops for lack of fuel. *)
Lemma replayWAL_fuel s : fst (replayWAL s) <> Some fuel_exhausted.
Proof.
  unfold replayWAL. destruct (os.Seek (logFile s) false) as [[e|] f0] eqn:E;
    [discriminate|].
  rewrite replayWAL_loop_records. cbn [logFile with_file].
  assert (Hoff : off f0 = 0).
  { unfold os.Seek in E. destruct (faults (logFile s)) as [|[|k] fs];
      try discriminate; injection E as <-; reflexivity. }
  pose proof (wal_records_loop_fuel (S (List.length (data f0))) f0
                ltac:(lia)) as Hf.
  destruct (wal_records_loop _ f0) as [[err cmds] f']. cbn [fst]. tauto.
Qed.

End Frames.

(** ** The server and its log *)

Section ServerLog.

Lemma apply_index_ordered t cmd :
  btree.ordered t = true -> btree.ordered (apply_index t cmd) = true.
Proof.
  intros Hord. unfold apply_index, applyCommand. cbn [tree logFile].
  destruct (_ || _); cbn [tree];
    [now apply ReplaceOrInsert_ordered|].
  destruct (String.eqb _ _); cbn [tree]; [now apply Delete_ordered|assumption].
Qed.

Lemma fold_apply_ordered cmds : forall t,
  btree.ordered t = true ->
  btree.ordered (fold_left apply_index cmds t) = true.
Proof.
  induction cmds as [|c cmds IH]; intros t Ht; [assumption|].
  cbn [fold_left]. now apply IH, apply_index_ordered.
Qed.

Lemma represents_ordered cmds s :
  represents cmds s -> btree.ordered (tree s) = true.
Proof.
  intros (_ & _ & _ & ->). now apply fold_apply_ordered.
Qed.

Lemma represents_consistent cmds s : represents cmds s -> consistent s.
Proof.
  intros (Hd & _ & Hacc & Ht). exists cmds. split; [|assumption].
  rewrite Hd. now apply wal_records_frames.
Qed.

Lemma concat_frames_app cmds cmd :
  List.concat (map frame (cmds ++ [cmd])) =
  List.concat (map frame cmds) ++ frame cmd.
Proof. now rewrite map_app, concat_app; cbn; rewrite app_nil_r. Qed.

(** A successful append of a record with valid UTF-8 strings extends
    the log by the record. *)
Lemma appendWAL_represents cmds s cmd s1 :
  represents cmds s -> utf8_record cmd = true ->
  appendWAL s cmd = (None, s1) ->
  represents (cmds ++ [cmd]) (applyCommand s1 cmd).
Proof.
  intros (Hd & Hoff & Hacc & Ht) Hu Happ.
  destruct (appendWAL_success _ _ _ Happ Hoff)
    as (Hop & Hlen & Ht1 & Hd1 & Hoff1 & _).
  rewrite applyCommand_eq. unfold represents. cbn [logFile tree].
  rewrite Hd1, Hd, concat_frames_app. split; [reflexivity|].
  split; [now rewrite Hoff1, Hd1, Hd|].
  split.
  - rewrite forallb_app, Hacc. cbn [forallb]. unfold acceptable.
    rewrite Hop, Hu. cbn [andb].
    now rewrite (proj2 (Nat.leb_le _ _) Hlen).
  - now rewrite fold_left_app, Ht1, Ht.
Qed.

Lemma utf8_request_record rq cmd :
  utf8_request rq = true -> record_of rq = Some cmd -> utf8_record cmd = true.
Proof.
  destruct rq; cbn [utf8_request record_of]; intros H [= <-];
    unfold utf8_record; cbn [Key Value]; try assumption.
  now rewrite H.
Qed.

(** One acknowledged request. *)
Lemma handle_represents cmds s rq r s' :
  represents cmds s -> utf8_request rq = true ->
  handle s rq = (Ok r, s') ->
  represents (cmds ++ records_of rq) s'.
Proof.
  intros Hrep Hu. unfold records_of.
  destruct rq as [k v|k|k v|k|a b]; cbn [handle record_of].
  - unfold Put.
    destruct (appendWAL s (mkCmd "put" k v)) as [[e|] s1] eqn:E;
      cbn [map_result]; [discriminate|]. intros [= _ <-].
    eapply appendWAL_represents; eauto;
      eapply utf8_request_record; eauto; reflexivity.
  - unfold Get. rewrite app_nil_r.
    destruct (btree.Get _ _); cbn [map_result]; now intros [= _ <-].
  - unfold Swap.
    destruct (appendWAL s (mkCmd "swap" k v)) as [[e|] s1] eqn:E;
      cbn [map_result]; [discriminate|].
    intros H. assert (s' = applyCommand s1 (mkCmd "swap" k v))
      by (destruct (btree.Get _ _); now injection H as _ <-).
    subst s'. eapply appendWAL_represents; eauto;
      eapply utf8_request_record; eauto; reflexivity.
  - unfold Delete.
    destruct (appendWAL s (mkCmd "delete" k "")) as [[e|] s1] eqn:E;
      cbn [map_result]; [discriminate|]. intros [= _ <-].
    eapply appendWAL_represents; eauto;
      eapply utf8_request_record; eauto; reflexivity.
  - unfold Scan. rewrite app_nil_r. cbn [map_result]. now intros [= _ <-].
Qed.

(** A run in which every request is acknowledged. *)
Lemma serve_represents rqs : forall cmds s replies s',
  represents cmds s -> forallb utf8_request rqs = true ->
  serve s rqs = (replies, s') -> forallb is_ok replies = true ->
  represents (cmds ++ flat_map records_of rqs) s'.
Proof.
  induction rqs as [|rq rqs IH]; intros cmds s replies s' Hrep Hu Hs Hok.
  - injection Hs as <- <-. cbn. now rewrite app_nil_r.
  - cbn [serve] in Hs. cbn [forallb] in Hu. apply andb_prop in Hu as [Hu1 Hu].
    destruct (handle s rq) as [r s1] eqn:E1.
    destruct (serve s1 rqs) as [rs s2] eqn:E2.
    injection Hs as <- <-. cbn [forallb] in Hok.
    apply andb_prop in Hok as [Hr Hok].
    destruct r as [r|e]; [|discriminate].
    cbn [flat_map]. rewrite app_assoc.
    eapply IH; eauto. eapply handle_represents; eauto.
Qed.

(** On a device without faults, every request, acknowledged or
    refused, leaves a server that holds the log of its records. *)
Lemma handle_sound cmds s rq :
  represents cmds s -> faults (logFile s) = [] -> utf8_request rq = true ->
  exists cmds',
    represents cmds' (snd (handle s rq))
    /\ faults (logFile (snd (handle s rq))) = [].
Proof.
  intros Hrep Hf Hu.
  destruct (handle s rq) as [[r|e] s'] eqn:E; cbn [snd].
  - exists (cmds ++ records_of rq).
    split; [eapply handle_represents; eauto|].
    destruct Hrep as (_ & Hoff & _).
    destruct rq as [k v|k|k v|k|a b]; cbn [handle] in E.
    + unfold Put in E.
      destruct (appendWAL s _) as [[e|] s1] eqn:Ea; [discriminate|].
      injection E as _ <-. rewrite applyCommand_eq. cbn [logFile].
      destruct (appendWAL_success _ _ _ Ea Hoff) as (_ & _ & _ & _ & _ & ->).
      now rewrite Hf.
    + unfold Get in E. destruct (btree.Get _ _); now injection E as _ <-.
    + unfold Swap in E.
      destruct (appendWAL s _) as [[e|] s1] eqn:Ea; [discriminate|].
      assert (s' = applyCommand s1 (mkCmd "swap" k v))
        by (destruct (btree.Get _ _); now injection E as _ <-).
      subst s'. rewrite applyCommand_eq. cbn [logFile].
      destruct (appendWAL_success _ _ _ Ea Hoff) as (_ & _ & _ & _ & _ & ->).
      now rewrite Hf.
    + unfold Delete in E.
      destruct (appendWAL s _) as [[e|] s1] eqn:Ea; [discriminate|].
      injection E as _ <-. rewrite applyCommand_eq. cbn [logFile].
      destruct (appendWAL_success _ _ _ Ea Hoff) as (_ & _ & _ & _ & _ & ->).
      now rewrite Hf.
    + unfold Scan in E. now injection E as _ <-.
  - exists cmds.
    assert (s' = s); [|subst s'; auto].
    destruct rq as [k v|k|k v|k|a b]; cbn [handle] in E.
    + unfold Put in E.
      destruct (appendWAL s _) as [[e0|] s1] eqn:Ea; [|discriminate].
      injection E as _ <-. eapply appendWAL_sound_failure; eauto.
    + unfold Get in E. destruct (btree.Get _ _); discriminate.
    + unfold Swap in E.
      destruct (appendWAL s _) as [[e0|] s1] eqn:Ea;
        [|destruct (btree.Get _ _); discriminate].
      injection E as _ <-. eapply appendWAL_sound_failure; eauto.
    + unfold Delete in E.
      destruct (appendWAL s _) as [[e0|] s1] eqn:Ea; [|discriminate].
      injection E as _ <-. eapply appendWAL_sound_failure; eauto.
    + unfold Scan in E. discriminate.
Qed.

Lemma serve_sound rqs : forall cmds s,
  represents cmds s -> faults (logFile s) = [] ->
  forallb utf8_request rqs = true ->
  exists cmds', represents cmds' (snd (serve s rqs)).
Proof.
  induction rqs as [|rq rqs IH]; intros cmds s Hrep Hf Hu; [cbn; eauto|].
  cbn [forallb] in Hu. apply andb_prop in Hu as [Hu1 Hu].
  destruct (handle_sound cmds s rq Hrep Hf Hu1) as (cmds1 & Hrep1 & Hf1).
  cbn [serve]. destruct (handle s rq) as [r s1]. cbn [snd] in *.
  destruct (IH cmds1 s1 Hrep1 Hf1 Hu) as [cmds' H'].
  destruct (serve s1 rqs) as [rs s2]. cbn [snd] in *. eauto.
Qed.

End ServerLog.

(** ** What GET returns after a run *)

Section Lookup.

Lemma lookup_put t op k v k' :
  btree.ordered t = true -> (op = "put" \/ op = "swap") ->
  lookup (apply_index t (mkCmd op k v)) k' =
  if String.eqb k k' then Some v else lookup t k'.
Proof.
  intros Hord Hop. unfold lookup, apply_index, applyCommand.
  cbn [Op Key Value tree logFile].
  replace (String.eqb op "put" || String.eqb op "swap") with true
    by (destruct Hop; subst; reflexivity).
  cbn [tree]. rewrite Get_ReplaceOrInsert by assumption.
  now destruct (String.eqb k k').
Qed.

Lemma lookup_delete t k k' :
  btree.ordered t = true ->
  lookup (apply_index t (mkCmd "delete" k "")) k' =
  if String.eqb k k' then None else lookup t k'.
Proof.
  intros Hord. unfold lookup, apply_index, applyCommand.
  cbn [Op Key Value tree logFile String.eqb Ascii.eqb Bool.eqb orb andb].
  rewrite Get_Delete by assumption. now destruct (String.eqb k k').
Qed.

Lemma Get_reply s k : Get s k = (Ok (get_reply (lookup (tree s) k)), s).
Proof.
  unfold Get, lookup. now destruct (btree.Get (tree s) _).
Qed.

(** The effect of one acknowledged request on the stored values. *)
Lemma handle_lookup s rq r s' :
  btree.ordered (tree s) = true -> handle s rq = (Ok r, s') ->
  btree.ordered (tree s') = true
  /\ forall k cur, lookup (tree s) k = cur ->
       lookup (tree s') k = installed cur [rq] k.
Proof.
  intros Hord.
  destruct rq as [k v|k|k v|k|a b]; cbn [handle installed].
  - unfold Put. pose proof (appendWAL_tree s (mkCmd "put" k v)) as Ht.
    destruct (appendWAL s _) as [[e|] s1]; cbn [map_result snd] in *;
      [discriminate|]. intros [= _ <-]. rewrite applyCommand_eq, Ht.
    cbn [tree]. split; [now apply apply_index_ordered|].
    intros k' cur <-. apply lookup_put; auto.
  - unfold Get. intros H.
    assert (s' = s) by (destruct (btree.Get _ _); now injection H as _ <-).
    subst s'. split; [assumption|]. now intros k' cur <-.
  - unfold Swap. pose proof (appendWAL_tree s (mkCmd "swap" k v)) as Ht.
    destruct (appendWAL s _) as [[e|] s1]; cbn [map_result snd] in *;
      [discriminate|]. intros H.
    assert (s' = applyCommand s1 (mkCmd "swap" k v))
      by (destruct (btree.Get _ _); now injection H as _ <-).
    subst s'. rewrite applyCommand_eq, Ht.
    cbn [tree]. split; [now apply apply_index_ordered|].
    intros k' cur <-. apply lookup_put; auto.
  - unfold Delete. pose proof (appendWAL_tree s (mkCmd "delete" k "")) as Ht.
    destruct (appendWAL s _) as [[e|] s1]; cbn [map_result snd] in *;
      [discriminate|]. intros [= _ <-]. rewrite applyCommand_eq, Ht.
    cbn [tree]. split; [now apply apply_index_ordered|].
    intros k' cur <-. apply lookup_delete; auto.
  - unfold Scan. cbn [map_result]. intros [= _ <-].
    split; [assumption|]. now intros k' cur <-.
Qed.

Lemma serve_lookup rqs : forall s replies s',
  btree.ordered (tree s) = true ->
  serve s rqs = (replies, s') -> forallb is_ok replies = true ->
  forall k, lookup (tree s') k = installed (lookup (tree s) k) rqs k.
Proof.
  induction rqs as [|rq rqs IH]; intros s replies s' Hord Hs Hok k.
  - now injection Hs as <- <-.
  - cbn [serve] in Hs.
    destruct (handle s rq) as [r s1] eqn:E1.
    destruct (serve s1 rqs) as [rs s2] eqn:E2.
    injection Hs as <- <-. cbn [forallb] in Hok.
    apply andb_prop in Hok as [Hr Hok].
    destruct r as [r|e]; [|discriminate].
    destruct (handle_lookup _ _ _ _ Hord E1) as [Hord1 Hl].
    rewrite (IH _ _ _ Hord1 E2 Hok k), (Hl k _ eq_refl).
    reflexivity.
Qed.

(** A server started on an empty log holds the empty log. *)
Lemma newKVServer_empty dev s0 :
  newKVServer (os.OpenFile [] dev) = Ok s0 -> represents [] s0.
Proof.
  unfold newKVServer, replayWAL, os.OpenFile, os.Seek.
  cbn [logFile faults data off with_file tree List.length].
  destruct dev as [|[|k0] [|[|k1] [|[|k2] dev]]]; cbn; try discriminate;
    intros [= <-]; repeat split.
Qed.

End Lookup.

(** ** The claims on the log and on recovery *)

Lemma restart_represents cmds s :
  represents cmds s ->
  restart s [] =
  Ok (mkServer (tree s)
        (mkFile (data (logFile s)) (List.length (data (logFile s))) [])).
Proof.
  intros (Hd & _ & Hacc & Ht). unfold restart.
  rewrite newKVServer_records, Hd, wal_records_frames by assumption.
  now rewrite Ht.
Qed.

(** Claim C1, as amended.  Recovery on a sound device rebuilds the index
    as the fold of the applier over the replayed records, from the empty
    index; and after a run of acknowledged requests whose keys and values
    are valid UTF-8, started on an empty log, a restart finds the index
    again: GET k returns the value the acknowledged mutations installed
    last for k, or absence when the last one on k was a DELETE. *)
Theorem recovery_restores_acknowledged (rqs : list request)
    (dev : list io_outcome) (s0 s : kvServer) (replies : list (result reply))
    (Hstart : newKVServer (os.OpenFile [] dev) = Ok s0)
    (Hutf8 : forallb utf8_request rqs = true)
    (Hrun : serve s0 rqs = (replies, s))
    (Hack : forallb is_ok replies = true) :
  (forall d s1, newKVServer (os.OpenFile d []) = Ok s1 ->
     exists cmds, wal_records d = (None, cmds)
                  /\ tree s1 = fold_left apply_index cmds btree.New)
  /\ exists s',
       restart s [] = Ok s'
       /\ tree s' = tree s
       /\ tree s' = fold_left apply_index (flat_map records_of rqs) btree.New
       /\ forall k, Get s' k = (Ok (get_reply (last_value rqs k)), s').
Proof.
  split.
  - intros d s1. rewrite newKVServer_records.
    destruct (wal_records d) as [[e|] cmds]; [discriminate|].
    intros [= <-]. eauto.
  - pose proof (newKVServer_empty _ _ Hstart) as Hrep0.
    pose proof (serve_represents _ _ _ _ _ Hrep0 Hutf8 Hrun Hack) as Hrep.
    cbn [app] in Hrep. eexists. split; [exact (restart_represents _ _ Hrep)|].
    cbn [tree]. split; [reflexivity|]. split; [apply Hrep|].
    intros k. rewrite Get_reply. cbn [tree]. do 2 f_equal.
    rewrite (serve_lookup _ _ _ _ (represents_ordered _ _ Hrep0) Hrun Hack k).
    destruct Hrep0 as (_ & _ & _ & ->). reflexivity.
Qed.

(** Scenario S3: the values after a restart. *)
Lemma recovery_restores_acknowledged_witness :
  exists s',
    restart (snd (serve fresh scenario_S3)) [] = Ok s'
    /\ tree s' = tree (snd (serve fresh scenario_S3))
    /\ tree s' =
       fold_left apply_index (flat_map records_of scenario_S3) btree.New
    /\ forall k, Get s' k = (Ok (get_reply (last_value scenario_S3 k)), s').
Proof.
  apply (recovery_restores_acknowledged scenario_S3 [] fresh
           (snd (serve fresh scenario_S3)) (fst (serve fresh scenario_S3)));
    vm_compute; reflexivity.
Defined.

(** A value that is not valid UTF-8 is acknowledged and, after a restart,
    read back as the replacement character. *)
Lemma non_utf8_value_not_restored :
  newKVServer (os.OpenFile [] []) = Ok fresh
  /\ fst (Put fresh "k" key_ff) = Ok (mkPutReply false)
  /\ last_value [ReqPut "k" key_ff] "k" = Some key_ff
  /\ map_result (fun s' => fst (Get s' "k"))
       (restart (snd (Put fresh "k" key_ff)) [])
     <> Ok (Ok (get_reply (Some key_ff))).
Proof.
  repeat split; try (vm_compute; reflexivity). vm_compute. discriminate.
Qed.

Lemma append_all_log cmds : forall pre s s',
  data (logFile s) = List.concat (map frame pre) ->
  off (logFile s) = List.length (data (logFile s)) ->
  forallb acceptable pre = true ->
  forallb utf8_record cmds = true ->
  append_all s cmds = (None, s') ->
  data (logFile s') = List.concat (map frame (pre ++ cmds))
  /\ forallb acceptable (pre ++ cmds) = true.
Proof.
  induction cmds as [|c cmds IH]; intros pre s s' Hd Hoff Hacc Hu Happ.
  - injection Happ as <-. now rewrite app_nil_r.
  - cbn [append_all] in Happ. cbn [forallb] in Hu.
    apply andb_prop in Hu as [Hu1 Hu].
    destruct (appendWAL s c) as [[e|] s1] eqn:E; [discriminate|].
    destruct (appendWAL_success _ _ _ E Hoff)
      as (Hop & Hlen & _ & Hd1 & Hoff1 & _).
    replace (pre ++ c :: cmds) with ((pre ++ [c]) ++ cmds)
      by now rewrite <- app_assoc.
    apply (IH (pre ++ [c]) s1 s'); auto.
    + now rewrite Hd1, Hd, concat_frames_app.
    + rewrite forallb_app, Hacc. cbn [forallb]. unfold acceptable.
      rewrite Hop, Hu1. cbn [andb]. now rewrite (proj2 (Nat.leb_le _ _) Hlen).
Qed.

(** Claim C2, as amended.  For every sequence of records whose keys and
    values are valid UTF-8, passed to successful appends starting from an
    empty log, the replay yields exactly that sequence, in the order of
    the appends, each record once. *)
Theorem replay_yields_appended (cmds : list walCommand) (t : btree.BTree)
    (dev : list io_outcome) (s' : kvServer)
    (Hutf8 : forallb utf8_record cmds = true)
    (Happ : append_all (mkServer t (os.OpenFile [] dev)) cmds = (None, s')) :
  wal_records (data (logFile s')) = (None, cmds).
Proof.
  destruct (append_all_log cmds [] (mkServer t (os.OpenFile [] dev)) s'
              eq_refl eq_refl eq_refl Hutf8 Happ) as [Hd Hacc].
  cbn [app] in *. rewrite Hd. now apply wal_records_frames.
Qed.

(** The records of scenario S3, appended to an empty log and replayed. *)
Lemma replay_yields_appended_witness :
  wal_records
    (data (logFile (snd (append_all fresh (flat_map records_of scenario_S3)))))
  = (None, flat_map records_of scenario_S3).
Proof.
  apply (replay_yields_appended (flat_map records_of scenario_S3) btree.New []);
    vm_compute; reflexivity.
Defined.

(** The append of a record whose key is the byte [0xFF] succeeds, and the
    replay yields a record with another key. *)
Lemma replay_alters_non_utf8_record :
  fst (append_all fresh [record_ff]) = None
  /\ wal_records (data (logFile (snd (append_all fresh [record_ff]))))
     <> (None, [record_ff]).
Proof.
  split; [vm_compute; reflexivity|]. vm_compute. discriminate.
Qed.

(** Claim C5, as amended.  For every mutation record whose key and value
    are valid UTF-8 (the empty string included), decoding the encoding of
    the record gives the record; and decoding rejects every payload whose
    op field is not one of put, swap, delete. *)
Theorem codec_round_trip (cmd : walCommand)
    (Hop : isValidOp (Op cmd) = true)
    (Hkey : utf8.ValidString (Key cmd) = true)
    (Hvalue : utf8.ValidString (Value cmd) = true) :
  json.Unmarshal (fst (json.Marshal cmd)) = Ok cmd
  /\ decodeCommand (fst (json.Marshal cmd)) = Ok cmd
  /\ (forall payload c,
        json.Unmarshal payload = Ok c -> isValidOp (Op c) = false ->
        decodeCommand payload = Err (Errorf "unknown wal op"))
  /\ (forall payload c, decodeCommand payload = Ok c -> isValidOp (Op c) = true).
Proof.
  assert (H : json.Unmarshal (fst (json.Marshal cmd)) = Ok cmd)
    by (apply Unmarshal_Marshal; auto using isValidOp_utf8).
  split; [exact H|]. split; [|split].
  - unfold decodeCommand. now rewrite H, Hop.
  - intros payload c Hu Hc. unfold decodeCommand. now rewrite Hu, Hc.
  - intros payload c. unfold decodeCommand.
    destruct (json.Unmarshal payload) as [c'|e]; [|discriminate].
    destruct (isValidOp (Op c')) eqn:E; [|discriminate]. now intros [= <-].
Qed.

(** A DELETE record with an empty value and a key with an escape. *)
Lemma codec_round_trip_witness :
  json.Unmarshal (fst (json.Marshal (mkCmd "delete" (String quote "<b") ""))) =
  Ok (mkCmd "delete" (String quote "<b") "").
Proof.
  apply (codec_round_trip (mkCmd "delete" (String quote "<b") "")); reflexivity.
Defined.

(** The encoding of a record whose key is the byte [0xFF] decodes to a
    record with another key. *)
Lemma codec_alters_non_utf8_key :
  isValidOp (Op record_ff) = true
  /\ decodeCommand (fst (json.Marshal record_ff)) <> Ok record_ff.
Proof.
  split; [reflexivity|]. vm_compute. discriminate.
Qed.

(** Recovery on a log made of the frames of acceptable records. *)
Lemma newKVServer_frames cmds :
  forallb acceptable cmds = true ->
  newKVServer (os.OpenFile (List.concat (map frame cmds)) []) =
  Ok (mkServer (fold_left apply_index cmds btree.New)
        (mkFile (List.concat (map frame cmds))
           (List.length (List.concat (map frame cmds))) [])).
Proof.
  intros Hacc. now rewrite newKVServer_records, wal_records_frames.
Qed.

(** A record beyond the bound of a frame is refused before any write. *)
Lemma appendWAL_too_large s cmd :
  isValidOp (Op cmd) = true ->
  maxWALFrameSize < List.length (fst (json.Marshal cmd)) ->
  appendWAL s cmd = (Some (Errorf "wal payload too large"), s).
Proof.
  intros Hop Hl. unfold appendWAL. rewrite Hop. cbn [negb].
  destruct (json.Marshal cmd) as [payload err] eqn:EM.
  assert (He : err = None)
    by (pose proof (Marshal_ok cmd) as M; now rewrite EM in M).
  subst err. cbn [fst] in Hl.
  now destruct (Nat.ltb_spec maxWALFrameSize (List.length payload)); [|lia].
Qed.

(** Claim C7, as amended.  For every key k, on a device without faults,
    in a state with an ordered index and the handle of the log at its
    end.  When the DELETE record of k is within the bound of a frame:
    DELETE k replies found exactly when k was in the index before, and
    removes k; the frame of the DELETE record is appended to the log
    whether or not k was present; a second DELETE k succeeds as well,
    replies found = false and appends the frame again; and for a key that
    is valid UTF-8 the replay of this frame yields the record DELETE k,
    once.  When the record exceeds the bound, DELETE k is refused and
    leaves the index and the log as they were. *)
Theorem delete_twice (s : kvServer) (k : string)
    (Hord : btree.ordered (tree s) = true)
    (Hend : off (logFile s) = List.length (data (logFile s)))
    (Hdev : faults (logFile s) = []) :
  (List.length (fst (json.Marshal (mkCmd "delete" k ""))) <= maxWALFrameSize ->
   exists s1 s2,
     Delete s k =
       (Ok (mkDeleteReply (is_some (btree.Get (tree s) (mkItem k "")))), s1)
     /\ btree.Get (tree s1) (mkItem k "") = None
     /\ data (logFile s1) = data (logFile s) ++ frame (mkCmd "delete" k "")
     /\ Delete s1 k = (Ok (mkDeleteReply false), s2)
     /\ data (logFile s2) = data (logFile s1) ++ frame (mkCmd "delete" k "")
     /\ (utf8.ValidString k = true ->
         wal_records (frame (mkCmd "delete" k "")) =
         (None, [mkCmd "delete" k ""])))
  /\ (maxWALFrameSize < List.length (fst (json.Marshal (mkCmd "delete" k ""))) ->
      Delete s k = (Err (Errorf "wal payload too large"), s)).
Proof.
  split; [intros Hfit|intros Hbig].
  2: { unfold Delete. now rewrite appendWAL_too_large. }
  destruct (appendWAL_sound s (mkCmd "delete" k "") Hdev eq_refl Hfit)
    as [a1 Ha1].
  destruct (appendWAL_success _ _ _ Ha1 Hend)
    as (_ & _ & Ht1 & Hd1 & Hoff1 & Hf1).
  rewrite Hdev in Hf1. cbn [tl] in Hf1.
  destruct (appendWAL_sound (applyCommand a1 (mkCmd "delete" k ""))
              (mkCmd "delete" k "")) as [a2 Ha2];
    [now rewrite applyCommand_eq | reflexivity | assumption |].
  assert (Hget : btree.Get (tree (applyCommand a1 (mkCmd "delete" k "")))
                   (mkItem k "") = None).
  { rewrite applyCommand_eq. cbn [tree]. rewrite Ht1.
    unfold apply_index, applyCommand.
    cbn [Op Key Value tree logFile String.eqb Ascii.eqb Bool.eqb orb andb].
    rewrite Get_Delete by assumption. now rewrite String.eqb_refl. }
  exists (applyCommand a1 (mkCmd "delete" k "")),
         (applyCommand a2 (mkCmd "delete" k "")).
  split; [unfold Delete; now rewrite Ha1|].
  split; [exact Hget|].
  split; [now rewrite applyCommand_eq|].
  split; [unfold Delete; now rewrite Ha2, Hget|].
  split.
  - destruct (appendWAL_success _ _ _ Ha2) as (_ & _ & _ & Hd2 & _).
    { now rewrite applyCommand_eq. }
    now rewrite (applyCommand_eq a2).
  - intros Hk.
    pose proof (wal_records_frames [mkCmd "delete" k ""]) as H.
    cbn [map List.concat] in H. rewrite app_nil_r in H. apply H.
    cbn [forallb]. unfold acceptable, utf8_record. cbn [Op Key Value].
    rewrite Hk. apply Nat.leb_le in Hfit. now rewrite Hfit.
Qed.

(** Two DELETEs of a stored key. *)
Lemma delete_twice_witness :
  exists s1 s2,
    Delete (snd (Put fresh "a" "1")) "a" = (Ok (mkDeleteReply true), s1)
    /\ btree.Get (tree s1) (mkItem "a" "") = None
    /\ Delete s1 "a" = (Ok (mkDeleteReply false), s2)
    /\ wal_records (frame (mkCmd "delete" "a" "")) =
       (None, [mkCmd "delete" "a" ""]).
Proof.
  destruct (delete_twice (snd (Put fresh "a" "1")) "a") as [H _];
    [reflexivity | reflexivity | reflexivity |].
  destruct H as (s1 & s2 & H1 & H2 & _ & H3 & _ & H4); [vm_compute; lia|].
  exists s1, s2. split; [exact H1|]. split; [exact H2|].
  split; [exact H3|]. apply H4. reflexivity.
Defined.

(** A stored key whose DELETE record exceeds the bound of a frame: on a
    device without faults the PUT of [key_1003] with an empty value is
    acknowledged, the DELETE that follows is refused, and the key stays in
    the index. *)
Lemma delete_beyond_frame_bound :
  faults (logFile fresh) = []
  /\ Put fresh key_1003 "" = (Ok (mkPutReply false), snd (Put fresh key_1003 ""))
  /\ Delete (snd (Put fresh key_1003 "")) key_1003 =
     (Err (Errorf "wal payload too large"), snd (Put fresh key_1003 ""))
  /\ fst (Get (snd (Put fresh key_1003 "")) key_1003) = Ok (mkGetReply true "").
Proof. repeat split; vm_compute; reflexivity. Qed.

Lemma forallb_firstn {A} (f : A -> bool) n l :
  forallb f l = true -> forallb f (firstn n l) = true.
Proof.
  revert n. induction l as [|x l IH]; intros [|n] H; cbn in *; auto.
  apply andb_prop in H as [-> H]. cbn. auto.
Qed.

Section ReplyBoundaries.

Lemma utf8_mutation_cases rq :
  utf8_mutation rq = true -> utf8_request rq = true \/ records_of rq = [].
Proof.
  unfold utf8_mutation, utf8_record, records_of.
  destruct rq as [k v|k|k v|k|a b]; cbn [record_of utf8_request Key Value]; auto.
  intros [H _]%andb_prop. auto.
Qed.

(** GET and SCAN leave the server as it is. *)
Lemma handle_read s rq : records_of rq = [] -> snd (handle s rq) = s.
Proof.
  destruct rq as [k v|k|k v|k|a b]; try discriminate; intros _; cbn [handle].
  - unfold Get. now destruct (btree.Get _ _).
  - reflexivity.
Qed.

(** On a device without faults, every request whose record is valid
    UTF-8, acknowledged or refused, leaves a server that holds the log
    of its records. *)
Lemma handle_sound_mutation cmds s rq :
  represents cmds s -> faults (logFile s) = [] -> utf8_mutation rq = true ->
  exists cmds',
    represents cmds' (snd (handle s rq))
    /\ faults (logFile (snd (handle s rq))) = [].
Proof.
  intros Hrep Hf [Hu|Hr]%utf8_mutation_cases.
  - now apply (handle_sound cmds).
  - rewrite (handle_read _ _ Hr). eauto.
Qed.

Lemma serve_sound_mutation rqs : forall cmds s,
  represents cmds s -> faults (logFile s) = [] ->
  forallb utf8_mutation rqs = true ->
  exists cmds', represents cmds' (snd (serve s rqs)).
Proof.
  induction rqs as [|rq rqs IH]; intros cmds s Hrep Hf Hu; [cbn; eauto|].
  cbn [forallb] in Hu. apply andb_prop in Hu as [Hu1 Hu].
  destruct (handle_sound_mutation cmds s rq Hrep Hf Hu1) as (cmds1 & Hrep1 & Hf1).
  cbn [serve]. destruct (handle s rq) as [r s1]. cbn [snd] in *.
  destruct (IH cmds1 s1 Hrep1 Hf1 Hu) as [cmds' H'].
  destruct (serve s1 rqs) as [rs s2]. cbn [snd] in *. eauto.
Qed.

End ReplyBoundaries.

(** Claim C8, as amended.  For a server started, on a device without
    faults, on a log that consists of the frames of records with a known
    opcode, a key and a value that are valid UTF-8 and a payload within
    the bound of a frame (the empty log is one), and for requests whose
    PUT, SWAP and DELETE carry keys and values that are valid UTF-8, the
    index and the log are consistent at every reply boundary, after a
    success reply as after an error reply: the replay of the log succeeds
    and the index is the fold of the applier over its records, from the
    empty index. *)
Theorem index_and_log_consistent (cmds : list walCommand) (s0 : kvServer)
    (rqs : list request)
    (Hlog : forallb acceptable cmds = true)
    (Hstart : newKVServer (os.OpenFile (List.concat (map frame cmds)) [])
              = Ok s0)
    (Hutf8 : forallb utf8_mutation rqs = true) :
  forall n, consistent (snd (serve s0 (firstn n rqs))).
Proof.
  intros n. rewrite newKVServer_frames in Hstart by assumption.
  injection Hstart as <-.
  destruct (serve_sound_mutation (firstn n rqs) cmds
              (mkServer (fold_left apply_index cmds btree.New)
                 (mkFile (List.concat (map frame cmds))
                    (List.length (List.concat (map frame cmds))) [])))
    as [cmds' H'].
  - repeat split; auto.
  - reflexivity.
  - now apply forallb_firstn.
  - eapply represents_consistent; eauto.
Qed.

(** Scenario S3 after a PUT that the frame bound refuses and a GET of a
    key that is not valid UTF-8, on a server started on an empty log. *)
Lemma index_and_log_consistent_witness :
  consistent
    (snd (serve fresh
            (ReqPut "big" big_value :: ReqGet key_ff :: scenario_S3))).
Proof.
  apply (index_and_log_consistent [] fresh
           (ReqPut "big" big_value :: ReqGet key_ff :: scenario_S3)
           eq_refl eq_refl ltac:(vm_compute; reflexivity) 10).
Defined.

(** After a PUT whose sync fails the log holds a record that the index
    does not; after a PUT of a key that is not valid UTF-8 the log holds
    another key than the index; and after a PUT on the server started on
    the log of scenario S5 the log cannot be replayed. *)
Lemma log_ahead_of_index :
  (exists e s, Put failing_sync "a" "1" = (Err e, s) /\ ~ consistent s)
  /\ (exists s, Put fresh key_ff "1" = (Ok (mkPutReply false), s)
                /\ ~ consistent s)
  /\ (exists s, newKVServer (os.OpenFile log_S5 []) = Ok server_S5
                /\ Put server_S5 "y" "2" = (Ok (mkPutReply false), s)
                /\ ~ consistent s).
Proof.
  split; [|split].
  - eexists _, _. split; [vm_compute; reflexivity|].
    intros (cmds & H1 & H2). vm_compute in H1. injection H1 as <-.
    vm_compute in H2. discriminate.
  - eexists. split; [vm_compute; reflexivity|].
    intros (cmds & H1 & H2). vm_compute in H1. injection H1 as <-.
    vm_compute in H2. discriminate.
  - eexists. split; [vm_compute; reflexivity|].
    split; [vm_compute; reflexivity|].
    intros (cmds & H1 & _). vm_compute in H1. discriminate.
Qed.

Section SameReplies.

Context {codec : sqlite.ProtoCodec}.

(** On a device without faults an append leaves the device without
    faults. *)
Lemma appendWAL_sound_faults s cmd :
  faults (logFile s) = [] -> faults (logFile (snd (appendWAL s cmd))) = [].
Proof.
  intros Hf. unfold appendWAL.
  destruct (negb (isValidOp (Op cmd))); [exact Hf|].
  destruct (json.Marshal cmd) as [payload err] eqn:EM.
  assert (He : err = None) by (pose proof (Marshal_ok cmd) as M; now rewrite EM in M).
  assert (Hp : payload <> [])
    by (pose proof (Marshal_nonempty cmd) as M; now rewrite EM in M).
  subst err.
  destruct (Nat.ltb maxWALFrameSize (List.length payload)); [exact Hf|].
  rewrite !writeFull_eq. cbn [binary.PutUint32].
  unfold os.Write at 1. rewrite Hf.
  destruct payload as [|c p]; [congruence|].
  cbn [tl]. rewrite writeFull_eq.
  unfold os.Write, os.Sync. cbn [faults tl]. reflexivity.
Qed.

(** On a device without faults the file-backed server acknowledges
    every request whose record is within the bound of a frame. *)
Lemma handle_fits s rq :
  faults (logFile s) = [] -> fits_frame rq = true ->
  is_ok (fst (handle s rq)) = true
  /\ faults (logFile (snd (handle s rq))) = [].
Proof.
  intros Hf Hfit.
  assert (Hmut : forall cmd, record_of rq = Some cmd -> isValidOp (Op cmd) = true ->
            exists s1, appendWAL s cmd = (None, s1)
                       /\ faults (logFile s1) = []).
  { intros cmd Hrec Hop. unfold fits_frame in Hfit. rewrite Hrec in Hfit.
    apply Nat.leb_le in Hfit.
    destruct (appendWAL_sound s cmd Hf Hop Hfit) as [s1 Hs1].
    exists s1. split; [exact Hs1|].
    pose proof (appendWAL_sound_faults s cmd Hf) as H. now rewrite Hs1 in H. }
  destruct rq as [k v|k|k v|k|a b]; cbn [handle].
  - destruct (Hmut _ eq_refl eq_refl) as (s1 & Ha & Hf1).
    unfold Put. rewrite Ha, applyCommand_eq. auto.
  - unfold Get. destruct (btree.Get _ _); auto.
  - destruct (Hmut _ eq_refl eq_refl) as (s1 & Ha & Hf1).
    unfold Swap. rewrite Ha, applyCommand_eq. destruct (btree.Get _ _); auto.
  - destruct (Hmut _ eq_refl eq_refl) as (s1 & Ha & Hf1).
    unfold Delete. rewrite Ha, applyCommand_eq. auto.
  - auto.
Qed.

Lemma sqlite_applyCommand_db sd cmd :
  sqlite.db (sqlite.applyCommand sd cmd) = sqlite.db sd.
Proof. unfold sqlite.applyCommand. now destruct (sqlite.Op cmd). Qed.

(** On a database without faults the SQLite-backed server acknowledges
    every request whose record the codec encodes. *)
Lemma sqlite_handle_encodes sd rq :
  sqlite.db_faults (sqlite.db sd) = [] ->
  forallb (db_encodes codec) (db_records_of rq) = true ->
  is_ok (fst (sqlite.handle sd rq)) = true
  /\ sqlite.db_faults (sqlite.db (snd (sqlite.handle sd rq))) = [].
Proof.
  intros Hf Henc.
  assert (Hmut : forall cmd, db_records_of rq = [cmd] ->
            sqlite.isValidOp (sqlite.Op cmd) = true ->
            exists sd1, sqlite.appendLog sd cmd = (None, sd1)
                        /\ sqlite.db_faults (sqlite.db sd1) = []).
  { intros cmd Hrec Hop. rewrite Hrec in Henc. cbn [forallb] in Henc.
    apply andb_prop in Henc as [Henc _]. unfold db_encodes in Henc.
    unfold sqlite.appendLog, sqlite.Exec_insert. rewrite Hop, Hf. cbn [negb].
    destruct (sqlite.proto_Marshal cmd) as [p|e]; [|discriminate].
    eexists. split; reflexivity. }
  destruct rq as [k v|k|k v|k|a b]; cbn [sqlite.handle].
  - destruct (Hmut _ eq_refl eq_refl) as (s1 & Ha & Hf1).
    unfold sqlite.Put. rewrite Ha. cbn [fst snd map_result is_ok].
    now rewrite sqlite_applyCommand_db.
  - unfold sqlite.Get. destruct (btree.Get _ _); auto.
  - destruct (Hmut _ eq_refl eq_refl) as (s1 & Ha & Hf1).
    unfold sqlite.Swap. rewrite Ha.
    destruct (btree.Get _ _); cbn [fst snd map_result is_ok];
      now rewrite sqlite_applyCommand_db.
  - destruct (Hmut _ eq_refl eq_refl) as (s1 & Ha & Hf1).
    unfold sqlite.Delete. rewrite Ha. cbn [fst snd map_result is_ok].
    now rewrite sqlite_applyCommand_db.
  - auto.
Qed.

End SameReplies.

(** Claim C9, as amended.  On every sequence of PUT, GET, SWAP, DELETE
    and SCAN requests in which the record of every PUT, SWAP and DELETE
    is within the bound of a frame of the file-backed log, on a file and
    a database that do not fail and with a codec that encodes every
    record, the file-backed server and the SQLite-backed server, started
    with the same index, answer every request without an error and give
    the same sequence of replies: the same found flags, values, old
    values and scan pairs. *)
Theorem backends_same_replies (codec : sqlite.ProtoCodec)
    (rqs : list request) (s : kvServer) (sd : sqlite.kvServer)
    (Hindex : tree s = sqlite.tree sd)
    (Hfile : faults (logFile s) = [])
    (Hdb : sqlite.db_faults (sqlite.db sd) = [])
    (Hfit : forallb fits_frame rqs = true)
    (Hcodec : forallb (db_encodes codec) (flat_map db_records_of rqs) = true) :
  fst (serve s rqs) = fst (sqlite.serve sd rqs)
  /\ forallb is_ok (fst (serve s rqs)) = true.
Proof.
  revert s sd Hindex Hfile Hdb Hfit Hcodec.
  induction rqs as [|rq rest IH]; intros s sd Hindex Hfile Hdb Hfit Hcodec;
    [split; reflexivity|].
  cbn [forallb flat_map] in Hfit, Hcodec.
  apply andb_prop in Hfit as [Hfit1 Hfit].
  rewrite forallb_app in Hcodec. apply andb_prop in Hcodec as [Hc1 Hcodec].
  destruct (handle_fits s rq Hfile Hfit1) as [Hok1 Hf1].
  destruct (sqlite_handle_encodes sd rq Hdb Hc1) as [Hok2 Hf2].
  cbn [serve sqlite.serve].
  destruct (handle s rq) as [r s1] eqn:E1.
  destruct (sqlite.handle sd rq) as [r' sd1] eqn:E2.
  cbn [fst snd] in *.
  destruct r as [r|e]; [|discriminate]. destruct r' as [r'|e]; [|discriminate].
  destruct (handle_same_reply _ _ _ _ _ _ _ Hindex E1 E2) as [-> Ht].
  destruct (IH s1 sd1 Ht Hf1 Hf2 Hfit Hcodec) as [IH1 IH2].
  destruct (serve s1 rest) as [rs s2].
  destruct (sqlite.serve sd1 rest) as [rs' sd2].
  cbn [fst forallb is_ok] in *. split; [now f_equal|exact IH2].
Qed.

(** Scenario S1 on both servers, each started on an empty log. *)
Lemma backends_same_replies_witness :
  fst (serve fresh scenario_S1) =
  fst (@sqlite.serve sqlite.sample_codec sqlite.fresh scenario_S1).
Proof.
  apply (backends_same_replies sqlite.sample_codec scenario_S1 fresh
           sqlite.fresh); vm_compute; reflexivity.
Defined.

(** A PUT of a value of 2000 bytes, on a file and a database without
    faults: the file-backed server refuses it for the bound of a frame;
    the SQLite-backed server, whose table has no such bound, acknowledges
    it whenever the codec encodes the record. *)
Lemma backends_differ_beyond_frame_bound :
  faults (logFile fresh) = []
  /\ sqlite.db_faults (sqlite.db sqlite.fresh) = []
  /\ fst (serve fresh [ReqPut "big" big_value]) =
     [Err (Errorf "wal payload too large")]
  /\ (forall codec : sqlite.ProtoCodec,
        db_encodes codec
          (sqlite.mkWALCommand sqlite.WALCommand_OP_PUT "big" big_value) = true ->
        fst (@sqlite.serve codec sqlite.fresh [ReqPut "big" big_value]) =
        [Ok (RepPut (mkPutReply false))])
  /\ fst (serve fresh [ReqPut "big" big_value]) <>
     fst (@sqlite.serve sqlite.sample_codec sqlite.fresh
            [ReqPut "big" big_value]).
Proof.
  split; [reflexivity|]. split; [reflexivity|].
  split; [vm_compute; reflexivity|]. split.
  - intros codec Henc. unfold db_encodes in Henc.
    cbn [sqlite.serve sqlite.handle]. unfold sqlite.Put, sqlite.appendLog.
    cbn [sqlite.isValidOp sqlite.Op negb].
    destruct (sqlite.proto_Marshal _) as [p|e]; [|discriminate].
    reflexivity.
  - vm_compute. discriminate.
Qed.

(** Claim C4, on the code as it is.  In scenario S5 the recovery
    succeeds with the record of the well-formed frame and the next PUT is
    acknowledged, but it is written behind the partial frame: the restart
    after it fails on the bytes of the partial frame and the record is not
    recovered.  A log that ends right after a length prefix is not
    recovered at all. *)
Theorem partial_frame_breaks_later_recovery :
  newKVServer (os.OpenFile log_S5 []) = Ok server_S5
  /\ fst (Get server_S5 "x") = Ok (mkGetReply true "1")
  /\ fst (Put server_S5 "y" "2") = Ok (mkPutReply false)
  /\ restart (snd (Put server_S5 "y" "2")) []
     = Err (Errorw "decode wal command" json_SyntaxError)
  /\ newKVServer (os.OpenFile log_header_only [])
     = Err (Errorw "read wal frame payload" io_EOF).
Proof. repeat split; vm_compute; reflexivity. Qed.

(** ** The index under the handlers *)

Section Handlers.

Lemma get_reply_found t k :
  get_found (get_reply (lookup t k)) = is_some (btree.Get t (mkItem k "")).
Proof. unfold lookup. now destruct (btree.Get t _). Qed.

(** What an acknowledged mutation did to the index. *)
Lemma handle_index s rq r s' :
  handle s rq = (Ok r, s') ->
  tree s' = fold_left apply_index (records_of rq) (tree s).
Proof.
  intros H. destruct rq as [k v|k|k v|k|a b]; cbn [handle] in H.
  - unfold Put in H. pose proof (appendWAL_tree s (mkCmd "put" k v)) as T.
    destruct (appendWAL s _) as [[e|] s1]; [discriminate|].
    injection H as _ <-. rewrite applyCommand_eq. cbn [tree snd] in *.
    now rewrite T.
  - unfold Get in H. destruct (btree.Get _ _); now injection H as _ <-.
  - unfold Swap in H. pose proof (appendWAL_tree s (mkCmd "swap" k v)) as T.
    destruct (appendWAL s _) as [[e|] s1]; [discriminate|].
    rewrite applyCommand_eq in H. cbn [snd] in T.
    destruct (btree.Get _ _); injection H as _ <-; cbn [tree]; now rewrite T.
  - unfold Delete in H. pose proof (appendWAL_tree s (mkCmd "delete" k "")) as T.
    destruct (appendWAL s _) as [[e|] s1]; [discriminate|].
    injection H as _ <-. rewrite applyCommand_eq. cbn [tree snd] in *.
    now rewrite T.
  - unfold Scan in H. now injection H as _ <-.
Qed.

(** A request that is answered with an error leaves the index alone. *)
Lemma handle_error_index s rq e s' :
  handle s rq = (Err e, s') -> tree s' = tree s.
Proof.
  intros H. destruct rq as [k v|k|k v|k|a b]; cbn [handle] in H.
  - unfold Put in H. pose proof (appendWAL_tree s (mkCmd "put" k v)) as T.
    destruct (appendWAL s _) as [[e'|] s1]; [|discriminate].
    now injection H as _ <-.
  - unfold Get in H. destruct (btree.Get _ _); discriminate.
  - unfold Swap in H. pose proof (appendWAL_tree s (mkCmd "swap" k v)) as T.
    destruct (appendWAL s _) as [[e'|] s1].
    + now injection H as _ <-.
    + destruct (btree.Get _ _); discriminate.
  - unfold Delete in H. pose proof (appendWAL_tree s (mkCmd "delete" k "")) as T.
    destruct (appendWAL s _) as [[e'|] s1]; [|discriminate].
    now injection H as _ <-.
  - discriminate.
Qed.

Lemma handle_ordered s rq :
  btree.ordered (tree s) = true ->
  btree.ordered (tree (snd (handle s rq))) = true.
Proof.
  intros Hord. destruct (handle s rq) as [[r|e] s'] eqn:E; cbn [snd].
  - rewrite (handle_index _ _ _ _ E). now apply fold_apply_ordered.
  - now rewrite (handle_error_index _ _ _ _ E).
Qed.

Lemma serve_ordered rqs : forall s,
  btree.ordered (tree s) = true ->
  btree.ordered (tree (snd (serve s rqs))) = true.
Proof.
  induction rqs as [|rq rest IH]; intros s Hord; [exact Hord|].
  cbn [serve]. pose proof (handle_ordered s rq Hord) as H1.
  destruct (handle s rq) as [r s1]. cbn [snd] in H1.
  specialize (IH s1 H1). now destruct (serve s1 rest) as [rs s2].
Qed.

Lemma newKVServer_ordered f s :
  newKVServer f = Ok s -> btree.ordered (tree s) = true.
Proof.
  unfold newKVServer, replayWAL. cbn [logFile]. intros H.
  destruct (os.Seek f false) as [[e|] f0]; [discriminate|].
  rewrite replayWAL_loop_records in H. cbn [with_file tree logFile] in H.
  destruct (wal_records_loop _ f0) as [[err cmds] f1].
  destruct err as [e|]; [discriminate|]. cbn [logFile] in H.
  destruct (os.Seek f1 true) as [[e|] f2]; [discriminate|].
  injection H as <-. cbn [with_file tree]. now apply fold_apply_ordered.
Qed.

End Handlers.

(** Property X1.  In every state that the file-backed server reaches, from a
    start on any log file, on any device and through any sequence of
    requests, the index satisfies the ordering invariant of the tree: its
    keys are strictly ascending. *)
Theorem reachable_index_ordered (f : File) (s0 : kvServer)
    (rqs : list request)
    (Hstart : newKVServer f = Ok s0) :
  btree.ordered (tree (snd (serve s0 rqs))) = true.
Proof.
  apply serve_ordered. eapply newKVServer_ordered; eauto.
Qed.

(** Scenario S3 on a server started on an empty log. *)
Lemma reachable_index_ordered_witness :
  btree.ordered (tree (snd (serve fresh scenario_S3))) = true.
Proof.
  apply (reachable_index_ordered (os.OpenFile [] []) fresh scenario_S3).
  vm_compute. reflexivity.
Defined.

(** Property X2.  On an ordered index, a PUT k v that is acknowledged
    replies found exactly when k was in the index before; the GET k after it
    returns v; and GET of every other key replies as before the PUT. *)
Theorem put_then_get (s s' : kvServer) (k v : string) (r : PutReply)
    (Hord : btree.ordered (tree s) = true)
    (Hput : Put s k v = (Ok r, s')) :
  put_found r = is_some (btree.Get (tree s) (mkItem k ""))
  /\ Get s' k = (Ok (mkGetReply true v), s')
  /\ forall k', k' <> k -> fst (Get s' k') = fst (Get s k').
Proof.
  assert (Hh : handle s (ReqPut k v) = (Ok (RepPut r), s'))
    by (cbn [handle]; now rewrite Hput).
  pose proof (handle_index _ _ _ _ Hh) as Ht.
  cbn [records_of record_of fold_left] in Ht.
  split; [|split].
  - unfold Put in Hput. destruct (appendWAL s _) as [[e|] s1]; [discriminate|].
    now injection Hput as <- _.
  - rewrite Get_reply, Ht, (lookup_put _ "put") by auto.
    now rewrite String.eqb_refl.
  - intros k' Hk. rewrite !Get_reply. cbn [fst].
    rewrite Ht, (lookup_put _ "put") by auto.
    destruct (String.eqb_spec k k'); [congruence|reflexivity].
Qed.

(** The first PUT on a server started on an empty log. *)
Lemma put_then_get_witness :
  Get (snd (Put fresh "a" "1")) "a"
  = (Ok (mkGetReply true "1"), snd (Put fresh "a" "1")).
Proof.
  apply (put_then_get fresh (snd (Put fresh "a" "1")) "a" "1" (mkPutReply false));
    vm_compute; reflexivity.
Defined.

(** Property X3.  On an ordered index, a SWAP k v that is acknowledged
    replies with the found flag and the value that GET k returned before it;
    the GET k after it returns v; and GET of every other key replies as
    before the SWAP. *)
Theorem swap_returns_previous (s s' : kvServer) (k v : string) (r : SwapReply)
    (Hord : btree.ordered (tree s) = true)
    (Hswap : Swap s k v = (Ok r, s')) :
  fst (Get s k) = Ok (mkGetReply (swap_found r) (swap_old_value r))
  /\ Get s' k = (Ok (mkGetReply true v), s')
  /\ forall k', k' <> k -> fst (Get s' k') = fst (Get s k').
Proof.
  assert (Hh : handle s (ReqSwap k v) = (Ok (RepSwap r), s'))
    by (cbn [handle]; now rewrite Hswap).
  pose proof (handle_index _ _ _ _ Hh) as Ht.
  cbn [records_of record_of fold_left] in Ht.
  split; [|split].
  - unfold Swap in Hswap. unfold Get.
    destruct (appendWAL s _) as [[e|] s1]; [discriminate|].
    destruct (btree.Get (tree s) _); now injection Hswap as <- _.
  - rewrite Get_reply, Ht, (lookup_put _ "swap") by auto.
    now rewrite String.eqb_refl.
  - intros k' Hk. rewrite !Get_reply. cbn [fst].
    rewrite Ht, (lookup_put _ "swap") by auto.
    destruct (String.eqb_spec k k'); [congruence|reflexivity].
Qed.

(** A SWAP of a stored key. *)
Lemma swap_returns_previous_witness :
  fst (Get (snd (Put fresh "a" "1")) "a") = Ok (mkGetReply true "1")
  /\ Get (snd (Swap (snd (Put fresh "a" "1")) "a" "2")) "a"
     = (Ok (mkGetReply true "2"), snd (Swap (snd (Put fresh "a" "1")) "a" "2")).
Proof.
  destruct (swap_returns_previous (snd (Put fresh "a" "1"))
              (snd (Swap (snd (Put fresh "a" "1")) "a" "2")) "a" "2"
              (mkSwapReply true "1")) as (H1 & H2 & _);
    [vm_compute; reflexivity | vm_compute; reflexivity |].
  split; [exact H1 | exact H2].
Defined.

(** ** Writes and reads on the log file, on any device *)

Section Device.

Lemma Write_result f b :
  let '(n, err, f') := os.Write f b in
  n <= List.length b
  /\ data f' = os.write_at (data f) (off f) (firstn n b)
  /\ off f' = off f + n
  /\ (err = None -> n = List.length b)
  /\ (err = None \/ err = Some device_error).
Proof.
  unfold os.Write. destruct (faults f) as [|[|k] fs]; cbn [data off];
    rewrite ?firstn_all; repeat split; auto; try lia; discriminate.
Qed.

Lemma writeFull_result w d :
  exists m,
    m <= List.length d
    /\ (d = [] -> writeFull w d = (None, w))
    /\ (d <> [] ->
        data (snd (writeFull w d)) = os.write_at (data w) (off w) (firstn m d))
    /\ off (snd (writeFull w d)) = off w + m
    /\ (fst (writeFull w d) = None -> m = List.length d)
    /\ (fst (writeFull w d) = None \/ fst (writeFull w d) = Some device_error).
Proof.
  rewrite writeFull_eq. destruct d as [|c d].
  - exists 0. cbn [fst snd List.length]. repeat split; auto; congruence.
  - pose proof (Write_result w (c :: d)) as H.
    destruct (os.Write w (c :: d)) as [[n err] w'].
    destruct H as (H1 & H2 & H3 & H4 & H5).
    exists n. cbn [fst snd]. repeat split; auto; discriminate.
Qed.

(** A read on a device that does not fail at this call gives what the
    same read gives on a device without faults. *)
Lemma read_sound f n buf err f' :
  readFullWithEOFAsBoundary f n = (buf, err, f') ->
  err <> Some device_error ->
  readFullWithEOFAsBoundary (mkFile (data f) (off f) []) n =
  (buf, err, mkFile (data f') (off f') []).
Proof.
  unfold readFullWithEOFAsBoundary, io.ReadFull.
  destruct (Nat.eqb_spec n 0) as [->|Hn].
  { intros [= <- <- <-] _. reflexivity. }
  cbn [faults data off tl].
  destruct (faults f) as [|[|k] fs]; cbn [tl].
  - destruct (Nat.leb n _).
    + intros [= <- <- <-] _. reflexivity.
    + destruct (skipn (off f) (data f));
        cbn [errors_Is errors_Is_chain error_eqb orb List.length Nat.eqb];
        intros [= <- <- <-] _; reflexivity.
  - destruct (Nat.leb n _).
    + intros [= <- <- <-] _. reflexivity.
    + destruct (skipn (off f) (data f));
        cbn [errors_Is errors_Is_chain error_eqb orb List.length Nat.eqb];
        intros [= <- <- <-] _; reflexivity.
  - cbn [errors_Is errors_Is_chain error_eqb orb].
    intros [= <- <- <-] H. now destruct H.
Qed.

Lemma read_device_error f n buf f' :
  readFullWithEOFAsBoundary f n = (buf, Some device_error, f') ->
  errors_Is (Some device_error) io_EOF = false
  /\ errors_Is (Some device_error) io_ErrUnexpectedEOF = false.
Proof. intros _. split; reflexivity. Qed.

(** A replay that ends without an error read the file as a device
    without faults gives it. *)
Lemma wal_records_loop_sound fuel : forall f cmds f',
  wal_records_loop fuel f = (None, cmds, f') ->
  wal_records_loop fuel (mkFile (data f) (off f) []) =
  (None, cmds, mkFile (data f') (off f') []).
Proof.
  induction fuel as [|fuel IH]; intros f cmds f' H; [discriminate|].
  cbn [wal_records_loop] in H |- *.
  destruct (readFullWithEOFAsBoundary f 4) as [[lenBuf err] f1] eqn:R1.
  assert (N1 : err <> Some device_error).
  { intros ->. cbn in H. discriminate. }
  rewrite (read_sound _ _ _ _ _ R1 N1).
  destruct (errors_Is err io_EOF); [now injection H as <- <-|].
  destruct (errors_Is err io_ErrUnexpectedEOF); [now injection H as <- <-|].
  destruct err as [e|]; [discriminate|].
  destruct (N.ltb _ _); [discriminate|].
  destruct (readFullWithEOFAsBoundary f1 _) as [[payload err] f2] eqn:R2.
  assert (N2 : err <> Some device_error).
  { intros ->. cbn in H. discriminate. }
  pose proof (read_sound _ _ _ _ _ R2 N2) as R2'. cbn [data off] in R2' |- *.
  rewrite R2'.
  destruct (errors_Is err io_ErrUnexpectedEOF); [now injection H as <- <-|].
  destruct err as [e|]; [discriminate|].
  destruct (decodeCommand payload) as [cmd|e]; [|discriminate].
  destruct (wal_records_loop fuel f2) as [[err' cs] f3] eqn:E.
  injection H as -> <- <-.
  now rewrite (IH _ _ _ E).
Qed.

Lemma Seek_result f to_end err f' :
  os.Seek f to_end = (err, f') ->
  data f' = data f
  /\ (err = None ->
      off f' = if to_end then List.length (data f) else 0).
Proof.
  unfold os.Seek. destruct (faults f) as [|[|k] fs];
    intros [= <- <-]; cbn [data off]; split; auto; discriminate.
Qed.

(** The four cases of a read on a device without faults. *)
Lemma read_cases d o n :
  readFullWithEOFAsBoundary (mkFile d o []) n =
  if (n =? 0)%nat then ([], None, mkFile d o [])
  else if (o + n <=? List.length d)%nat then
    (firstn n (skipn o d), None, mkFile d (o + n) [])
  else if (List.length d <=? o)%nat then ([], Some io_EOF, mkFile d o [])
  else (skipn o d, Some io_ErrUnexpectedEOF, mkFile d (List.length d) []).
Proof.
  destruct (Nat.eqb_spec n 0) as [->|Hn]; [reflexivity|].
  destruct (Nat.leb_spec (o + n) (List.length d)); [now apply read_ok|].
  destruct (Nat.leb_spec (List.length d) o).
  - rewrite read_eof by assumption. now rewrite Nat.add_0_r.
  - rewrite read_short by lia. repeat f_equal. lia.
Qed.

End Device.

(** Property X4.  [writeFull] on the log file, on any device: it writes a
    prefix of the data at the handle and moves the handle behind it; the
    prefix is the whole data when it returns no error; empty data is no
    write at all; and its error, if any, is the error of the device, since a
    write to a file that comes short reports an error. *)
Theorem writeFull_writes_prefix (w : File) (d : list byte) :
  exists m,
    m <= List.length d
    /\ (d = [] -> writeFull w d = (None, w))
    /\ (d <> [] ->
        data (snd (writeFull w d)) = os.write_at (data w) (off w) (firstn m d))
    /\ off (snd (writeFull w d)) = off w + m
    /\ (fst (writeFull w d) = None -> m = List.length d)
    /\ (fst (writeFull w d) = None \/ fst (writeFull w d) = Some device_error).
Proof. apply writeFull_result. Qed.

(** Property X5.  [readFullWithEOFAsBoundary] of [n] bytes at the offset [o]
    of a file on a device without faults: nothing is read for [n = 0]; the
    [n] bytes are read when the file holds them; the error is [io.EOF] when
    no byte is left, and [io.ErrUnexpectedEOF], with the bytes that are
    left, when some are but fewer than [n]. *)
Theorem read_boundary_cases (d : list byte) (o n : nat) :
  readFullWithEOFAsBoundary (mkFile d o []) n =
  if (n =? 0)%nat then ([], None, mkFile d o [])
  else if (o + n <=? List.length d)%nat then
    (firstn n (skipn o d), None, mkFile d (o + n) [])
  else if (List.length d <=? o)%nat then ([], Some io_EOF, mkFile d o [])
  else (skipn o d, Some io_ErrUnexpectedEOF, mkFile d (List.length d) []).
Proof. apply read_cases. Qed.

(** Property X6.  A start of the server that succeeds, on any device, leaves
    the bytes of the log file as they are and the handle at the end of the
    file; and a restart after it, on a device without faults, rebuilds the
    same index. *)
Theorem recovery_reads_only (f : File) (s : kvServer)
    (Hstart : newKVServer f = Ok s) :
  data (logFile s) = data f
  /\ off (logFile s) = List.length (data f)
  /\ restart s [] =
     Ok (mkServer (tree s) (mkFile (data f) (List.length (data f)) [])).
Proof.
  unfold newKVServer, replayWAL in Hstart. cbn [logFile] in Hstart.
  destruct (os.Seek f false) as [[e|] f0] eqn:S0; [discriminate|].
  destruct (Seek_result _ _ _ _ S0) as [D0 O0]. specialize (O0 eq_refl).
  rewrite replayWAL_loop_records in Hstart.
  cbn [with_file tree logFile] in Hstart.
  pose proof (wal_records_loop_fuel (S (List.length (data f0))) f0 ltac:(lia))
    as Hf.
  destruct (wal_records_loop _ f0) as [[err cmds] f1] eqn:E.
  destruct Hf as (_ & D1 & _).
  destruct err as [e|]; [discriminate|]. cbn [logFile] in Hstart.
  destruct (os.Seek f1 true) as [[e|] f2] eqn:S2; [discriminate|].
  destruct (Seek_result _ _ _ _ S2) as [D2 O2]. specialize (O2 eq_refl).
  injection Hstart as <-. cbn [with_file logFile tree].
  assert (Hd : data f2 = data f) by congruence.
  split; [exact Hd|]. split; [congruence|].
  unfold restart. cbn [logFile with_file]. rewrite Hd, newKVServer_records.
  unfold wal_records. apply wal_records_loop_sound in E.
  rewrite O0, D0 in E. rewrite E. reflexivity.
Qed.

(** The start on the log of scenario S5. *)
Lemma recovery_reads_only_witness :
  data (logFile server_S5) = log_S5
  /\ off (logFile server_S5) = List.length log_S5
  /\ restart server_S5 [] = Ok server_S5.
Proof.
  apply (recovery_reads_only (os.OpenFile log_S5 [io_ok; io_ok]) server_S5).
  vm_compute. reflexivity.
Defined.

(** ** The log under a device that may fail *)

Section AppendOnly.

Lemma writeFull_at_end w d err w' :
  writeFull w d = (err, w') ->
  off w = List.length (data w) ->
  exists m,
    m <= List.length d
    /\ data w' = data w ++ firstn m d
    /\ off w' = List.length (data w')
    /\ (err = None -> m = List.length d).
Proof.
  intros H Hoff. destruct (writeFull_result w d) as (m & H1 & H2 & H3 & H4 & H5 & _).
  destruct d as [|c d].
  - rewrite (H2 eq_refl) in H. injection H as <- <-.
    exists 0. cbn [firstn]. rewrite app_nil_r. auto.
  - rewrite H in *. cbn [fst snd] in *.
    exists m. specialize (H3 ltac:(discriminate)).
    rewrite Hoff, write_at_end in H3.
    repeat split; auto. rewrite H4, H3, length_app, length_firstn. lia.
Qed.

Lemma firstn_app_le {A} n (a b : list A) :
  n <= List.length a -> firstn n (a ++ b) = firstn n a.
Proof.
  intros H. rewrite firstn_app.
  replace (n - List.length a) with 0 by lia. cbn [firstn]. apply app_nil_r.
Qed.

Lemma firstn_app_ge {A} n (a b : list A) :
  firstn (List.length a + n) (a ++ b) = a ++ firstn n b.
Proof.
  rewrite firstn_app, firstn_all2 by lia. f_equal. f_equal. lia.
Qed.

(** What an append leaves in the file, on any device: the bytes of the
    frame that were written, behind what the file held. *)
Lemma appendWAL_at_end s cmd err s' :
  appendWAL s cmd = (err, s') ->
  off (logFile s) = List.length (data (logFile s)) ->
  exists m,
    data (logFile s') = data (logFile s) ++ firstn m (frame cmd)
    /\ off (logFile s') = List.length (data (logFile s'))
    /\ (err = None -> data (logFile s') = data (logFile s) ++ frame cmd).
Proof.
  intros H Hoff.
  assert (Hnone : exists m,
             data (logFile s) = data (logFile s) ++ firstn m (frame cmd)
             /\ off (logFile s) = List.length (data (logFile s)))
    by (exists 0; cbn [firstn]; rewrite app_nil_r; auto).
  unfold appendWAL in H.
  destruct (negb (isValidOp (Op cmd))).
  { injection H as <- <-. destruct Hnone as (m & ? & ?). exists m.
    repeat split; auto; discriminate. }
  destruct (json.Marshal cmd) as [payload err0] eqn:EM.
  assert (Hp : payload = fst (json.Marshal cmd)) by now rewrite EM.
  assert (He : err0 = None)
    by (pose proof (Marshal_ok cmd) as M; now rewrite EM in M).
  subst err0.
  destruct (Nat.ltb maxWALFrameSize (List.length payload)).
  { injection H as <- <-. destruct Hnone as (m & ? & ?). exists m.
    repeat split; auto; discriminate. }
  set (hdr := binary.PutUint32 (binary.uint32 (List.length payload))) in *.
  assert (Hframe : frame cmd = hdr ++ payload)
    by (unfold frame; now rewrite <- Hp).
  destruct (writeFull (logFile s) hdr) as [err1 f1] eqn:E1.
  destruct (writeFull_at_end _ _ _ _ E1 Hoff) as (m1 & L1 & D1 & O1 & N1).
  destruct err1 as [e|].
  { injection H as <- <-. exists m1. cbn [with_file logFile].
    rewrite Hframe, firstn_app_le by assumption.
    repeat split; auto; discriminate. }
  specialize (N1 eq_refl). subst m1. rewrite firstn_all in D1.
  destruct (writeFull f1 payload) as [err2 f2] eqn:E2.
  destruct (writeFull_at_end _ _ _ _ E2 O1) as (m2 & L2 & D2 & O2 & N2).
  rewrite D1, <- app_assoc in D2.
  destruct err2 as [e|].
  { injection H as <- <-. exists (List.length hdr + m2). cbn [with_file logFile].
    rewrite Hframe, firstn_app_ge. repeat split; auto; discriminate. }
  specialize (N2 eq_refl). subst m2. rewrite firstn_all in D2.
  destruct (os.Sync f2) as [err3 f3] eqn:E3.
  assert (D3 : data f3 = data f2 /\ off f3 = off f2).
  { unfold os.Sync in E3. destruct (faults f2) as [|[|k] fs];
      injection E3 as <- <-; auto. }
  destruct D3 as [D3 O3].
  exists (List.length (frame cmd)). rewrite firstn_all, Hframe.
  destruct err3 as [e|]; injection H as <- <-; cbn [with_file logFile];
    rewrite D3, O3; repeat split; auto; congruence.
Qed.

End AppendOnly.

(** Property X7.  With the handle at the end of the log, a request, on any
    device and whether it is acknowledged or not, only appends to the log:
    the bytes appended are a prefix of the frame of its record (nothing for
    GET and SCAN), the whole frame when the request is acknowledged, and the
    handle is at the end of the log again. *)
Theorem log_only_grows (s : kvServer) (rq : request)
    (Hend : off (logFile s) = List.length (data (logFile s))) :
  exists m,
    data (logFile (snd (handle s rq))) =
      data (logFile s) ++ firstn m (List.concat (map frame (records_of rq)))
    /\ off (logFile (snd (handle s rq))) =
       List.length (data (logFile (snd (handle s rq))))
    /\ (is_ok (fst (handle s rq)) = true ->
        data (logFile (snd (handle s rq))) =
          data (logFile s) ++ List.concat (map frame (records_of rq))).
Proof.
  assert (Hmut : forall cmd (r : result reply),
            records_of rq = [cmd] ->
            (exists s1 err, appendWAL s cmd = (err, s1)
               /\ logFile (snd (handle s rq)) = logFile s1
               /\ (is_ok (fst (handle s rq)) = true -> err = None)) ->
            exists m,
              data (logFile (snd (handle s rq))) =
                data (logFile s)
                ++ firstn m (List.concat (map frame (records_of rq)))
              /\ off (logFile (snd (handle s rq))) =
                 List.length (data (logFile (snd (handle s rq))))
              /\ (is_ok (fst (handle s rq)) = true ->
                  data (logFile (snd (handle s rq))) =
                    data (logFile s) ++ List.concat (map frame (records_of rq)))).
  { intros cmd _ -> (s1 & err & Ha & Hl & Hok).
    destruct (appendWAL_at_end _ _ _ _ Ha Hend) as (m & D & O & N).
    rewrite Hl. cbn [map List.concat]. rewrite app_nil_r.
    exists m. repeat split; auto. }
  destruct rq as [k v|k|k v|k|a b].
  - apply (Hmut (mkCmd "put" k v) (Err io_EOF) eq_refl).
    cbn [handle]. unfold Put.
    destruct (appendWAL s _) as [[e|] s1]; [exists s1, (Some e)|exists s1, None];
      rewrite ?applyCommand_eq; cbn [fst snd map_result is_ok logFile];
      repeat split; auto; discriminate.
  - cbn [handle]. unfold Get.
    destruct (btree.Get _ _); exists 0; cbn; rewrite app_nil_r; auto.
  - apply (Hmut (mkCmd "swap" k v) (Err io_EOF) eq_refl).
    cbn [handle]. unfold Swap.
    destruct (appendWAL s _) as [[e|] s1]; [exists s1, (Some e)|exists s1, None];
      rewrite ?applyCommand_eq; try destruct (btree.Get (tree s) _);
      cbn [fst snd map_result is_ok logFile];
      repeat split; auto; discriminate.
  - apply (Hmut (mkCmd "delete" k "") (Err io_EOF) eq_refl).
    cbn [handle]. unfold Delete.
    destruct (appendWAL s _) as [[e|] s1]; [exists s1, (Some e)|exists s1, None];
      rewrite ?applyCommand_eq; cbn [fst snd map_result is_ok logFile];
      repeat split; auto; discriminate.
  - exists 0. cbn. rewrite app_nil_r. auto.
Qed.

(** A PUT on a device whose next write fails after two bytes. *)
Lemma log_only_grows_witness :
  exists m,
    data (logFile (snd (handle failing_write (ReqPut "a" "1")))) =
      data (logFile failing_write)
      ++ firstn m (List.concat (map frame (records_of (ReqPut "a" "1"))))
    /\ off (logFile (snd (handle failing_write (ReqPut "a" "1")))) =
       List.length (data (logFile (snd (handle failing_write (ReqPut "a" "1")))))
    /\ (is_ok (fst (handle failing_write (ReqPut "a" "1"))) = true ->
        data (logFile (snd (handle failing_write (ReqPut "a" "1")))) =
          data (logFile failing_write)
          ++ List.concat (map frame (records_of (ReqPut "a" "1")))).
Proof.
  apply (log_only_grows failing_write (ReqPut "a" "1")). reflexivity.
Defined.

(** ** The in-memory server *)

Section Memory.

(** The item [ReplaceOrInsert] displaces and the item [Delete] removes
    are the item [Get] finds. *)
Lemma ReplaceOrInsert_old t it :
  snd (btree.ReplaceOrInsert t it) = btree.Get t it.
Proof.
  induction t as [|x r IH]; [reflexivity|]. cbn [btree.ReplaceOrInsert btree.Get].
  destruct (Less it x); [reflexivity|]. destruct (Less x it); [|reflexivity].
  rewrite <- IH. now destruct (btree.ReplaceOrInsert r it).
Qed.

Lemma Delete_old t it : snd (btree.Delete t it) = btree.Get t it.
Proof.
  induction t as [|x r IH]; [reflexivity|]. cbn [btree.Delete btree.Get].
  destruct (Less it x); [reflexivity|]. destruct (Less x it); [|reflexivity].
  rewrite <- IH. now destruct (btree.Delete r it).
Qed.

Lemma memory_handle_index m rq :
  exists r,
    fst (memory.handle m rq) = Ok r
    /\ memory.tree (snd (memory.handle m rq)) =
       fold_left apply_index (records_of rq) (memory.tree m).
Proof.
  destruct rq as [k v|k|k v|k|a b]; cbn [memory.handle].
  - unfold memory.Put.
    destruct (btree.ReplaceOrInsert (memory.tree m) (mkItem k v)) as [t' prev] eqn:E.
    eexists. split; [reflexivity|]. cbn. now rewrite E.
  - unfold memory.Get. destruct (btree.Get _ _); eexists; split; reflexivity.
  - unfold memory.Swap.
    destruct (btree.ReplaceOrInsert (memory.tree m) (mkItem k v)) as [t' prev] eqn:E.
    destruct (btree.Get _ _); eexists; (split; [reflexivity|]); cbn; now rewrite E.
  - unfold memory.Delete.
    destruct (btree.Delete (memory.tree m) (mkItem k "")) as [t' del] eqn:E.
    eexists. split; [reflexivity|]. cbn. now rewrite E.
  - eexists. split; reflexivity.
Qed.

(** One request on the file-backed server and on the in-memory server
    with the same index. *)
Lemma handle_memory s m rq r s' :
  tree s = memory.tree m -> handle s rq = (Ok r, s') ->
  fst (memory.handle m rq) = Ok r
  /\ tree s' = memory.tree (snd (memory.handle m rq)).
Proof.
  intros Ht H. pose proof (handle_index _ _ _ _ H) as Hi.
  destruct (memory_handle_index m rq) as (r' & Hr & Hm).
  rewrite Hi, Hm, Ht. split; [|reflexivity].
  destruct rq as [k v|k|k v|k|a b]; cbn [handle memory.handle] in *.
  - unfold Put in H. unfold memory.Put.
    destruct (appendWAL s _) as [[e|] s1]; [discriminate|].
    injection H as <- _.
    pose proof (ReplaceOrInsert_old (memory.tree m) (mkItem k v)) as Ho.
    destruct (btree.ReplaceOrInsert _ _) as [t' prev]. cbn [snd] in Ho.
    cbn [fst map_result]. rewrite Ht, Ho.
    now rewrite (Get_key _ (mkItem k v) (mkItem k "")).
  - unfold Get in H. unfold memory.Get. rewrite Ht in H.
    destruct (btree.Get _ _); now injection H as <- _.
  - unfold Swap in H. unfold memory.Swap.
    destruct (appendWAL s _) as [[e|] s1]; [discriminate|].
    rewrite Ht in H.
    destruct (btree.ReplaceOrInsert _ _) as [t' prev].
    destruct (btree.Get _ _); now injection H as <- _.
  - unfold Delete in H. unfold memory.Delete.
    destruct (appendWAL s _) as [[e|] s1]; [discriminate|].
    injection H as <- _.
    pose proof (Delete_old (memory.tree m) (mkItem k "")) as Ho.
    destruct (btree.Delete _ _) as [t' del]. cbn [snd] in Ho.
    cbn [fst map_result]. now rewrite Ht, Ho.
  - unfold Scan in H. unfold memory.Scan. rewrite Ht in H.
    now injection H as <- _.
Qed.

Lemma memory_serve_index rqs : forall m,
  memory.tree (snd (memory.serve m rqs)) =
  fold_left apply_index (flat_map records_of rqs) (memory.tree m).
Proof.
  induction rqs as [|rq rest IH]; intros m; [reflexivity|].
  cbn [memory.serve flat_map]. rewrite fold_left_app.
  destruct (memory_handle_index m rq) as (r & _ & Hm).
  destruct (memory.handle m rq) as [r1 m1]. cbn [snd] in Hm.
  specialize (IH m1). destruct (memory.serve m1 rest) as [rs m2].
  cbn [snd] in *. now rewrite IH, Hm.
Qed.

Lemma memory_serve_ok rqs : forall m,
  forallb is_ok (fst (memory.serve m rqs)) = true.
Proof.
  induction rqs as [|rq rest IH]; intros m; [reflexivity|].
  cbn [memory.serve].
  destruct (memory_handle_index m rq) as (r & Hr & _).
  destruct (memory.handle m rq) as [r1 m1]. cbn [fst] in Hr. subst r1.
  specialize (IH m1). destruct (memory.serve m1 rest) as [rs m2].
  exact IH.
Qed.

(** The stored value of a key after the records of a run. *)
Lemma index_lookup rqs : forall t,
  btree.ordered t = true ->
  btree.ordered (fold_left apply_index (flat_map records_of rqs) t) = true
  /\ forall k,
       lookup (fold_left apply_index (flat_map records_of rqs) t) k =
       installed (lookup t k) rqs k.
Proof.
  induction rqs as [|rq rest IH]; intros t Hord; [auto|].
  cbn [flat_map installed]. rewrite fold_left_app.
  assert (H1 : btree.ordered (fold_left apply_index (records_of rq) t) = true)
    by now apply fold_apply_ordered.
  destruct (IH _ H1) as [Ho Hl]. split; [exact Ho|].
  intros k. rewrite Hl. f_equal.
  destruct rq as [k' v|k'|k' v|k'|a b]; cbn [records_of record_of fold_left];
    try reflexivity.
  - now apply (lookup_put _ "put"); auto.
  - now apply (lookup_put _ "swap"); auto.
  - now apply lookup_delete.
Qed.

Lemma lookup_Get t k v :
  lookup t k = Some v <-> btree.Get t (mkItem k "") = Some (mkItem k v).
Proof.
  unfold lookup. split.
  - destruct (btree.Get t _) as [[k' v']|] eqn:E; [|discriminate].
    intros [= <-]. apply Get_found_key in E. cbn in E. now subst.
  - now intros ->.
Qed.

End Memory.

(** Property X8.  On every sequence of requests that the file-backed server
    acknowledges throughout, the in-memory server started with the same
    index gives the same replies and ends with the same index. *)
Theorem memory_same_replies (rqs : list request) (s : kvServer)
    (m : memory.kvServer)
    (Hindex : tree s = memory.tree m)
    (Hfile : forallb is_ok (fst (serve s rqs)) = true) :
  fst (serve s rqs) = fst (memory.serve m rqs)
  /\ tree (snd (serve s rqs)) = memory.tree (snd (memory.serve m rqs)).
Proof.
  revert s m Hindex Hfile.
  induction rqs as [|rq rest IH]; intros s m Hindex Hfile; [auto|].
  cbn [serve memory.serve] in *.
  destruct (handle s rq) as [r s1] eqn:E1.
  destruct (serve s1 rest) as [rs s2] eqn:E2.
  cbn [fst forallb] in Hfile. apply andb_prop in Hfile as [Hr Hrs].
  destruct r as [r|e]; [|discriminate].
  destruct (handle_memory _ _ _ _ _ Hindex E1) as [Hm Ht].
  destruct (memory.handle m rq) as [r1 m1]. cbn [fst snd] in Hm, Ht. subst r1.
  specialize (IH s1 m1 Ht). rewrite E2 in IH. specialize (IH Hrs).
  destruct (memory.serve m1 rest) as [rs' m2]. cbn [fst snd] in *.
  destruct IH as [-> ->]. auto.
Qed.

(** Scenario S1 on both servers. *)
Lemma memory_same_replies_witness :
  fst (serve fresh scenario_S1) = fst (memory.serve memory.newKVServer scenario_S1).
Proof.
  apply (memory_same_replies scenario_S1 fresh memory.newKVServer);
    vm_compute; reflexivity.
Defined.

(** Property X9.  The in-memory server answers no request with an error;
    after any sequence of requests from its start, GET k returns the value
    that the last PUT or SWAP of k installed, and absence if there is none
    or a DELETE of k came after it; and SCAN a b returns, in strictly
    ascending key order, exactly the pairs (k, v) of the keys with [a <= k
    <= b] that hold such a value v. *)
Theorem memory_run_semantics (rqs : list request) (k a b : string) :
  forallb is_ok (fst (memory.serve memory.newKVServer rqs)) = true
  /\ memory.Get (snd (memory.serve memory.newKVServer rqs)) k =
     (Ok (get_reply (last_value rqs k)),
      snd (memory.serve memory.newKVServer rqs))
  /\ exists ps,
       memory.Scan (snd (memory.serve memory.newKVServer rqs)) a b =
       (Ok (mkScanReply ps), snd (memory.serve memory.newKVServer rqs))
       /\ ascending ps
       /\ forall k' v,
            In (mkPair k' v) ps <->
            last_value rqs k' = Some v
            /\ String.leb a k' = true /\ String.leb k' b = true.
Proof.
  split; [apply memory_serve_ok|].
  pose proof (memory_serve_index rqs memory.newKVServer) as Ht.
  destruct (index_lookup rqs btree.New eq_refl) as [Hord Hl].
  set (m := snd (memory.serve memory.newKVServer rqs)) in *.
  cbn [memory.tree memory.newKVServer] in Ht. rewrite <- Ht in Hord, Hl.
  split.
  - unfold memory.Get, last_value.
    change (installed None rqs k) with (installed (lookup btree.New k) rqs k).
    rewrite <- (Hl k). unfold lookup.
    now destruct (btree.Get (memory.tree m) _).
  - exists (scan_tree (memory.tree m) a b). split; [reflexivity|].
    destruct (scan_tree_spec (memory.tree m) a b Hord) as (_ & H2 & H3 & _).
    split; [exact H3|]. intros k' v. rewrite H2, <- lookup_Get, Hl.
    reflexivity.
Qed.

(** ** The SQLite-backed server and its table *)

Section SqliteLog.

Context {codec : sqlite.ProtoCodec}.

Lemma sqlite_apply_tree sd cmd :
  sqlite.tree (sqlite.applyCommand sd cmd) =
  sqlite.tree (sqlite.applyCommand
                 (sqlite.mkServer (sqlite.tree sd) (sqlite.mkDB [] [])) cmd).
Proof. unfold sqlite.applyCommand. now destruct (sqlite.Op cmd). Qed.

Lemma replayRows_db rows : forall sd err sd',
  sqlite.replayRows rows sd = (err, sd') -> sqlite.db sd' = sqlite.db sd.
Proof.
  induction rows as [|p rows IH]; intros sd err sd' H; cbn [sqlite.replayRows] in H.
  - now injection H as _ <-.
  - destruct (sqlite.proto_Unmarshal p) as [cmd|e]; [|now injection H as _ <-].
    destruct (negb _); [now injection H as _ <-|].
    apply IH in H. now rewrite H, sqlite_applyCommand_db.
Qed.

(** The replay depends on the tree it starts from, not on the state of the
    database handle. *)
Lemma replayRows_tree rows : forall sd1 sd2,
  sqlite.tree sd1 = sqlite.tree sd2 ->
  fst (sqlite.replayRows rows sd1) = fst (sqlite.replayRows rows sd2)
  /\ sqlite.tree (snd (sqlite.replayRows rows sd1)) =
     sqlite.tree (snd (sqlite.replayRows rows sd2)).
Proof.
  induction rows as [|p rows IH]; intros sd1 sd2 Ht; cbn [sqlite.replayRows].
  - auto.
  - destruct (sqlite.proto_Unmarshal p) as [cmd|e]; [|auto].
    destruct (negb _); [auto|]. apply IH.
    rewrite (sqlite_apply_tree sd1), (sqlite_apply_tree sd2). now rewrite Ht.
Qed.

Lemma replayRows_app rows p : forall sd sd',
  sqlite.replayRows rows sd = (None, sd') ->
  sqlite.replayRows (rows ++ [p]) sd = sqlite.replayRows [p] sd'.
Proof.
  induction rows as [|q rows IH]; intros sd sd' H.
  - cbn [sqlite.replayRows] in H. now injection H as <-.
  - cbn [app]. cbn [sqlite.replayRows] in H |- *.
    destruct (sqlite.proto_Unmarshal q) as [cmd|e]; [|discriminate].
    destruct (negb _); [discriminate|]. now apply IH.
Qed.

Lemma restart_eq sd :
  sqlite.restart sd [] =
  match sqlite.replayRows (sqlite.wal_log (sqlite.db sd))
          (sqlite.mkServer btree.New (sqlite.mkDB (sqlite.wal_log (sqlite.db sd)) []))
  with
  | (Some e, _) => Err e
  | (None, s') => Ok s'
  end.
Proof.
  unfold sqlite.restart, sqlite.newKVServer, sqlite.initDB, sqlite.Exec_schema,
    sqlite.replayLog, sqlite.Query_all.
  cbn [sqlite.db_faults sqlite.wal_log sqlite.db sqlite.tree tl].
  now destruct (sqlite.replayRows _ _) as [[e|] s'].
Qed.

(** An append that succeeds adds the payload of the record as the last
    row; an append that fails adds no row. *)
Lemma appendLog_rows sd cmd err sd' :
  sqlite.appendLog sd cmd = (err, sd') ->
  sqlite.tree sd' = sqlite.tree sd
  /\ match err with
     | Some _ => sqlite.wal_log (sqlite.db sd') = sqlite.wal_log (sqlite.db sd)
     | None =>
         exists p, sqlite.proto_Marshal cmd = Ok p
                   /\ sqlite.isValidOp (sqlite.Op cmd) = true
                   /\ sqlite.wal_log (sqlite.db sd') =
                      sqlite.wal_log (sqlite.db sd) ++ [p]
     end.
Proof.
  unfold sqlite.appendLog.
  destruct (sqlite.isValidOp (sqlite.Op cmd)) eqn:Hop; cbn [negb];
    [|intros [= <- <-]; auto].
  destruct (sqlite.proto_Marshal cmd) as [p|e]; [|intros [= <- <-]; auto].
  unfold sqlite.Exec_insert.
  destruct (sqlite.db_faults (sqlite.db sd)) as [|[|k] fs];
    intros [= <- <-]; cbn [sqlite.tree sqlite.db sqlite.wal_log]; eauto.
Qed.

Lemma db_consistent_append sd cmd sd1 :
  db_consistent codec sd -> db_round_trip codec cmd ->
  sqlite.appendLog sd cmd = (None, sd1) ->
  db_consistent codec (sqlite.applyCommand sd1 cmd).
Proof.
  intros (s' & Hr & Ht & Hw) Hc Ha.
  destruct (appendLog_rows _ _ _ _ Ha) as (T1 & p & Hm & Hop & Hrows).
  rewrite restart_eq in Hr. unfold db_consistent. rewrite restart_eq.
  rewrite !sqlite_applyCommand_db, Hrows.
  set (start := sqlite.mkServer btree.New
                  (sqlite.mkDB (sqlite.wal_log (sqlite.db sd) ++ [p]) [])).
  destruct (sqlite.replayRows (sqlite.wal_log (sqlite.db sd)) _)
    as [[e|] s0] eqn:E0; [discriminate|]. injection Hr as ->.
  destruct (replayRows_tree (sqlite.wal_log (sqlite.db sd)) start
              (sqlite.mkServer btree.New
                 (sqlite.mkDB (sqlite.wal_log (sqlite.db sd)) [])) eq_refl)
    as [He Htr].
  rewrite E0 in He, Htr. cbn [fst snd] in He, Htr.
  destruct (sqlite.replayRows (sqlite.wal_log (sqlite.db sd)) start)
    as [err s1] eqn:E1. cbn [fst snd] in He, Htr. subst err.
  rewrite (replayRows_app _ _ _ _ E1). cbn [sqlite.replayRows].
  rewrite (Hc p Hm), Hop. cbn [negb].
  eexists. split; [reflexivity|].
  pose proof (replayRows_db _ _ _ _ E1) as Hd.
  rewrite (sqlite_apply_tree s1), (sqlite_apply_tree sd1), !sqlite_applyCommand_db.
  rewrite Htr, Ht, T1, Hd. split; reflexivity.
Qed.

Lemma db_consistent_rows sd sd' :
  db_consistent codec sd ->
  sqlite.tree sd' = sqlite.tree sd ->
  sqlite.wal_log (sqlite.db sd') = sqlite.wal_log (sqlite.db sd) ->
  db_consistent codec sd'.
Proof.
  intros (s' & Hr & Ht & Hw) T W. exists s'.
  unfold sqlite.restart in *. rewrite W, T, Hw. auto.
Qed.

Lemma db_consistent_handle sd rq :
  db_consistent codec sd -> Forall (db_round_trip codec) (db_records_of rq) ->
  db_consistent codec (snd (sqlite.handle sd rq)).
Proof.
  intros Hc Hrt.
  assert (Hmut : forall cmd err sd1,
            db_records_of rq = [cmd] -> sqlite.appendLog sd cmd = (err, sd1) ->
            match err with
            | Some _ => db_consistent codec sd1
            | None => db_consistent codec (sqlite.applyCommand sd1 cmd)
            end).
  { intros cmd err sd1 Hrec Ha. rewrite Hrec in Hrt. apply Forall_inv in Hrt.
    destruct err as [e|]; [|now apply db_consistent_append with sd].
    destruct (appendLog_rows _ _ _ _ Ha) as [T W].
    now apply db_consistent_rows with sd. }
  destruct rq as [k v|k|k v|k|a b]; cbn [sqlite.handle].
  - unfold sqlite.Put.
    specialize (Hmut (sqlite.mkWALCommand sqlite.WALCommand_OP_PUT k v)).
    destruct (sqlite.appendLog sd _) as [[e|] sd1];
      exact (Hmut _ _ eq_refl eq_refl).
  - unfold sqlite.Get. now destruct (btree.Get _ _).
  - unfold sqlite.Swap.
    specialize (Hmut (sqlite.mkWALCommand sqlite.WALCommand_OP_SWAP k v)).
    destruct (sqlite.appendLog sd _) as [[e|] sd1];
      [exact (Hmut _ _ eq_refl eq_refl)|].
    specialize (Hmut _ _ eq_refl eq_refl). now destruct (btree.Get _ _).
  - unfold sqlite.Delete.
    specialize (Hmut (sqlite.mkWALCommand sqlite.WALCommand_OP_DELETE k "")).
    destruct (sqlite.appendLog sd _) as [[e|] sd1];
      exact (Hmut _ _ eq_refl eq_refl).
  - exact Hc.
Qed.

Lemma sqlite_handle_index sd rq r sd' :
  sqlite.handle sd rq = (Ok r, sd') ->
  sqlite.tree sd' = fold_left apply_index (records_of rq) (sqlite.tree sd).
Proof.
  intros H. destruct rq as [k v|k|k v|k|a b]; cbn [sqlite.handle] in H.
  - unfold sqlite.Put in H.
    pose proof (sqlite_appendLog_tree sd
                  (sqlite.mkWALCommand sqlite.WALCommand_OP_PUT k v)) as T.
    destruct (sqlite.appendLog sd _) as [[e|] s1]; [discriminate|].
    injection H as _ <-. cbn in *. now rewrite T.
  - unfold sqlite.Get in H. destruct (btree.Get _ _); now injection H as _ <-.
  - unfold sqlite.Swap in H.
    pose proof (sqlite_appendLog_tree sd
                  (sqlite.mkWALCommand sqlite.WALCommand_OP_SWAP k v)) as T.
    destruct (sqlite.appendLog sd _) as [[e|] s1]; [discriminate|].
    cbn [snd] in T.
    destruct (btree.Get _ _); injection H as _ <-; cbn; now rewrite T.
  - unfold sqlite.Delete in H.
    pose proof (sqlite_appendLog_tree sd
                  (sqlite.mkWALCommand sqlite.WALCommand_OP_DELETE k "")) as T.
    destruct (sqlite.appendLog sd _) as [[e|] s1]; [discriminate|].
    injection H as _ <-. cbn in *. now rewrite T.
  - unfold sqlite.Scan in H. now injection H as _ <-.
Qed.

Lemma sqlite_serve_index rqs : forall sd replies sd',
  sqlite.serve sd rqs = (replies, sd') -> forallb is_ok replies = true ->
  sqlite.tree sd' =
  fold_left apply_index (flat_map records_of rqs) (sqlite.tree sd).
Proof.
  induction rqs as [|rq rest IH]; intros sd replies sd' H Hok.
  - now injection H as _ <-.
  - cbn [sqlite.serve flat_map] in *. rewrite fold_left_app.
    destruct (sqlite.handle sd rq) as [r s1] eqn:E1.
    destruct (sqlite.serve s1 rest) as [rs s2] eqn:E2.
    injection H as <- <-. cbn [forallb] in Hok. apply andb_prop in Hok as [Hr Hrs].
    destruct r as [r|e]; [|discriminate].
    rewrite (IH _ _ _ E2 Hrs). now rewrite (sqlite_handle_index _ _ _ _ E1).
Qed.

Lemma sqlite_newKVServer_empty dev sd :
  sqlite.newKVServer (sqlite.mkDB [] dev) = Ok sd ->
  sqlite.tree sd = btree.New /\ sqlite.wal_log (sqlite.db sd) = [].
Proof.
  unfold sqlite.newKVServer, sqlite.initDB, sqlite.Exec_schema,
    sqlite.replayLog, sqlite.Query_all.
  cbn [sqlite.db sqlite.db_faults sqlite.wal_log sqlite.tree].
  destruct dev as [|[|k] [|[|k'] dev]]; cbn; intros [= <-]; auto.
Qed.

Lemma db_consistent_serve rqs : forall s0,
  db_consistent codec s0 ->
  Forall (db_round_trip codec) (flat_map db_records_of rqs) ->
  db_consistent codec (snd (sqlite.serve s0 rqs)).
Proof.
  induction rqs as [|rq rest IH]; intros s0 Hstart Hn; [exact Hstart|].
  cbn [sqlite.serve flat_map] in *. apply Forall_app in Hn as [H1 H2].
  pose proof (db_consistent_handle s0 rq Hstart H1) as Hc.
  destruct (sqlite.handle s0 rq) as [r s1]. cbn [snd] in Hc.
  specialize (IH s1 Hc H2). now destruct (sqlite.serve s1 rest) as [rs s2].
Qed.

End SqliteLog.

(** Property X10.  In the SQLite-backed server, where a failing INSERT adds
    no row: from a state in which the index and the table agree, with a
    codec that reads back the record of every request, and on a database
    that may fail at any statement, the index and the table agree at every
    reply boundary, after a success reply as after an error reply: a restart
    on the rows of the table rebuilds the index. *)
Theorem sqlite_index_and_table_consistent (codec : sqlite.ProtoCodec)
    (s0 : sqlite.kvServer) (rqs : list request)
    (Hstart : db_consistent codec s0)
    (Hcodec : Forall (db_round_trip codec) (flat_map db_records_of rqs)) :
  forall n, db_consistent codec (snd (sqlite.serve s0 (firstn n rqs))).
Proof.
  intros n. apply db_consistent_serve; [exact Hstart|].
  rewrite Forall_forall in *. intros c (rq & Hin & Hc)%in_flat_map.
  apply Hcodec, in_flat_map. exists rq. split; [|exact Hc].
  rewrite <- (firstn_skipn n rqs). apply in_or_app. now left.
Qed.

(** Scenario S3 on a database whose second statement fails. *)
Lemma sqlite_index_and_table_consistent_witness :
  db_consistent sqlite.sample_codec
    (snd (@sqlite.serve sqlite.sample_codec
            (sqlite.mkServer btree.New (sqlite.mkDB [] [io_ok; io_fail 0]))
            scenario_S3)).
Proof.
  apply (sqlite_index_and_table_consistent sqlite.sample_codec
           (sqlite.mkServer btree.New (sqlite.mkDB [] [io_ok; io_fail 0]))
           scenario_S3
           (ex_intro _ (@sqlite.fresh) (conj eq_refl (conj eq_refl eq_refl)))
           ltac:(repeat constructor; intros p H; vm_compute in H;
                 injection H as <-; reflexivity)
           (List.length scenario_S3)).
Defined.

(** Property X11.  After a run of acknowledged requests on the SQLite-backed
    server started on an empty table, with a codec that reads back the
    record of every request, a restart on a database without faults rebuilds
    the index of the run, and GET k returns the value that the last PUT or
    SWAP of k installed (absence after a DELETE), whatever the bytes of the
    keys and values. *)
Theorem sqlite_recovery_restores_acknowledged (codec : sqlite.ProtoCodec)
    (rqs : list request) (dev : list io_outcome) (s0 s : sqlite.kvServer)
    (replies : list (result reply))
    (Hstart : sqlite.newKVServer (sqlite.mkDB [] dev) = Ok s0)
    (Hcodec : Forall (db_round_trip codec) (flat_map db_records_of rqs))
    (Hrun : sqlite.serve s0 rqs = (replies, s))
    (Hack : forallb is_ok replies = true) :
  exists s',
    sqlite.restart s [] = Ok s'
    /\ sqlite.tree s' = sqlite.tree s
    /\ forall k, sqlite.Get s' k = (Ok (get_reply (last_value rqs k)), s').
Proof.
  destruct (sqlite_newKVServer_empty _ _ Hstart) as [T0 W0].
  assert (C0 : db_consistent codec s0).
  { exists (sqlite.mkServer btree.New (sqlite.mkDB [] [])).
    unfold sqlite.restart. rewrite W0, T0. auto. }
  pose proof (db_consistent_serve rqs s0 C0 Hcodec) as Hc.
  rewrite Hrun in Hc. cbn [snd] in Hc.
  destruct Hc as (s' & Hr & Ht & _). exists s'.
  split; [exact Hr|]. split; [exact Ht|].
  intros k. pose proof (sqlite_serve_index _ _ _ _ Hrun Hack) as Hi.
  rewrite T0 in Hi. destruct (index_lookup rqs btree.New eq_refl) as [_ Hl].
  unfold sqlite.Get, last_value.
  change (installed None rqs k) with (installed (lookup btree.New k) rqs k).
  rewrite <- (Hl k), <- Hi, <- Ht. unfold lookup.
  now destruct (btree.Get (sqlite.tree s') _).
Qed.

(** Scenario S3 and a restart. *)
Lemma sqlite_recovery_restores_acknowledged_witness :
  exists s',
    @sqlite.restart sqlite.sample_codec
      (snd (@sqlite.serve sqlite.sample_codec sqlite.fresh scenario_S3)) [] = Ok s'
    /\ sqlite.tree s' =
       sqlite.tree (snd (@sqlite.serve sqlite.sample_codec sqlite.fresh scenario_S3))
    /\ forall k, sqlite.Get s' k = (Ok (get_reply (last_value scenario_S3 k)), s').
Proof.
  apply (sqlite_recovery_restores_acknowledged sqlite.sample_codec scenario_S3 []
           sqlite.fresh
           (snd (@sqlite.serve sqlite.sample_codec sqlite.fresh scenario_S3))
           (fst (@sqlite.serve sqlite.sample_codec sqlite.fresh scenario_S3))).
  - reflexivity.
  - repeat constructor; intros p H; vm_compute in H; injection H as <-;
      reflexivity.
  - vm_compute. reflexivity.
  - vm_compute. reflexivity.
Defined.

(** ** The size of a payload and the bound of a frame *)

Section PayloadSize.
Import json.

Lemma DecodeRune_size c0 p1 r n :
  utf8.DecodeRune (c0 :: p1) = (r, n) ->
  1 <= n <= 4 /\ n <= List.length (c0 :: p1).
Proof.
  intros H. destruct (DecodeRune_spec _ _ _ _ H) as [(-> & _)|[(-> & _)|Hd]].
  - cbn [List.length]. lia.
  - cbn [List.length]. lia.
  - pose proof (decoded_width _ _ _ Hd). destruct (decoded_split _ _ _ Hd) as [_ Hl].
    rewrite length_firstn in Hl. lia.
Qed.

Lemma ascii_piece_length c :
  1 <= List.length (ascii_piece c) <= 6.
Proof.
  unfold ascii_piece, escape. destruct (htmlSafeSet c); [cbn; lia|].
  repeat match goal with
         | |- context [if ?b then _ else _] => destruct b
         end; cbn; lia.
Qed.

(** Every byte of the source costs at least one byte of the literal and
    at most six. *)
Lemma appendString_loop_length src : forall skip,
  List.length src <= List.length (appendString_loop src skip) + skip
  /\ List.length (appendString_loop src skip) <= 6 * List.length src.
Proof.
  induction src as [|c rest IH]; intros skip; [cbn; lia|].
  destruct skip as [|k].
  - rewrite appendString_loop_cons.
    destruct (N.ltb (b2n c) utf8.RuneSelf).
    + rewrite length_app. pose proof (ascii_piece_length c).
      destruct (IH 0). cbn [List.length]. lia.
    + rewrite DecodeRune_firstn.
      destruct (utf8.DecodeRune (c :: rest)) as [r size] eqn:E.
      destruct (DecodeRune_size _ _ _ _ E) as [Hs Hl]. cbn [List.length] in Hl.
      destruct (IH 0) as [L0 U0]. destruct (IH (size - 1)) as [L1 U1].
      destruct ((r =? utf8.RuneError)%N && (size =? 1)%nat);
        [|destruct ((r =? 0x2028)%N || (r =? 0x2029)%N)];
        rewrite ?length_app, ?length_firstn; cbn [List.length bytes
          list_ascii_of_string]; lia.
  - cbn [appendString_loop List.length]. destruct (IH k). lia.
Qed.

Lemma bytes_length s : List.length (bytes s) = String.length s.
Proof.
  unfold bytes. induction s as [|c s IH]; [reflexivity|].
  cbn [list_ascii_of_string List.length String.length]. now rewrite IH.
Qed.

Lemma appendString_length s :
  String.length s + 2 <= List.length (appendString s) <= 6 * String.length s + 2.
Proof.
  unfold appendString. cbn [List.length]. rewrite length_app. cbn [List.length].
  destruct (appendString_loop_length (bytes s) 0) as [L U].
  rewrite bytes_length in L, U. lia.
Qed.

Lemma Marshal_length cmd :
  18 + String.length (Op cmd) + String.length (Key cmd) + String.length (Value cmd)
  <= List.length (fst (Marshal cmd))
  <= 29 + 6 * (String.length (Op cmd) + String.length (Key cmd)
               + String.length (Value cmd)).
Proof.
  unfold Marshal. cbn [fst]. unfold field_prefix.
  pose proof (appendString_length (Op cmd)).
  pose proof (appendString_length (Key cmd)).
  pose proof (appendString_length (Value cmd)).
  destruct (Nat.eqb_spec (String.length (Value cmd)) 0) as [Hv|Hv];
    repeat first [rewrite length_app
                 |progress cbn [List.length bytes list_ascii_of_string app]];
    lia.
Qed.

Lemma Marshal_length_valid cmd :
  isValidOp (Op cmd) = true ->
  List.length (fst (Marshal cmd))
  <= 24 + 6 * String.length (Key cmd)
     + (if (String.length (Value cmd) =? 0)%nat then 0
        else 11 + 6 * String.length (Value cmd)).
Proof.
  intros Hop.
  assert (Ho : List.length (appendString (Op cmd)) <= 8).
  { unfold isValidOp in Hop.
    apply orb_prop in Hop as [Hop|Hop]; [apply orb_prop in Hop as [Hop|Hop]|];
      apply String.eqb_eq in Hop; rewrite Hop; cbn; lia. }
  unfold Marshal. cbn [fst]. unfold field_prefix.
  pose proof (appendString_length (Key cmd)).
  pose proof (appendString_length (Value cmd)).
  destruct (Nat.eqb_spec (String.length (Value cmd)) 0) as [Hv|Hv];
    repeat first [rewrite length_app
                 |progress cbn [List.length bytes list_ascii_of_string app]];
    lia.
Qed.

End PayloadSize.

(** Property X12.  A PUT or a SWAP whose key and value have more than 1003
    bytes together, and a DELETE whose key has more than 1000 bytes, is
    refused for the bound of a frame, on any device, and leaves the whole
    server state as it was: index, log and handle. *)
Theorem oversized_request_refused (s : kvServer) (k v : string) :
  (1003 < String.length k + String.length v ->
   Put s k v = (Err (Errorf "wal payload too large"), s)
   /\ Swap s k v = (Err (Errorf "wal payload too large"), s))
  /\ (1000 < String.length k ->
      Delete s k = (Err (Errorf "wal payload too large"), s)).
Proof.
  split; [intros H; split|intros H].
  - unfold Put. rewrite appendWAL_too_large; [reflexivity..|].
    pose proof (Marshal_length (mkCmd "put" k v)) as L.
    cbn [Op Key Value String.length] in L.
    change maxWALFrameSize with 1024. lia.
  - unfold Swap. rewrite appendWAL_too_large; [reflexivity..|].
    pose proof (Marshal_length (mkCmd "swap" k v)) as L.
    cbn [Op Key Value String.length] in L.
    change maxWALFrameSize with 1024. lia.
  - unfold Delete. rewrite appendWAL_too_large; [reflexivity..|].
    pose proof (Marshal_length (mkCmd "delete" k "")) as L.
    cbn [Op Key Value String.length] in L.
    change maxWALFrameSize with 1024. lia.
Qed.

(** Property X13.  On a device without faults, a PUT, a SWAP and a DELETE
    whose key and value have at most 164 bytes together are acknowledged,
    whatever their bytes: each byte takes at most six bytes of the payload. *)
Theorem small_request_accepted (s : kvServer) (k v : string)
    (Hdev : faults (logFile s) = [])
    (Hsize : String.length k + String.length v <= 164) :
  is_ok (fst (Put s k v)) = true
  /\ is_ok (fst (Swap s k v)) = true
  /\ is_ok (fst (Delete s k)) = true.
Proof.
  assert (Hfit : forall op, isValidOp op = true ->
            List.length (fst (json.Marshal (mkCmd op k v))) <= maxWALFrameSize
            /\ List.length (fst (json.Marshal (mkCmd op k ""))) <= maxWALFrameSize).
  { intros op Hop. change maxWALFrameSize with 1024.
    pose proof (Marshal_length_valid (mkCmd op k v) Hop) as L1.
    pose proof (Marshal_length_valid (mkCmd op k "") Hop) as L2.
    cbn [Op Key Value String.length Nat.eqb] in L1, L2.
    destruct (String.length v =? 0)%nat; lia. }
  split; [|split].
  - unfold Put.
    destruct (appendWAL_sound s (mkCmd "put" k v) Hdev eq_refl
                (proj1 (Hfit "put" eq_refl))) as [s' ->]. reflexivity.
  - unfold Swap.
    destruct (appendWAL_sound s (mkCmd "swap" k v) Hdev eq_refl
                (proj1 (Hfit "swap" eq_refl))) as [s' ->].
    now destruct (btree.Get _ _).
  - unfold Delete.
    destruct (appendWAL_sound s (mkCmd "delete" k "") Hdev eq_refl
                (proj2 (Hfit "delete" eq_refl))) as [s' ->]. reflexivity.
Qed.

(** Requests on the key and the value of one byte [0xFF]. *)
Lemma small_request_accepted_witness :
  is_ok (fst (Put fresh key_ff key_ff)) = true
  /\ is_ok (fst (Swap fresh key_ff key_ff)) = true
  /\ is_ok (fst (Delete fresh key_ff)) = true.
Proof.
  apply (small_request_accepted fresh key_ff key_ff); [reflexivity|cbn; lia].
Defined.

(** A PUT of a value of 2000 bytes and a DELETE of a key of 1003 bytes. *)
Lemma oversized_request_refused_witness :
  Put fresh "big" big_value = (Err (Errorf "wal payload too large"), fresh)
  /\ Delete fresh key_1003 = (Err (Errorf "wal payload too large"), fresh).
Proof.
  destruct (oversized_request_refused fresh "big" big_value) as [H1 _].
  destruct (oversized_request_refused fresh key_1003 "") as [_ H2].
  split.
  - apply H1. apply Nat.ltb_lt. vm_compute. reflexivity.
  - apply H2. apply Nat.ltb_lt. vm_compute. reflexivity.
Defined.

(** ** What follows the frames of a log *)

Section Tail.

(** Fuel beyond what the loop uses does not change the replay. *)
Lemma wal_records_loop_more fuel : forall f k,
  fst (fst (wal_records_loop fuel f)) <> Some fuel_exhausted ->
  wal_records_loop (k + fuel) f = wal_records_loop fuel f.
Proof.
  induction fuel as [|fuel IH]; intros f k H; [now destruct H|].
  rewrite Nat.add_succ_r. cbn [wal_records_loop] in H |- *.
  destruct (readFullWithEOFAsBoundary f 4) as [[lenBuf err] f1].
  destruct (errors_Is err io_EOF); [reflexivity|].
  destruct (errors_Is err io_ErrUnexpectedEOF); [reflexivity|].
  destruct err as [e|]; [reflexivity|].
  destruct (N.ltb _ _); [reflexivity|].
  destruct (readFullWithEOFAsBoundary f1 _) as [[payload err] f2].
  destruct (errors_Is err io_ErrUnexpectedEOF); [reflexivity|].
  destruct err as [e|]; [reflexivity|].
  destruct (decodeCommand payload) as [cmd|e]; [|reflexivity].
  rewrite IH; [reflexivity|].
  now destruct (wal_records_loop fuel f2) as [[err' cs] f3].
Qed.

Lemma wal_records_fuel d fuel :
  List.length d < fuel ->
  (let '(err, cmds, _) := wal_records_loop fuel (mkFile d 0 []) in (err, cmds))
  = wal_records d.
Proof.
  intros Hf. unfold wal_records.
  replace fuel with ((fuel - S (List.length d)) + S (List.length d)) by lia.
  rewrite wal_records_loop_more; [reflexivity|].
  pose proof (wal_records_loop_fuel (S (List.length d)) (mkFile d 0 [])
                ltac:(cbn; lia)) as H.
  destruct (wal_records_loop _ _) as [[err cmds] f']. cbn [fst]. tauto.
Qed.

(** A read behind a prefix of the file is the read of the rest. *)
Lemma read_shift pre t o n :
  readFullWithEOFAsBoundary (mkFile (pre ++ t) (List.length pre + o) []) n =
  let '(buf, err, f') := readFullWithEOFAsBoundary (mkFile t o []) n in
  (buf, err, mkFile (pre ++ t) (List.length pre + off f') []).
Proof.
  rewrite !read_cases. rewrite length_app.
  destruct (Nat.eqb_spec n 0); [reflexivity|].
  assert (Hs : skipn (List.length pre + o) (pre ++ t) = skipn o t).
  { rewrite skipn_app, skipn_all2 by lia. cbn [app]. f_equal. lia. }
  rewrite Hs.
  destruct (Nat.leb_spec (o + n) (List.length t)).
  { destruct (Nat.leb_spec (List.length pre + o + n)
                (List.length pre + List.length t)); [|lia].
    cbn [off]. now rewrite Nat.add_assoc. }
  destruct (Nat.leb_spec (List.length pre + o + n)
              (List.length pre + List.length t)); [lia|].
  destruct (Nat.leb_spec (List.length t) o).
  { destruct (Nat.leb_spec (List.length pre + List.length t)
                (List.length pre + o)); [|lia]. reflexivity. }
  destruct (Nat.leb_spec (List.length pre + List.length t)
              (List.length pre + o)); [lia|]. reflexivity.
Qed.

Lemma wal_records_loop_shift fuel : forall pre t o,
  fst (wal_records_loop fuel (mkFile (pre ++ t) (List.length pre + o) [])) =
  fst (wal_records_loop fuel (mkFile t o [])).
Proof.
  induction fuel as [|fuel IH]; intros pre t o; [reflexivity|].
  cbn [wal_records_loop]. rewrite read_shift.
  pose proof (read_result (mkFile t o []) 4) as R1.
  destruct (readFullWithEOFAsBoundary (mkFile t o []) 4) as [[lenBuf err] f1].
  destruct R1 as (D1 & F1 & _). cbn [data faults] in D1, F1.
  destruct (errors_Is err io_EOF); [reflexivity|].
  destruct (errors_Is err io_ErrUnexpectedEOF); [reflexivity|].
  destruct err as [e|]; [reflexivity|].
  destruct (N.ltb _ _); [reflexivity|].
  destruct f1 as [d1 o1 fl1]. cbn [data faults off] in *. subst d1.
  rewrite (F1 eq_refl). rewrite read_shift.
  pose proof (read_result (mkFile t o1 []) (N.to_nat (binary.Uint32 lenBuf))) as R2.
  destruct (readFullWithEOFAsBoundary (mkFile t o1 []) _) as [[payload err] f2].
  destruct R2 as (D2 & F2 & _). cbn [data faults] in D2, F2.
  destruct (errors_Is err io_ErrUnexpectedEOF); [reflexivity|].
  destruct err as [e|]; [reflexivity|].
  destruct (decodeCommand payload) as [cmd|e]; [|reflexivity].
  destruct f2 as [d2 o2 fl2]. cbn [data faults off] in *. subst d2.
  rewrite (F2 eq_refl). specialize (IH pre t o2).
  destruct (wal_records_loop fuel (mkFile (pre ++ t) _ [])) as [[e1 c1] g1].
  destruct (wal_records_loop fuel (mkFile t o2 [])) as [[e2 c2] g2].
  cbn [fst] in *. now injection IH as -> ->.
Qed.

(** The frames of acceptable records at the handle are replayed, and the
    replay goes on behind them. *)
Lemma wal_records_loop_prefix cmds : forall fuel pre rest,
  forallb acceptable cmds = true ->
  wal_records_loop (List.length cmds + fuel)
    (mkFile (pre ++ List.concat (map frame cmds) ++ rest) (List.length pre) []) =
  let '(err, cs, f') :=
    wal_records_loop fuel
      (mkFile (pre ++ List.concat (map frame cmds) ++ rest)
         (List.length (pre ++ List.concat (map frame cmds))) [])
  in (err, cmds ++ cs, f').
Proof.
  induction cmds as [|cmd cmds IH]; intros fuel pre rest Hacc.
  - cbn [map List.concat List.length app Nat.add]. rewrite app_nil_r.
    now destruct (wal_records_loop fuel _) as [[err cs] f'].
  - cbn [forallb] in Hacc. apply andb_prop in Hacc as [Ha Hacc].
    cbn [map List.concat List.length Nat.add]. rewrite <- !app_assoc.
    rewrite wal_records_loop_frame by assumption.
    specialize (IH fuel (pre ++ frame cmd) rest Hacc).
    rewrite <- !app_assoc in IH. rewrite IH.
    rewrite !app_assoc. clear IH.
    generalize (wal_records_loop fuel
       {| data := ((pre ++ frame cmd) ++ List.concat (map frame cmds)) ++ rest;
          off := Datatypes.length
                   ((pre ++ frame cmd) ++ List.concat (map frame cmds));
          faults := [] |}).
    intros [[err cs] f']. reflexivity.
Qed.

Lemma concat_frames_length cmds :
  List.length cmds <= List.length (List.concat (map frame cmds)).
Proof.
  induction cmds as [|cmd cmds IH]; [reflexivity|].
  cbn [map List.concat List.length]. rewrite length_app, frame_length. lia.
Qed.

(** The replay of a log that begins with the frames of acceptable records:
    these records, then the replay of what follows them. *)
Lemma wal_records_prefix cmds tail :
  forallb acceptable cmds = true ->
  wal_records (List.concat (map frame cmds) ++ tail) =
  let '(err, cs) := wal_records tail in (err, cmds ++ cs).
Proof.
  intros Hacc. pose proof (concat_frames_length cmds) as Hl.
  set (C := List.concat (map frame cmds)) in *.
  unfold wal_records at 1.
  replace (S (List.length (C ++ tail)))
    with (List.length cmds + (S (List.length (C ++ tail)) - List.length cmds))
    by (rewrite length_app; lia).
  pose proof (wal_records_loop_prefix cmds
                (S (List.length (C ++ tail)) - List.length cmds) [] tail Hacc)
    as Hp.
  cbn [app List.length] in Hp. fold C in Hp. rewrite Hp. clear Hp.
  pose proof (wal_records_loop_shift
                (S (List.length (C ++ tail)) - List.length cmds) C tail 0) as Hs.
  rewrite Nat.add_0_r in Hs.
  pose proof (wal_records_fuel tail
                (S (List.length (C ++ tail)) - List.length cmds)
                ltac:(rewrite length_app; lia)) as Hf.
  destruct (wal_records_loop _ (mkFile (C ++ tail) _ _)) as [[e1 c1] g1].
  destruct (wal_records_loop _ (mkFile tail 0 [])) as [[e2 c2] g2].
  cbn [fst] in Hs. injection Hs as -> ->. now rewrite <- Hf.
Qed.

Lemma Uint32_firstn tail :
  4 <= List.length tail -> binary.Uint32 (firstn 4 tail) = binary.Uint32 tail.
Proof.
  destruct tail as [|b0 [|b1 [|b2 [|b3 t]]]]; cbn [List.length]; try lia.
  reflexivity.
Qed.

(** The first pass of the replay over what follows the last whole
    frame. *)
Lemma wal_records_short tail :
  List.length tail < 4 -> wal_records tail = (None, []).
Proof.
  intros H. unfold wal_records. cbn [wal_records_loop].
  rewrite read_cases. cbn [Nat.eqb Nat.add].
  destruct (Nat.leb_spec 4 (List.length tail)); [lia|].
  destruct (Nat.leb_spec (List.length tail) 0); reflexivity.
Qed.

Lemma wal_records_header tail :
  4 <= List.length tail ->
  wal_records tail =
  if (N.of_nat maxWALFrameSize <? binary.Uint32 tail)%N then
    (Some (Errorf "wal frame too large"), [])
  else
    let '(payload, err, f2) :=
      readFullWithEOFAsBoundary (mkFile tail 4 [])
        (N.to_nat (binary.Uint32 tail)) in
    if errors_Is err io_ErrUnexpectedEOF then (None, [])
    else
      match err with
      | Some e => (Some (Errorw "read wal frame payload" e), [])
      | None =>
          match decodeCommand payload with
          | Err e => (Some e, [])
          | Ok cmd =>
              let '(err', cmds, _) :=
                wal_records_loop (List.length tail) f2 in
              (err', cmd :: cmds)
          end
      end.
Proof.
  intros H. unfold wal_records. cbn [wal_records_loop].
  rewrite read_cases. cbn [Nat.eqb Nat.add].
  destruct (Nat.leb_spec 4 (List.length tail)); [|lia].
  cbn [skipn errors_Is]. rewrite Uint32_firstn by assumption.
  destruct (N.ltb _ _); [reflexivity|].
  destruct (readFullWithEOFAsBoundary _ _) as [[payload err] f2].
  destruct (errors_Is err io_ErrUnexpectedEOF); [reflexivity|].
  destruct err as [e|]; [reflexivity|].
  destruct (decodeCommand payload) as [cmd|e]; [|reflexivity].
  now destruct (wal_records_loop _ f2) as [[err' cs] f3].
Qed.

Lemma wal_records_partial tail :
  4 < List.length tail ->
  (binary.Uint32 tail <= N.of_nat maxWALFrameSize)%N ->
  List.length tail - 4 < N.to_nat (binary.Uint32 tail) ->
  wal_records tail = (None, []).
Proof.
  intros H4 Hle Hlt. rewrite wal_records_header by lia.
  destruct (N.ltb_spec (N.of_nat maxWALFrameSize) (binary.Uint32 tail)); [lia|].
  rewrite read_cases.
  destruct (Nat.eqb_spec (N.to_nat (binary.Uint32 tail)) 0); [lia|].
  destruct (Nat.leb_spec (4 + N.to_nat (binary.Uint32 tail)) (List.length tail));
    [lia|].
  destruct (Nat.leb_spec (List.length tail) 4); [lia|]. reflexivity.
Qed.

Lemma wal_records_too_large tail :
  4 <= List.length tail ->
  (N.of_nat maxWALFrameSize < binary.Uint32 tail)%N ->
  wal_records tail = (Some (Errorf "wal frame too large"), []).
Proof.
  intros H4 Hgt. rewrite wal_records_header by lia.
  now destruct (N.ltb_spec (N.of_nat maxWALFrameSize) (binary.Uint32 tail)); [|lia].
Qed.

Lemma wal_records_header_only tail :
  List.length tail = 4 ->
  (0 < binary.Uint32 tail <= N.of_nat maxWALFrameSize)%N ->
  wal_records tail = (Some (Errorw "read wal frame payload" io_EOF), []).
Proof.
  intros H4 [Hpos Hle]. rewrite wal_records_header by lia.
  destruct (N.ltb_spec (N.of_nat maxWALFrameSize) (binary.Uint32 tail)); [lia|].
  rewrite read_cases.
  destruct (Nat.eqb_spec (N.to_nat (binary.Uint32 tail)) 0); [lia|].
  destruct (Nat.leb_spec (4 + N.to_nat (binary.Uint32 tail)) (List.length tail));
    [lia|].
  destruct (Nat.leb_spec (List.length tail) 4); [|lia]. reflexivity.
Qed.

Lemma wal_records_empty_frame tail :
  4 <= List.length tail -> binary.Uint32 tail = 0%N ->
  wal_records tail = (Some (Errorw "decode wal command" json_SyntaxError), []).
Proof.
  intros H4 Hz. rewrite wal_records_header by lia. rewrite Hz.
  change (N.of_nat maxWALFrameSize <? 0)%N with false. cbv iota.
  rewrite read_cases. reflexivity.
Qed.

Lemma newKVServer_prefix cmds tail :
  forallb acceptable cmds = true ->
  newKVServer (os.OpenFile (List.concat (map frame cmds) ++ tail) []) =
  match wal_records tail with
  | (None, cs) =>
      Ok (mkServer (fold_left apply_index (cmds ++ cs) btree.New)
            (mkFile (List.concat (map frame cmds) ++ tail)
               (List.length (List.concat (map frame cmds) ++ tail)) []))
  | (Some e, _) => Err e
  end.
Proof.
  intros Hacc. rewrite newKVServer_records, wal_records_prefix by assumption.
  now destruct (wal_records tail) as [[e|] cs].
Qed.

End Tail.

(** Property X14.  A log that consists of the frames of acceptable records
    and ends in a partial frame (fewer than four bytes of a length, or a
    length within the bound followed by at least one byte of the payload but
    fewer than the length says) is recovered on a device without faults: the
    partial frame is ignored, the index is the fold of the applier over the
    records of the whole frames, and the handle is at the end of the file,
    behind the partial frame. *)
Theorem trailing_partial_frame_ignored (cmds : list walCommand)
    (tail : list byte)
    (Hlog : forallb acceptable cmds = true)
    (Hpartial :
       List.length tail < 4
       \/ (4 < List.length tail
           /\ (binary.Uint32 tail <= N.of_nat maxWALFrameSize)%N
           /\ List.length tail - 4 < N.to_nat (binary.Uint32 tail))) :
  newKVServer (os.OpenFile (List.concat (map frame cmds) ++ tail) []) =
  Ok (mkServer (fold_left apply_index cmds btree.New)
        (mkFile (List.concat (map frame cmds) ++ tail)
           (List.length (List.concat (map frame cmds) ++ tail)) [])).
Proof.
  rewrite newKVServer_prefix by assumption.
  destruct Hpartial as [H|(H1 & H2 & H3)].
  - rewrite wal_records_short by assumption. now rewrite app_nil_r.
  - rewrite wal_records_partial by assumption. now rewrite app_nil_r.
Qed.

(** The log of scenario S5. *)
Lemma trailing_partial_frame_ignored_witness :
  newKVServer (os.OpenFile log_S5 []) = Ok server_S5.
Proof.
  apply (trailing_partial_frame_ignored [mkCmd "put" "x" "1"]
           (binary.PutUint32 10 ++ json.bytes "abc")).
  - reflexivity.
  - right. vm_compute. repeat split; try lia; discriminate.
Defined.

(** Property X15.  A log that consists of the frames of acceptable records
    followed by a length of four bytes is not recovered, on a device without
    faults, when the length exceeds the bound of a frame ("wal frame too
    large"), when the length is zero (the empty payload is not a JSON
    value), and when the length is within the bound and the file ends right
    behind it (the read of the payload returns [io.EOF], which the replay
    does not take for a partial frame). *)
Theorem malformed_tail_aborts_recovery (cmds : list walCommand)
    (tail : list byte)
    (Hlog : forallb acceptable cmds = true)
    (Hheader : 4 <= List.length tail) :
  ((N.of_nat maxWALFrameSize < binary.Uint32 tail)%N ->
   newKVServer (os.OpenFile (List.concat (map frame cmds) ++ tail) []) =
   Err (Errorf "wal frame too large"))
  /\ (binary.Uint32 tail = 0%N ->
      newKVServer (os.OpenFile (List.concat (map frame cmds) ++ tail) []) =
      Err (Errorw "decode wal command" json_SyntaxError))
  /\ (List.length tail = 4 ->
      (0 < binary.Uint32 tail <= N.of_nat maxWALFrameSize)%N ->
      newKVServer (os.OpenFile (List.concat (map frame cmds) ++ tail) []) =
      Err (Errorw "read wal frame payload" io_EOF)).
Proof.
  rewrite newKVServer_prefix by assumption. repeat split.
  - intros H. now rewrite wal_records_too_large.
  - intros H. now rewrite wal_records_empty_frame.
  - intros H4 H. now rewrite wal_records_header_only.
Qed.

(** A log that ends right after a length prefix. *)
Lemma malformed_tail_aborts_recovery_witness :
  newKVServer (os.OpenFile log_header_only []) =
  Err (Errorw "read wal frame payload" io_EOF).
Proof.
  apply (malformed_tail_aborts_recovery [mkCmd "put" "x" "1"]
           (binary.PutUint32 10)); [reflexivity|vm_compute; lia|reflexivity|].
  vm_compute. split; [reflexivity|discriminate].
Defined.
